(** * Channel identity resolution and merge: a shallow embedding

  This development embeds the two scripts of the EPG channel pipeline,

  - [custom/scripts/merge_custom_channels.py] (module [Merge]) and
  - [custom/scripts/archived/step2_enrich_with_preferred_channels.py]
    (module [Enrich]),

  and states the properties of their normalizers, of the preferred index,
  of the resolver, of the category filter and of the merge engine.

  Conventions.  Python strings are modelled as Rocq strings over the
  ASCII alphabet; the character-level functions work on [list ascii].
  On ASCII text [lower], [upper], [strip], the classes [\s] and [\b] of
  the [re] module below agree with CPython; a byte above 127 is carried
  as an opaque symbol (no case, not a space, not a word character).
  Dictionaries that are only looked up are [gmap]s; the merge table,
  whose insertion order is observable through [list(merged.values())],
  is an association list. *)

From Stdlib Require Import Ascii String.
From stdpp Require Import gmap strings list fin_maps sorting.

(** ** Python string primitives *)

(** Text is modelled as a list of one-byte characters.  The character
    classes and the case maps below are those of Python on ASCII text
    (codes below 128); on other characters [str.lower], [str.upper],
    [str.isspace] and the regex classes of Python are Unicode-aware and
    are not modelled.  Every statement that depends on these tables is made
    for ASCII text ([Spec.ascii_only]). *)

Module Py.

Definition chars := list ascii.

Definition code (c : ascii) : nat := nat_of_ascii c.

Definition in_range (lo hi : nat) (c : ascii) : bool :=
  (lo <=? code c) && (code c <=? hi).

(** [str.isspace] on ASCII: TAB..CR, FS..US and the blank.  The same
    class is what [\s] matches and what [str.strip()] removes. *)
Definition is_space (c : ascii) : bool :=
  in_range 9 13 c || in_range 28 32 c.

Definition is_digit (c : ascii) : bool := in_range 48 57 c.
Definition is_upper (c : ascii) : bool := in_range 65 90 c.
Definition is_lower (c : ascii) : bool := in_range 97 122 c.

(** [\w]: letters, digits and the underscore. *)
Definition is_word (c : ascii) : bool :=
  is_digit c || is_upper c || is_lower c || (code c =? 95).

(** The class [[a-z0-9]]. *)
Definition is_lower_alnum (c : ascii) : bool := is_lower c || is_digit c.

Definition lower_char (c : ascii) : ascii :=
  if is_upper c then ascii_of_nat (code c + 32) else c.

Definition upper_char (c : ascii) : ascii :=
  if is_lower c then ascii_of_nat (code c - 32) else c.

Definition lower (s : chars) : chars := map lower_char s.
Definition upper (s : chars) : chars := map upper_char s.

(** [str.lstrip()], [str.rstrip()], [str.strip()]. *)
Fixpoint lstrip (s : chars) : chars :=
  match s with
  | [] => []
  | c :: s' => if is_space c then lstrip s' else s
  end.

Fixpoint rstrip (s : chars) : chars :=
  match s with
  | [] => []
  | c :: s' =>
      match rstrip s' with
      | [] => if is_space c then [] else [c]
      | r => c :: r
      end
  end.

Definition strip (s : chars) : chars := rstrip (lstrip s).

(** [s.split(sep)] for a one-character separator: never empty, the
    pieces between consecutive separators, empty pieces included. *)
Fixpoint split (sep : ascii) (s : chars) : list chars :=
  match s with
  | [] => [[]]
  | c :: s' =>
      if decide (c = sep) then [] :: split sep s'
      else match split sep s' with
           | [] => [[c]]
           | p :: ps => (c :: p) :: ps
           end
  end.

Fixpoint startswith (p s : chars) : bool :=
  match p, s with
  | [], _ => true
  | _ :: _, [] => false
  | a :: p', b :: s' => bool_decide (a = b) && startswith p' s'
  end.

(** String-level wrappers. *)
Definition of_string (s : string) : chars := list_ascii_of_string s.
Definition to_string (l : chars) : string := string_of_list_ascii l.

Definition on_string (f : chars → chars) (s : string) : string :=
  to_string (f (of_string s)).

Definition str_strip : string → string := on_string strip.
Definition str_lower : string → string := on_string lower.
Definition str_upper : string → string := on_string upper.
Definition str_split (sep : ascii) (s : string) : list string :=
  to_string <$> split sep (of_string s).
Definition str_startswith (p s : string) : bool :=
  startswith (of_string p) (of_string s).

End Py.

(** ** The fragment of [re.sub] the scripts use *)

Module Re.
Import Py.

Definition word_opt (o : option ascii) : bool :=
  match o with Some c => is_word c | None => false end.

(** [\b] between the character before the position and the one after
    it; outside the string counts as a non-word character. *)
Definition boundary (before after : option ascii) : bool :=
  xorb (word_opt before) (word_opt after).

(** A matcher says, for the character before the position and the text
    from the position on, how many characters a match there consumes. *)
Definition matcher := option ascii → chars → option nat.

(** [re.sub(pattern, repl, s)]: scan left to right; at the leftmost
    position where the pattern matches emit [repl] and resume after the
    match.  [skip] counts the characters of the current match still to
    be consumed.  Only patterns that match at least one character are
    used. *)
Fixpoint sub_from (m : matcher) (repl : chars)
    (prev : option ascii) (skip : nat) (s : chars) : chars :=
  match s with
  | [] => []
  | c :: s' =>
      match skip with
      | S k => sub_from m repl (Some c) k s'
      | 0 =>
          match m prev s with
          | Some (S k) => repl ++ sub_from m repl (Some c) k s'
          | _ => c :: sub_from m repl (Some c) 0 s'
          end
      end
  end.

Definition sub (m : matcher) (repl : chars) (s : chars) : chars :=
  sub_from m repl None 0 s.

(** The pattern [\bTOKEN\b] for a literal token. *)
Definition whole_word (tok : chars) : matcher := λ prev s,
  if boundary prev (head s)
     && startswith tok s
     && boundary (last tok) (head (drop (length tok) s))
  then Some (length tok) else None.

(** The pattern [LITERAL\b]. *)
Definition literal_then_boundary (lit : chars) : matcher := λ _ s,
  if startswith lit s
     && boundary (last lit) (head (drop (length lit) s))
  then Some (length lit) else None.

(** [re.sub("[CLASS]", " ", s)]: every character of the class becomes a
    blank. *)
Definition blank_class (cls : ascii → bool) (s : chars) : chars :=
  map (λ c, if cls c then " "%char else c) s.

(** [re.sub("[^CLASS]+", "", s)]: every maximal run outside the class is
    deleted, which keeps exactly the characters of the class. *)
Definition keep_class (cls : ascii → bool) (s : chars) : chars :=
  filter (λ c, cls c = true) s.

(** [re.sub(r"\s+", " ", s)]: every maximal run of blanks becomes one
    blank. *)
Fixpoint collapse_from (in_run : bool) (s : chars) : chars :=
  match s with
  | [] => []
  | c :: s' =>
      if is_space c
      then (if in_run then collapse_from true s'
            else " "%char :: collapse_from true s')
      else c :: collapse_from false s'
  end.

Definition collapse_spaces (s : chars) : chars := collapse_from false s.

End Re.

(** ** merge_custom_channels.py *)

Module Merge.
Import Py Re.

Definition QUALITY_TAGS : list string := ["hd"; "uhd"; "4k"; "fhd"; "sd"].
Definition PROVIDER_TAGS : list string :=
  ["directv"; "pluto"; "plex"; "freeview"; "sky"; "virgin"; "tvguide";
   "tvinsider"; "tv24"; "streaming"; "epgshare"].
Definition TIMESHIFT_TAGS : list string :=
  ["+1"; "+2"; "timeshift"; "east"; "west"].

(** The class [[\(\)\[\]\-_/&,+.']]. *)
Definition is_punct (c : ascii) : bool :=
  bool_decide (c ∈ of_string "()[]-_/&,+.'").

(** One pass of [for t in tags: n = re.sub(rf"\b{re.escape(t)}\b", " ", n)]. *)
Definition remove_tags (tags : list string) (n : chars) : chars :=
  foldl (λ n t, sub (whole_word (of_string t)) [" "%char] n) n tags.

(** [normalize_name], the loose normalizer.  [TIMESHIFT_TAGS] is not
    referred to by the function. *)
Definition normalize_chars (name : chars) : chars :=
  match name with
  | [] => []
  | _ =>
      let n := lower name in
      let n := remove_tags PROVIDER_TAGS n in
      let n := remove_tags QUALITY_TAGS n in
      let n := blank_class is_punct n in
      strip (collapse_spaces n)
  end.

Definition normalize_name : string → string := on_string normalize_chars.

(** A candidate: the dictionary with keys [site], [xmltv_id], [name] and
    [source] that [build_candidates] creates. *)
Record candidate := Candidate {
  site : string;
  xmltv_id : string;
  name : string;
  source : string
}.

Global Instance candidate_eq_dec : EqDecision candidate.
Proof. solve_decision. Defined.

(** A row of [merge_review_duplicates.csv]. *)
Record collision := Collision {
  key : string;
  kept_name : string;
  dropped_name : string;
  kept_source : string;
  dropped_source : string;
  kept_xmltv_id : string;
  dropped_xmltv_id : string
}.

Global Instance collision_eq_dec : EqDecision collision.
Proof. solve_decision. Defined.

Definition CUSTOM_SOURCE : string := "custom.channels.xml".

(** [x or d] for a cell that is a string or [None]. *)
Definition get_or (r : gmap string string) (k : string) (d : string) : string :=
  match r !! k with
  | Some v => if decide (v = "") then d else v
  | None => d
  end.

(** A channel element of [custom.channels.xml] as [load_custom_xml]
    returns it, before the source tag is added. *)
Record xml_channel := XmlChannel {
  x_site : string;
  x_xmltv_id : string;
  x_name : string
}.

Definition csv_candidate (src_name : string) (r : gmap string string) : candidate :=
  {| site := get_or r "site" (get_or r "source_site" "");
     xmltv_id := get_or r "xmltv_id" (get_or r "id" "");
     name := get_or r "display_name"
               (get_or r "name" (get_or r "channel" (get_or r "title" "")));
     source := src_name |}.

(** [build_candidates], on the already loaded inputs: the current custom
    list first, then the three CSV lists in their fixed order. *)
Definition build_candidates (custom : list xml_channel)
    (draft_keep matched recommended : list (gmap string string))
    : list candidate :=
  ((λ x, {| site := x_site x; xmltv_id := x_xmltv_id x; name := x_name x;
            source := CUSTOM_SOURCE |}) <$> custom)
  ++ (csv_candidate "Draft-Keep.csv" <$> draft_keep)
  ++ (csv_candidate "matched_channels.csv" <$> matched)
  ++ (csv_candidate "recommended_custom_list.csv" <$> recommended).

(** The dictionary [merged], in insertion order. *)
Definition table := list (string * candidate).

Fixpoint lookup_key (k : string) (t : table) : option candidate :=
  match t with
  | [] => None
  | (k', v) :: t' => if decide (k = k') then Some v else lookup_key k t'
  end.

(** [merged[k] = v]: an existing key keeps its position. *)
Fixpoint store_key (k : string) (v : candidate) (t : table) : table :=
  match t with
  | [] => [(k, v)]
  | (k', v') :: t' =>
      if decide (k = k') then (k, v) :: t' else (k', v') :: store_key k v t'
  end.

Record state := State {
  merged : table;
  dupes : list collision;
  unmatched : list candidate
}.

Definition identity_key (c : candidate) : string :=
  if decide (xmltv_id c = "") then normalize_name (name c) else xmltv_id c.

(** The two tie-break tests, in the order of the [if]/[elif]: does the
    new candidate [c] replace the provisional winner [prev]? *)
Definition new_wins (prev c : candidate) : bool :=
  if bool_decide (xmltv_id prev = "") && bool_decide (xmltv_id c ≠ "") then true
  else if bool_decide (source prev ≠ CUSTOM_SOURCE)
          && bool_decide (source c = CUSTOM_SOURCE) then true
  else false.

(** The body of the loop of [merge_candidates]. *)
Definition merge_step (st : state) (c : candidate) : state :=
  let norm := normalize_name (name c) in
  if decide (norm = "") then
    {| merged := merged st; dupes := dupes st;
       unmatched := unmatched st ++ [c] |}
  else
    let key := if decide (xmltv_id c = "") then norm else xmltv_id c in
    match lookup_key key (merged st) with
    | Some prev =>
        let merged' :=
          if new_wins prev c then store_key key c (merged st) else merged st in
        let kept := default prev (lookup_key key merged') in
        {| merged := merged';
           dupes := dupes st ++
             [ {| key := key;
                  kept_name := name kept;
                  dropped_name := name c;
                  kept_source := source kept;
                  dropped_source := source c;
                  kept_xmltv_id := xmltv_id kept;
                  dropped_xmltv_id := xmltv_id c |} ];
           unmatched := unmatched st |}
    | None =>
        {| merged := store_key key c (merged st); dupes := dupes st;
           unmatched := unmatched st |}
    end.

Definition run (cs : list candidate) : state :=
  foldl merge_step {| merged := []; dupes := []; unmatched := [] |} cs.

(** [merge_candidates]: winners, collision records, unmatched rows. *)
Definition merge_candidates (cs : list candidate)
    : list candidate * list collision * list candidate :=
  let st := run cs in (snd <$> merged st, dupes st, unmatched st).

End Merge.

(** ** step2_enrich_with_preferred_channels.py *)

Module Enrich.
Import Py Re.

(** [normalize_name], the strict normalizer: the result is made of
    lower-case letters and digits only. *)
Definition normalize_chars (name : chars) : chars :=
  let s := lower (strip name) in
  let s := sub (whole_word (of_string "hd")) [] s in
  let s := sub (literal_then_boundary (of_string "+1")) [] s in
  keep_class is_lower_alnum s.

Definition normalize_name : string → string := on_string normalize_chars.

Inductive exn := ValueError (msg : string).

Global Instance exn_eq_dec : EqDecision exn.
Proof. solve_decision. Defined.

Inductive result (A : Type) :=
| Ok (a : A)
| Raise (e : exn).
Global Arguments Ok {A} a.
Global Arguments Raise {A} e.

Global Instance result_eq_dec `{EqDecision A} : EqDecision (result A).
Proof. solve_decision. Defined.

Definition bind {A B} (r : result A) (k : A → result B) : result B :=
  match r with
  | Ok a => k a
  | Raise e => Raise e
  end.

(** A row: the cells of one record by column name.  With
    [dtype=str, keep_default_na=False] every cell is a string. *)
Abbreviation Row := (gmap string string).

(** A [DataFrame]: its columns, in order, and its rows. *)
Record DataFrame := Frame {
  columns : list string;
  rows : list Row
}.

Global Instance DataFrame_eq_dec : EqDecision DataFrame.
Proof. solve_decision. Defined.

(** [row.get(k)]. *)
Definition get (r : Row) (k : string) : option string := r !! k.

(** [x or d] where [x] is a string or [None]. *)
Definition or_else (x : option string) (d : string) : string :=
  match x with
  | Some v => if decide (v = "") then d else v
  | None => d
  end.

(** [df.at[idx, col]] read, for a column the frame has. *)
Definition cell (r : Row) (col : string) : string := default "" (r !! col).

(** [df[col] = ""] for a new column. *)
Definition add_column (col : string) (df : DataFrame) : DataFrame :=
  {| columns := columns df ++ [col];
     rows := (λ r, <[col := ""]> r) <$> rows df |}.

(** [df.get(col)]: the column as a [Series], or [None]. *)
Definition df_get (df : DataFrame) (col : string) : option (list string) :=
  if decide (col ∈ columns df) then Some ((λ r, cell r col) <$> rows df)
  else None.

(** The truth value of a pandas [Series] ([Series.__bool__]): pandas
    raises [ValueError] with this message for every series, whatever it
    holds. *)
Definition series_truth (s : list string) : result bool :=
  Raise (ValueError
    "The truth value of a Series is ambiguous. Use a.empty, a.item(), a.any() or a.all().").

Abbreviation NameKey := (string * option string)%type.
Abbreviation ById := (gmap string Row).
Abbreviation ByNameCountry := (gmap (string * option string) Row).

(** [country or None]. *)
Definition country_key (country : string) : option string :=
  if decide (country = "") then None else Some country.

(** The [names] list of a preferred row: its name, then the stripped
    non-empty parts of [alt_names]. *)
Definition names_of (row : Row) : list string :=
  let name_main := or_else (get row "name") "" in
  let alt_names := or_else (get row "alt_names") "" in
  name_main ::
    (if decide (alt_names = "") then []
     else filter (λ nm, nm ≠ "") (str_strip <$> str_split ";" alt_names)).

(** The body of [for nm in names]. *)
Definition add_name (row : Row) (country : string)
    (by_name_country : ByNameCountry) (nm : string) : ByNameCountry :=
  let norm := normalize_name nm in
  if decide (norm = "") then by_name_country
  else
    let key := (norm, country_key country) in
    match by_name_country !! key with
    | None => <[key := row]> by_name_country
    | Some _ => by_name_country
    end.

(** The body of [for _, row in preferred_df.iterrows()]. *)
Definition add_preferred (idx : ById * ByNameCountry) (row : Row)
    : ById * ByNameCountry :=
  let '(by_id, by_name_country) := idx in
  let cid := str_strip (or_else (get row "id") "") in
  let by_id :=
    if decide (cid = "") then by_id
    else match by_id !! cid with
         | Some _ => by_id
         | None => <[cid := row]> by_id
         end in
  let country := str_upper (str_strip (or_else (get row "country") "")) in
  (by_id, foldl (add_name row country) by_name_country (names_of row)).

Definition build_preferred_lookup (preferred_df : DataFrame)
    : result (ById * ByNameCountry) :=
  let missing := filter (λ c, c ∉ columns preferred_df) ["id"; "name"] in
  match missing with
  | _ :: _ =>
      Raise (ValueError
        "Invalid prefered-scoped-channels.csv; missing required columns.")
  | [] => Ok (foldl add_preferred (∅, ∅) (rows preferred_df))
  end.

Definition add_cols : list string :=
  ["preferred_flag"; "pref_id"; "pref_name"; "pref_alt_names";
   "pref_network"; "pref_owners"; "pref_country"; "pref_categories";
   "pref_is_nsfw"; "pref_launched"; "pref_closed"; "pref_replaced_by";
   "pref_website"; "filtered_out_by_category"].

Definition ensure_column (df : DataFrame) (col : string) : DataFrame :=
  if decide (col ∈ columns df) then df else add_column col df.

(** The four counters the run log reports. *)
Record counters := Counters {
  preferred_matches_id : nat;
  preferred_matches_name : nat;
  unmatched : nat;
  filtered_by_category : nat
}.

Global Instance counters_eq_dec : EqDecision counters.
Proof. solve_decision. Defined.

Inductive tier := TierId | TierNameCountry | TierNameOnly | TierNone.

Global Instance tier_eq_dec : EqDecision tier.
Proof. solve_decision. Defined.

(** The tiered match of one baseline row (the [if]/[else] that sets
    [matched_row]). *)
Definition resolve (by_id : ById) (by_name_country : ByNameCountry)
    (row : Row) : option Row * tier :=
  let xmltv_id := str_strip (or_else (get row "xmltv_id") "") in
  match (if decide (xmltv_id = "") then None else by_id !! xmltv_id) with
  | Some m => (Some m, TierId)
  | None =>
      let b_country := str_upper (str_strip (or_else (get row "country") "")) in
      let display_name :=
        or_else (get row "display_name") (or_else (get row "name") "") in
      let norm_name := normalize_name display_name in
      let key_exact := (norm_name, country_key b_country) in
      let key_nocountry := (norm_name, None) in
      match by_name_country !! key_exact with
      | Some m => (Some m, TierNameCountry)
      | None =>
          match by_name_country !! key_nocountry with
          | Some m => (Some m, TierNameOnly)
          | None => (None, TierNone)
          end
      end
  end.

Definition count_tier (t : tier) (n : counters) : counters :=
  match t with
  | TierId =>
      Counters (S (preferred_matches_id n)) (preferred_matches_name n)
               (unmatched n) (filtered_by_category n)
  | TierNameCountry | TierNameOnly =>
      Counters (preferred_matches_id n) (S (preferred_matches_name n))
               (unmatched n) (filtered_by_category n)
  | TierNone =>
      Counters (preferred_matches_id n) (preferred_matches_name n)
               (S (unmatched n)) (filtered_by_category n)
  end.

Definition flag (b : bool) : string := if b then "Y" else "".

(** The branch [if matched_row is not None]: the metadata cells and the
    preferred flag of the record [cur]. *)
Definition fill_preferred (preferred_ids_set : gset string)
    (matched_row : Row) (cur : Row) : Row :=
  let cid := str_strip (or_else (get matched_row "id") "") in
  let cur := <["pref_id" := cid]> cur in
  let cur := <["pref_name" := or_else (get matched_row "name") ""]> cur in
  let cur := <["pref_alt_names" := or_else (get matched_row "alt_names") ""]> cur in
  let cur := <["pref_network" := or_else (get matched_row "network") ""]> cur in
  let cur := <["pref_owners" := or_else (get matched_row "owners") ""]> cur in
  let cur := <["pref_country" :=
                 str_upper (str_strip (or_else (get matched_row "country") ""))]> cur in
  let cur := <["pref_categories" := or_else (get matched_row "categories") ""]> cur in
  let cur := <["pref_is_nsfw" := or_else (get matched_row "is_nsfw") ""]> cur in
  let cur := <["pref_launched" := or_else (get matched_row "launched") ""]> cur in
  let cur := <["pref_closed" := or_else (get matched_row "closed") ""]> cur in
  let cur := <["pref_replaced_by" := or_else (get matched_row "replaced_by") ""]> cur in
  let cur := <["pref_website" := or_else (get matched_row "website") ""]> cur in
  let prefered_col_value :=
    str_strip (or_else (get matched_row "Prefered")
                 (or_else (get matched_row "preferred") "")) in
  if decide (prefered_col_value = "") then
    <["preferred_flag" := flag (bool_decide (cid ∈ preferred_ids_set))]> cur
  else
    <["preferred_flag" :=
        flag (str_startswith "Y" (str_upper prefered_col_value))]> cur.

(** The branch [else]: the flag the baseline carried is kept. *)
Definition keep_flag (cur : Row) : Row :=
  <["preferred_flag" := or_else (Some (cell cur "preferred_flag")) ""]> cur.

(** [cat_list]: the effective categories of the record. *)
Definition cat_list (has_categories : bool) (row cur : Row) : list string :=
  let cat_field :=
    if decide (cell cur "pref_categories" = "") then
      (if has_categories then or_else (get row "categories") "" else "")
    else cell cur "pref_categories" in
  (λ c, str_lower (str_strip c)) <$>
    filter (λ c, str_strip c ≠ "") (str_split ";" cat_field).

(** The category filter (the block under "Category-based filtering"):
    the record after it, and whether it was flagged.  [row] is the
    [iterrows] snapshot of the record, [cur] its current cells. *)
Definition apply_filter (has_categories : bool)
    (exclude_categories : gset string) (row cur : Row) : Row * bool :=
  let cats := cat_list has_categories row cur in
  if bool_decide (exclude_categories ≠ ∅) && bool_decide (cats ≠ []) then
    if existsb (λ c, bool_decide (c ∈ exclude_categories)) cats then
      if decide (cell cur "preferred_flag" = "Y") then (cur, false)
      else (<["filtered_out_by_category" := "Y"]> cur, true)
    else (cur, false)
  else (cur, false).

Definition count_filtered (b : bool) (n : counters) : counters :=
  if b then
    Counters (preferred_matches_id n) (preferred_matches_name n)
             (unmatched n) (S (filtered_by_category n))
  else n.

(** The cells of a record after resolution, before the filter. *)
Definition resolve_row (by_id : ById) (by_name_country : ByNameCountry)
    (preferred_ids_set : gset string) (row : Row) : Row * tier :=
  match resolve by_id by_name_country row with
  | (Some m, t) => (fill_preferred preferred_ids_set m row, t)
  | (None, t) => (keep_flag row, t)
  end.

(** The body of [for idx, row in baseline_df.iterrows()]. *)
Definition enrich_row (by_id : ById) (by_name_country : ByNameCountry)
    (preferred_ids_set : gset string) (has_categories : bool)
    (exclude_categories : gset string)
    (acc : list Row * counters) (row : Row) : list Row * counters :=
  let '(out, n) := acc in
  let '(cur, t) := resolve_row by_id by_name_country preferred_ids_set row in
  let '(cur, hit) := apply_filter has_categories exclude_categories row cur in
  (out ++ [cur], count_filtered hit (count_tier t n)).

(** [set(preferred_df.get("id") or [])]. *)
Definition preferred_ids (preferred_df : DataFrame) : result (gset string) :=
  match df_get preferred_df "id" with
  | None => Ok ∅
  | Some ids =>
      bind (series_truth ids) (λ b,
        Ok (if b then list_to_set ids else ∅))
  end.

(** [enrich_baseline_with_preferred]: the enriched frame and the counters
    it logs, or the exception it raises. *)
Definition enrich_baseline_with_preferred (baseline_df preferred_df : DataFrame)
    (exclude_categories : gset string) : result (DataFrame * counters) :=
  if bool_decide ("xmltv_id" ∉ columns baseline_df)
     && bool_decide ("display_name" ∉ columns baseline_df)
  then Raise (ValueError
         "Baseline CSV missing both 'xmltv_id' and 'display_name' columns.")
  else
    let baseline_df := foldl ensure_column baseline_df add_cols in
    bind (build_preferred_lookup preferred_df) (λ '(by_id, by_name_country),
    bind (preferred_ids preferred_df) (λ preferred_ids_set,
      let has_categories := bool_decide ("categories" ∈ columns baseline_df) in
      let '(out, n) :=
        foldl (enrich_row by_id by_name_country preferred_ids_set
                 has_categories exclude_categories)
              ([], Counters 0 0 0 0) (rows baseline_df) in
      Ok ({| columns := columns baseline_df; rows := out |}, n))).

End Enrich.

(** * Specification predicates *)

Module Spec.
Import Merge.

(** A candidate with a usable name: the one test that keeps it out of
    [unmatched]. *)
Definition usable (c : candidate) : Prop :=
  Merge.normalize_name (name c) ≠ "".

Global Instance usable_dec c : Decision (usable c).
Proof. unfold usable. apply _. Defined.

(** The order [build_candidates] produces: the candidates of
    [custom.channels.xml] first, those of the other sources after them. *)
Definition custom_first (cs : list candidate) : Prop :=
  ∃ l1 l2, cs = l1 ++ l2
    ∧ Forall (λ c, source c = CUSTOM_SOURCE) l1
    ∧ Forall (λ c, source c ≠ CUSTOM_SOURCE) l2.

(** The merge table after the candidates [seen]: one entry per key, each
    filed under the identity key of its usable candidate. *)
Definition table_ok (seen : list candidate) (t : table) : Prop :=
  NoDup t.*1
  ∧ ∀ k v, lookup_key k t = Some v →
      identity_key v = k ∧ usable v ∧ v ∈ seen.

(** The candidates of [cs] that are grouped under the key [k]. *)
Definition group (k : string) (cs : list candidate) : list candidate :=
  filter (λ c, usable c ∧ identity_key c = k) cs.

(** The collision record the loop appends for the new candidate [c] when
    [kept] is the entry of the table after the tie-break. *)
Definition record_for (k : string) (kept c : candidate) : collision :=
  {| key := k;
     kept_name := name kept; dropped_name := name c;
     kept_source := source kept; dropped_source := source c;
     kept_xmltv_id := xmltv_id kept; dropped_xmltv_id := xmltv_id c |}.

(** *** Words of a string *)

(** The pieces of a string between its non-word characters, and its
    words: the non-empty pieces, i.e. the maximal runs of [\w]. *)
Fixpoint pieces (s : Py.chars) : list Py.chars :=
  match s with
  | [] => [[]]
  | c :: s' =>
      if Py.is_word c then
        match pieces s' with
        | p :: ps => (c :: p) :: ps
        | [] => [[c]]
        end
      else [] :: pieces s'
  end.

Definition word_runs (s : Py.chars) : list Py.chars :=
  filter (λ w, w ≠ []) (pieces s).

(** The text is empty or starts with a non-word character. *)
Definition nonword_head (s : Py.chars) : Prop := Re.word_opt (head s) = false.

(** The text is empty or starts with a non-blank character. *)
Definition nospace_head (s : Py.chars) : Prop :=
  match s with [] => True | c :: _ => Py.is_space c = false end.

(** The last character of [p :: s]. *)
Fixpoint last_from (p : ascii) (s : Py.chars) : ascii :=
  match s with
  | [] => p
  | c :: s' => last_from c s'
  end.

(** A token of the tag lists: not empty, word characters only. *)
Definition word_token (tok : Py.chars) : Prop :=
  tok ≠ [] ∧ Forall (λ c, Py.is_word c = true) tok.

Global Instance word_token_dec tok : Decision (word_token tok).
Proof. unfold word_token. apply _. Defined.

(** The tags [normalize_name] of the merge script removes. *)
Definition removed_tags : list Py.chars :=
  Py.of_string <$> (PROVIDER_TAGS ++ QUALITY_TAGS).

(** A fixed point of [re.sub(r"\s+", " ", _)] when the scan is inside a
    run of blanks ([in_run]) or not. *)
Fixpoint spaces_collapsed (in_run : bool) (s : Py.chars) : bool :=
  match s with
  | [] => true
  | c :: s' =>
      if Py.is_space c
      then negb in_run && bool_decide (c = " "%char) && spaces_collapsed true s'
      else spaces_collapsed false s'
  end.

(** The text is ASCII: every character has a code below 128.  This is
    the text on which the tables of [Py] are those of Python. *)
Definition ascii_only (x : string) : Prop :=
  Forall (λ c, Py.code c < 128) (Py.of_string x).

Global Instance ascii_only_dec x : Decision (ascii_only x).
Proof. unfold ascii_only. apply _. Defined.

(** The metadata cells of the record [rec] are those the loop writes from
    the preferred row [m]. *)
Definition attached (m rec : gmap string string) : Prop :=
  Enrich.cell rec "pref_id"
    = Py.str_strip (Enrich.or_else (Enrich.get m "id") "")
  ∧ Enrich.cell rec "pref_name" = Enrich.or_else (Enrich.get m "name") ""
  ∧ Enrich.cell rec "pref_alt_names"
    = Enrich.or_else (Enrich.get m "alt_names") ""
  ∧ Enrich.cell rec "pref_network" = Enrich.or_else (Enrich.get m "network") ""
  ∧ Enrich.cell rec "pref_owners" = Enrich.or_else (Enrich.get m "owners") ""
  ∧ Enrich.cell rec "pref_country"
    = Py.str_upper (Py.str_strip (Enrich.or_else (Enrich.get m "country") ""))
  ∧ Enrich.cell rec "pref_categories"
    = Enrich.or_else (Enrich.get m "categories") ""
  ∧ Enrich.cell rec "pref_is_nsfw" = Enrich.or_else (Enrich.get m "is_nsfw") ""
  ∧ Enrich.cell rec "pref_launched"
    = Enrich.or_else (Enrich.get m "launched") ""
  ∧ Enrich.cell rec "pref_closed" = Enrich.or_else (Enrich.get m "closed") ""
  ∧ Enrich.cell rec "pref_replaced_by"
    = Enrich.or_else (Enrich.get m "replaced_by") ""
  ∧ Enrich.cell rec "pref_website"
    = Enrich.or_else (Enrich.get m "website") "".

(** The text contains an underscore. *)
Definition has_underscore (x : string) : Prop := "_"%char ∈ Py.of_string x.

Global Instance has_underscore_dec x : Decision (has_underscore x).
Proof. unfold has_underscore. apply _. Defined.

(** How many collision records carry the key [k], and whether the table
    has an entry for it. *)
Definition collisions_of (k : string) (ds : list collision) : nat :=
  length (filter (λ d, key d = k) ds).

Definition present (k : string) (t : table) : nat :=
  match lookup_key k t with Some _ => 1 | None => 0 end.

(** What every entry of [by_name_country] satisfies: its name component is
    the non-empty strict normalization of one of the names of the row it
    points to. *)
Definition name_entries_ok (rs : list (gmap string string))
    (by_name_country : gmap (string * option string) (gmap string string)) : Prop :=
  ∀ norm country r,
    by_name_country !! (norm, country) = Some r →
    norm ≠ "" ∧ r ∈ rs ∧ ∃ nm, nm ∈ Enrich.names_of r ∧ Enrich.normalize_name nm = norm.

End Spec.

(** * The rest of the two scripts *)

(** ** merge_custom_channels.py: reading and writing the channel list *)

Module MergeOut.
Import Merge.

(** A [channel] element: its attributes and its text ([None] when the
    element has no text). *)
Record element := Element {
  attrib : gmap string string;
  text : option string
}.

Global Instance element_eq_dec : EqDecision element.
Proof. solve_decision. Defined.

(** What [ET.parse] makes of the path of the curated list: the file does
    not exist; the parser raises [ParseError]; or the document is parsed,
    with these [channel] children of the root. *)
Inductive xml_file :=
  | NoFile
  | Malformed
  | Document (channels : list element).

Inductive parse_exn := ParseError.

Global Instance parse_exn_eq_dec : EqDecision parse_exn.
Proof. solve_decision. Defined.

(** The body of the loop of [load_custom_xml], on the [channel] elements
    [root.findall("channel")] returns. *)
Definition load_channel (ch : element) : xml_channel :=
  {| x_site := Py.str_strip (default "" (attrib ch !! "site"));
     x_xmltv_id := Py.str_strip (default "" (attrib ch !! "xmltv_id"));
     x_name := Py.str_strip (default "" (text ch)) |}.

Definition load_custom_xml (file : xml_file) : parse_exn + list xml_channel :=
  match file with
  | NoFile => inr []
  | Malformed => inl ParseError
  | Document channels => inr (load_channel <$> channels)
  end.

(** The sort key of [write_xml]: [(x["site"], x["name"].lower())]. *)
Definition sort_key (c : candidate) : string * string :=
  (site c, Py.str_lower (name c)).

(** The order of Python on pairs of strings: the first components by code
    point order, then the second ones. *)
Definition key_le (a b : string * string) : Prop :=
  (String.le a.1 b.1 ∧ a.1 ≠ b.1) ∨ (a.1 = b.1 ∧ String.le a.2 b.2).

Global Instance key_le_dec : RelDecision key_le.
Proof. intros a b. unfold key_le. apply _. Defined.

(** [sorted(channels, key=...)]: the stable sort, as insertion from the
    right; an element goes before the first one whose key is not smaller. *)
Fixpoint insert_channel (c : candidate) (l : list candidate) : list candidate :=
  match l with
  | [] => [c]
  | y :: l' =>
      if decide (key_le (sort_key c) (sort_key y)) then c :: l
      else y :: insert_channel c l'
  end.

Definition sorted_channels (channels : list candidate) : list candidate :=
  foldr insert_channel [] channels.

(** The element [write_xml] creates for a channel: the attributes [site]
    and [xmltv_id] only when they are not empty. *)
Definition channel_element (c : candidate) : element :=
  let attrs : gmap string string := ∅ in
  let attrs := if decide (site c = "") then attrs
               else <["site" := site c]> attrs in
  let attrs := if decide (xmltv_id c = "") then attrs
               else <["xmltv_id" := xmltv_id c]> attrs in
  {| attrib := attrs; text := Some (name c) |}.

(** [write_xml]: the [channel] children of the root element handed to
    [tree.write], in document order.  The text of the written file is not
    modelled. *)
Definition write_xml (channels : list candidate) : list element :=
  channel_element <$> sorted_channels channels.

(** What [main] hands to the writers: the merged list always, the two
    review tables only when they have rows. *)
Record outputs := Outputs {
  out_xml : list element;
  out_dupes : option (list collision);
  out_unmatched : option (list candidate)
}.

Global Instance outputs_eq_dec : EqDecision outputs.
Proof. solve_decision. Defined.

End MergeOut.

(** ** merge_custom_channels.py: reading the CSV lists *)

Module MergeIn.
Import Merge.

(** An item of a row [csv.DictReader] yields: a field name with its cell
    ([None] when the line is shorter than the header), or the key [None]
    with the cells the line has beyond the header. *)
Inductive item :=
  | Field (k : string) (v : option string)
  | Rest (cells : list string).

Inductive load_exn := AttributeError.

Global Instance load_exn_eq_dec : EqDecision load_exn.
Proof. solve_decision. Defined.

(** The dict comprehension of [load_csv], one item at a time:
    [k.strip()] fails on the key [None]; a later item replaces an earlier
    one with the same stripped key. *)
Definition load_item (acc : load_exn + gmap string (option string)) (i : item)
    : load_exn + gmap string (option string) :=
  match acc with
  | inl e => inl e
  | inr d =>
      match i with
      | Field k v => inr (<[Py.str_strip k := Py.str_strip <$> v]> d)
      | Rest _ => inl AttributeError
      end
  end.

Definition load_row (r : list item) : load_exn + gmap string (option string) :=
  foldl load_item (inr ∅) r.

Definition append_row (acc : load_exn + list (gmap string (option string)))
    (r : list item) : load_exn + list (gmap string (option string)) :=
  match acc with
  | inl e => inl e
  | inr rows =>
      match load_row r with
      | inl e => inl e
      | inr d => inr (rows ++ [d])
      end
  end.

(** [load_csv]: [None] is a path that does not exist. *)
Definition load_csv (file : option (list (list item)))
    : load_exn + list (gmap string (option string)) :=
  match file with
  | None => inr []
  | Some reader => foldl append_row (inr []) reader
  end.

(** The cells of a loaded row that [r.get(k) or ...] can tell from a
    missing one. *)
Definition present (d : gmap string (option string)) : gmap string string :=
  omap id d.

(** The exception that ends [main]: raised while the curated list is
    parsed, or by one of the [load_csv] calls. *)
Inductive main_exn :=
  | XmlError (e : MergeOut.parse_exn)
  | CsvError (e : load_exn).

Global Instance main_exn_eq_dec : EqDecision main_exn.
Proof. solve_decision. Defined.

(** [main] with [build_candidates] and its four loads, in their order:
    the outputs, or the exception that ends the run before anything is
    written. *)
Definition main (custom : MergeOut.xml_file)
    (draft_keep matched recommended : option (list (list item)))
    : main_exn + MergeOut.outputs :=
  match MergeOut.load_custom_xml custom with
  | inl e => inl (XmlError e)
  | inr xs =>
      match load_csv draft_keep with
      | inl e => inl (CsvError e)
      | inr dk =>
          match load_csv matched with
          | inl e => inl (CsvError e)
          | inr m =>
              match load_csv recommended with
              | inl e => inl (CsvError e)
              | inr r =>
                  let candidates :=
                    build_candidates xs (present <$> dk) (present <$> m)
                      (present <$> r) in
                  let '(merged, dupes, unmatched) :=
                    merge_candidates candidates in
                  inr {| MergeOut.out_xml := MergeOut.write_xml merged;
                         MergeOut.out_dupes :=
                           match dupes with [] => None | _ => Some dupes end;
                         MergeOut.out_unmatched :=
                           match unmatched with
                           | [] => None
                           | _ => Some unmatched
                           end |}
              end
          end
      end
  end.

End MergeIn.

(** ** step2_enrich_with_preferred_channels.py: the exclusion table *)

Module EnrichIn.
Import Enrich.

Inductive load_exn := IndexError.

(** The first element of a list that satisfies [P]. *)
Fixpoint first_such {A} (P : A → Prop) `{∀ x, Decision (P x)} (l : list A)
    : option A :=
  match l with
  | [] => None
  | x :: l' => if decide (P x) then Some x else first_such P l'
  end.

(** The loop over the rows of the exclusion table: the stripped,
    lower-cased, non-empty values of one column. *)
Definition collect_categories (field : string) (rows : list (gmap string string))
    : gset string :=
  list_to_set
    (filter (λ val, val ≠ "")
       ((λ row, Py.str_lower (Py.str_strip (or_else (get row field) "")))
          <$> rows)).

(** [load_exclude_categories], on what [csv.DictReader] gives for the
    file: [None] when the file does not exist, else the header
    ([reader.fieldnames or []]) and the rows. *)
Definition load_exclude_categories
    (file : option (list string * list (gmap string string)))
    : load_exn + gset string :=
  match file with
  | None => inr ∅
  | Some (fieldnames, rows) =>
      match first_such (λ fn, Py.str_lower fn = "category") fieldnames with
      | Some cat_field => inr (collect_categories cat_field rows)
      | None =>
          match fieldnames with
          | [] => inl IndexError
          | first_field :: _ => inr (collect_categories first_field rows)
          end
      end
  end.

End EnrichIn.

(** ** step2_enrich_with_preferred_channels.py: the entry point *)

Module EnrichMain.
Import Enrich.

Inductive load_exn := FileNotFoundError.

(** [load_csv_safe]: [None] is a path that does not exist, else the frame
    [pd.read_csv] returns. *)
Definition load_csv_safe (file : option DataFrame) : load_exn + DataFrame :=
  match file with
  | None => inl FileNotFoundError
  | Some df => inr df
  end.

(** How [main] ends: [sys.exit(1)], or normally after the enriched frame
    was written to the listed paths. *)
Inductive ending :=
  | SysExit1
  | Completed (written : list (string * DataFrame)).

Definition main (baseline preferred : option DataFrame)
    (exclude : option (list string * list (gmap string string)))
    (versioned_name : string) : ending :=
  match load_csv_safe baseline, load_csv_safe preferred,
        EnrichIn.load_exclude_categories exclude with
  | inr baseline_df, inr preferred_df, inr exclude_categories =>
      match enrich_baseline_with_preferred
              baseline_df preferred_df exclude_categories with
      | Raise _ => SysExit1
      | Ok (enriched_df, _) =>
          Completed [("all_sites_master_channels_enriched.csv", enriched_df);
                     (versioned_name, enriched_df)]
      end
  | _, _, _ => SysExit1
  end.

End EnrichMain.

(** ** Further specification predicates *)

Module Spec2.
Import Merge.

(** A list without its repeated elements, each kept where it first
    occurs. *)
Fixpoint nub_first `{EqDecision A} (l : list A) : list A :=
  match l with
  | [] => []
  | x :: l' => x :: filter (λ y, y ≠ x) (nub_first l')
  end.

(** The keys a preferred row contributes to [by_name_country]. *)
Definition keys_of (row : gmap string string) : list (string * option string) :=
  let country :=
    Py.str_upper (Py.str_strip (Enrich.or_else (Enrich.get row "country") "")) in
  (λ nm, (Enrich.normalize_name nm, Enrich.country_key country))
    <$> filter (λ nm, Enrich.normalize_name nm ≠ "") (Enrich.names_of row).

(** The stripped id of a preferred row. *)
Definition row_id (row : gmap string string) : string :=
  Py.str_strip (Enrich.or_else (Enrich.get row "id") "").

(** The key and the dropped fields of a collision record, and the same
    fields of a candidate. *)
Definition dropped_of (d : collision) : string * string * string * string :=
  (key d, dropped_name d, dropped_source d, dropped_xmltv_id d).

Definition fields_of (c : candidate) : string * string * string * string :=
  (identity_key c, name c, source c, xmltv_id c).

(** The usable candidates that are not the first of their key: [seen] are
    the keys met so far. *)
Fixpoint later_members (seen : list string) (cs : list candidate)
    : list candidate :=
  match cs with
  | [] => []
  | c :: cs' =>
      if decide (Spec.usable c) then
        if decide (identity_key c ∈ seen) then c :: later_members seen cs'
        else later_members (seen ++ [identity_key c]) cs'
      else later_members seen cs'
  end.

(** The order [write_xml] sorts the channels by. *)
Definition channel_le (c y : candidate) : Prop :=
  MergeOut.key_le (MergeOut.sort_key c) (MergeOut.sort_key y).

(** The rows the run log counts as matched or unmatched. *)
Definition counted (n : Enrich.counters) : nat :=
  Enrich.preferred_matches_id n + Enrich.preferred_matches_name n
  + Enrich.unmatched n.

(** The text starts with the letter y, in either case. *)
Definition starts_with_y (v : string) : Prop :=
  match v with
  | String c _ => c = "Y"%char ∨ c = "y"%char
  | EmptyString => False
  end.

(** The preference marker of a preferred row: the stripped cell [Prefered],
    or [preferred] when that one is missing or empty. *)
Definition marker_of (m : gmap string string) : string :=
  Py.str_strip (Enrich.or_else (Enrich.get m "Prefered")
                  (Enrich.or_else (Enrich.get m "preferred") "")).

(** The display name the resolver normalizes, and the stripped id it looks
    up. *)
Definition display_name_of (row : gmap string string) : string :=
  Enrich.or_else (Enrich.get row "display_name")
    (Enrich.or_else (Enrich.get row "name") "").

Definition baseline_id (row : gmap string string) : string :=
  Py.str_strip (Enrich.or_else (Enrich.get row "xmltv_id") "").

(** A category value in the form both the filter and the exclusion table
    bring it to: not empty, lower-case, no blank at either end. *)
Definition category_form (v : string) : Prop :=
  v ≠ "" ∧ Py.str_strip v = v ∧ Py.str_lower v = v.

(** A candidate as [build_candidates] makes it from a channel element of
    the curated list with the same site, id and name. *)
Definition as_custom (c : candidate) : candidate :=
  {| site := site c; xmltv_id := xmltv_id c; name := name c;
     source := CUSTOM_SOURCE |}.

(** Site, id and name have no blank at either end. *)
Definition stripped_fields (c : candidate) : Prop :=
  Py.str_strip (site c) = site c
  ∧ Py.str_strip (xmltv_id c) = xmltv_id c
  ∧ Py.str_strip (name c) = name c.

(** Every key and every text cell of a loaded CSV row is stripped. *)
Definition stripped_row (d : gmap string (option string)) : Prop :=
  ∀ k v, d !! k = Some v → Py.str_strip k = k ∧ Py.str_strip <$> v = v.

(** The text has a blank or a punctuation character of the loose
    normalizer in every position. *)
Definition blank_or_punct (x : string) : Prop :=
  Forall (λ c, Py.is_space c = true ∨ is_punct c = true) (Py.of_string x).

End Spec2.

(** * Properties *)

Import Spec.
Import Spec2.

(** ** Generic facts *)

Lemma foldl_invariant {A B} (P : A → Prop) (f : A → B → A) (l : list B) (a : A) :
  P a → (∀ a x, x ∈ l → P a → P (f a x)) → P (foldl f a l).
Proof.
  revert a. induction l as [|x l IH]; intros a Ha Hstep; simpl; [done|].
  apply IH.
  - apply Hstep; [left | done].
  - intros a' y Hy. apply Hstep. by right.
Qed.

Lemma filter_all {A} (P : A → Prop) `{∀ x, Decision (P x)} (l : list A) :
  Forall P l → filter P l = l.
Proof.
  induction 1 as [|x l Hx Hl IH]; [done|].
  by rewrite filter_cons_True, IH.
Qed.

Lemma of_to_string (l : Py.chars) : Py.of_string (Py.to_string l) = l.
Proof. apply list_ascii_of_string_of_list_ascii. Qed.

Lemma to_of_string (s : string) : Py.to_string (Py.of_string s) = s.
Proof. apply string_of_list_ascii_of_string. Qed.

Lemma to_string_nil (l : Py.chars) : Py.to_string l = "" ↔ l = [].
Proof.
  split; [|by intros ->].
  destruct l; [done | discriminate].
Qed.

(** ** The preferred index, the resolver and the category filter *)

Section EnrichFacts.
Import Enrich.

Implicit Types (row cur m : gmap string string).
Implicit Types (by_id : gmap string (gmap string string)).
Implicit Types (by_name_country : gmap (string * option string) (gmap string string)).

(** The filter leaves the preferred flag alone. *)
Lemma apply_filter_flag has_categories (excl : gset string) row cur :
  cell (apply_filter has_categories excl row cur).1 "preferred_flag"
  = cell cur "preferred_flag".
Proof.
  unfold apply_filter.
  repeat (case_match; simpl; try done).
  unfold cell. by rewrite lookup_insert_ne.
Qed.

(** Resolution never writes the cell [filtered_out_by_category]. *)
Lemma resolve_row_filtered by_id by_name_country (ids : gset string) row :
  (resolve_row by_id by_name_country ids row).1 !! "filtered_out_by_category"
  = row !! "filtered_out_by_category".
Proof.
  unfold resolve_row.
  destruct (resolve by_id by_name_country row) as [[m|] t]; simpl.
  - unfold fill_preferred. case_decide; by rewrite !lookup_insert_ne.
  - unfold keep_flag. by rewrite lookup_insert_ne.
Qed.

(** The guard [preferred_flag != "Y"] of the filter. *)
Lemma apply_filter_skips_preferred has_categories (excl : gset string) row cur :
  cell cur "preferred_flag" = "Y" →
  apply_filter has_categories excl row cur = (cur, false).
Proof.
  intros Hflag. unfold apply_filter.
  destruct (bool_decide (excl ≠ ∅) && _); [|done].
  destruct (existsb _ _); [|done].
  by rewrite decide_True.
Qed.

(** C2. A record whose [preferred_flag] is "Y" is never flagged by the
    category filter: for every exclusion set and whatever its effective
    categories are, [apply_filter] returns the record as it was, its
    [filtered_out_by_category] cell included, and does not count it as
    filtered. *)
Theorem preferred_never_filtered has_categories (excl : gset string) row cur :
  cell cur "preferred_flag" = "Y" →
  apply_filter has_categories excl row cur = (cur, false)
  ∧ (apply_filter has_categories excl row cur).1 !! "filtered_out_by_category"
    = cur !! "filtered_out_by_category".
Proof.
  intros Hflag.
  by rewrite (apply_filter_skips_preferred _ _ _ _ Hflag).
Qed.

Lemma preferred_never_filtered_witness :
  let cur : gmap string string :=
    {[ "preferred_flag" := "Y"; "pref_categories" := "music;entertainment" ]} in
  cell cur "preferred_flag" = "Y"
  ∧ apply_filter false {[ "music" ]} ∅ cur = (cur, false)
  ∧ (apply_filter false {[ "music" ]} ∅ cur).1 !! "filtered_out_by_category"
    = cur !! "filtered_out_by_category".
Proof.
  intros cur. split; [compute_done|].
  apply (preferred_never_filtered false {[ "music" ]} ∅ cur). compute_done.
Defined.

(** The same through the whole loop body: a record that leaves
    [enrich_row] with the flag "Y" has the [filtered_out_by_category] cell
    the baseline row came with. *)
Lemma enrich_row_preferred by_id by_name_country (ids excl : gset string)
    has_categories out n row :
  ∃ rec n',
    enrich_row by_id by_name_country ids has_categories excl (out, n) row
      = (out ++ [rec], n')
    ∧ (cell rec "preferred_flag" = "Y" →
       rec !! "filtered_out_by_category" = row !! "filtered_out_by_category").
Proof.
  unfold enrich_row.
  pose proof (resolve_row_filtered by_id by_name_country ids row) as Hres.
  destruct (resolve_row by_id by_name_country ids row) as [cur t]; simpl in Hres.
  pose proof (apply_filter_flag has_categories excl row cur) as Hflag.
  destruct (apply_filter has_categories excl row cur) as [rec hit] eqn:Hf;
    simpl in Hflag.
  eexists _, _. split; [done|].
  intros HY. rewrite Hflag in HY.
  rewrite (apply_filter_skips_preferred _ _ _ _ HY) in Hf.
  by simplify_eq.
Qed.

(** The cells the loop writes for a matched record. *)
Lemma fill_preferred_attached (ids : gset string) m cur :
  attached m (fill_preferred ids m cur).
Proof.
  unfold attached, fill_preferred, cell.
  case_decide; split_and!; by simplify_map_eq.
Qed.

(** C5. The tiers are tried in order and the first hit is final.  A
    baseline row whose stripped id is non-empty and present in [by_id] is
    matched to the [by_id] record, whatever [by_name_country] holds for its
    name, and the twelve metadata cells of the output record are written
    from that record.  The name lookups happen only when the id lookup
    fails, the key (name, country) before the key (name, None), and the
    record found there is the one whose metadata is written. *)
Theorem resolve_tier_order by_id by_name_country (ids : gset string) row :
  let xmltv_id := Py.str_strip (or_else (get row "xmltv_id") "") in
  let norm_name :=
    normalize_name
      (or_else (get row "display_name") (or_else (get row "name") "")) in
  let country :=
    country_key (Py.str_upper (Py.str_strip (or_else (get row "country") ""))) in
  (∀ p, xmltv_id ≠ "" → by_id !! xmltv_id = Some p →
     resolve by_id by_name_country row = (Some p, TierId)
     ∧ resolve_row by_id by_name_country ids row
       = (fill_preferred ids p row, TierId)
     ∧ attached p (resolve_row by_id by_name_country ids row).1)
  ∧ (xmltv_id = "" ∨ by_id !! xmltv_id = None →
     resolve by_id by_name_country row =
       match by_name_country !! (norm_name, country) with
       | Some m => (Some m, TierNameCountry)
       | None =>
           match by_name_country !! (norm_name, None) with
           | Some m => (Some m, TierNameOnly)
           | None => (None, TierNone)
           end
       end)
  ∧ (∀ m t, resolve by_id by_name_country row = (Some m, t) →
     (resolve_row by_id by_name_country ids row).2 = t
     ∧ attached m (resolve_row by_id by_name_country ids row).1).
Proof.
  intros xmltv_id norm_name country. split_and!.
  - intros p Hne Hp.
    assert (resolve by_id by_name_country row = (Some p, TierId)) as Hres.
    { unfold resolve. fold xmltv_id. by rewrite decide_False, Hp. }
    split; [done|]. unfold resolve_row. rewrite Hres.
    split; [done|]. apply fill_preferred_attached.
  - intros Hmiss. unfold resolve. fold xmltv_id.
    assert ((if decide (xmltv_id = "") then None else by_id !! xmltv_id)
            = None) as ->.
    { destruct Hmiss as [->| ->]; [done|]. by case_decide. }
    fold norm_name country.
    by repeat case_match.
  - intros m t Hres. unfold resolve_row. rewrite Hres.
    split; [done|]. apply fill_preferred_attached.
Qed.

Lemma resolve_tier_order_witness :
  let p1 : gmap string string :=
    {[ "id" := "espn1"; "name" := "ESPN"; "country" := "us" ]} in
  let p2 : gmap string string := {[ "id" := "cnn1"; "name" := "CNN" ]} in
  let by_id : gmap string (gmap string string) := {[ "espn1" := p1 ]} in
  let by_name_country : gmap (string * option string) (gmap string string) :=
    {[ ("cnn", None) := p2 ]} in
  let row : gmap string string :=
    {[ "xmltv_id" := " espn1"; "display_name" := "CNN HD"; "country" := "ca" ]} in
  by_name_country !! (normalize_name "CNN HD", None) = Some p2
  ∧ resolve by_id by_name_country row = (Some p1, TierId)
  ∧ cell (resolve_row by_id by_name_country ∅ row).1 "pref_name" = "ESPN"
  ∧ cell (resolve_row by_id by_name_country ∅ row).1 "pref_country" = "US"
  ∧ resolve by_id by_name_country (delete "xmltv_id" row) = (Some p2, TierNameOnly).
Proof.
  intros p1 p2 by_id by_name_country row.
  split; [compute_done|].
  destruct (resolve_tier_order by_id by_name_country ∅ row)
    as (Hid & _ & _).
  destruct (Hid p1) as (Hres & _ & Hatt); [compute_done..|].
  destruct Hatt as (_ & Hname & _ & _ & _ & Hcountry & _).
  split; [exact Hres|].
  split; [rewrite Hname; compute_done|].
  split; [rewrite Hcountry; compute_done|].
  destruct (resolve_tier_order by_id by_name_country ∅ (delete "xmltv_id" row))
    as (_ & -> & _); [|left]; compute_done.
Defined.

(** *** The preferred index *)

Lemma add_name_ok rs row country by_name_country nm :
  row ∈ rs → nm ∈ names_of row →
  name_entries_ok rs by_name_country →
  name_entries_ok rs (add_name row country by_name_country nm).
Proof.
  intros Hrow Hnm Hok. unfold add_name.
  case_decide as Hnorm; [done|].
  destruct (by_name_country !! _) eqn:Hlook; [done|].
  intros norm c r Hr.
  destruct (decide ((normalize_name nm, country_key country) = (norm, c)))
    as [Heq|Hne].
  - rewrite Heq, lookup_insert_eq in Hr. simplify_eq. eauto.
  - rewrite lookup_insert_ne in Hr by done. by eapply Hok.
Qed.

Lemma add_preferred_ok rs idx row :
  row ∈ rs → name_entries_ok rs idx.2 →
  name_entries_ok rs (add_preferred idx row).2.
Proof.
  intros Hrow Hok. destruct idx as [by_id by_name_country].
  unfold add_preferred. cbn [snd] in *.
  apply (foldl_invariant (name_entries_ok rs)); [done|].
  intros a nm Hnm Ha. by apply add_name_ok.
Qed.

Lemma build_preferred_lookup_ok preferred_df by_id by_name_country :
  build_preferred_lookup preferred_df = Ok (by_id, by_name_country) →
  name_entries_ok (rows preferred_df) by_name_country.
Proof.
  unfold build_preferred_lookup. case_match; [|done].
  intros [= Hfold].
  change by_name_country with ((by_id, by_name_country).2). rewrite <- Hfold.
  apply (foldl_invariant (λ idx, name_entries_ok (rows preferred_df) idx.2)).
  - intros norm c r Hr. cbn [snd] in Hr. by rewrite lookup_empty in Hr.
  - intros idx row Hrow Hidx. by apply add_preferred_ok.
Qed.

(** C10. Every key of [by_name_country] has a non-empty normalized name,
    which is the strict normalization of a name or alt-name of the record
    it maps to.  So a preferred record whose name and alt-names all
    normalize to the empty string is the value of no key, and the resolver
    can return it only from the id tier. *)
Theorem by_name_country_keys_nonempty preferred_df by_id by_name_country :
  build_preferred_lookup preferred_df = Ok (by_id, by_name_country) →
  (∀ norm country r, by_name_country !! (norm, country) = Some r →
     norm ≠ "" ∧ ∃ nm, nm ∈ names_of r ∧ normalize_name nm = norm)
  ∧ (∀ r, (∀ nm, nm ∈ names_of r → normalize_name nm = "") →
       (∀ k, by_name_country !! k ≠ Some r)
       ∧ (∀ row t, resolve by_id by_name_country row = (Some r, t) →
            t = TierId)).
Proof.
  intros Hok%build_preferred_lookup_ok.
  assert (∀ r, (∀ nm, nm ∈ names_of r → normalize_name nm = "") →
               ∀ k, by_name_country !! k ≠ Some r) as Hnone.
  { intros r Hr [norm c] Hk.
    destruct (Hok _ _ _ Hk) as (Hne & _ & nm & Hnm & Hnorm).
    apply Hne. rewrite <- Hnorm. by apply Hr. }
  split.
  - intros norm c r Hr. destruct (Hok _ _ _ Hr) as (? & _ & ?). done.
  - intros r Hr. split; [by apply Hnone|].
    intros row t. unfold resolve.
    repeat case_match; intros [= -> <-]; try done;
      exfalso; by eapply (Hnone r Hr).
Qed.

Lemma by_name_country_keys_nonempty_witness :
  let blank : gmap string string :=
    {[ "id" := "x1"; "name" := "HD"; "alt_names" := "+1; -- " ]} in
  let espn : gmap string string := {[ "id" := "espn1"; "name" := "ESPN" ]} in
  let preferred_df := Frame ["id"; "name"; "alt_names"] [blank; espn] in
  ∃ by_id by_name_country,
    build_preferred_lookup preferred_df = Ok (by_id, by_name_country)
    ∧ by_id !! "x1" = Some blank
    ∧ (∀ norm country r, by_name_country !! (norm, country) = Some r →
         norm ≠ "")
    ∧ (∀ k, by_name_country !! k ≠ Some blank).
Proof.
  intros blank espn preferred_df.
  set (idx := foldl add_preferred (∅, ∅) (rows preferred_df)).
  assert (build_preferred_lookup preferred_df = Ok (idx.1, idx.2)) as Hb
    by compute_done.
  exists idx.1, idx.2.
  destruct (by_name_country_keys_nonempty preferred_df idx.1 idx.2 Hb)
    as [Hkeys Hblank].
  split; [exact Hb|]. split; [compute_done|]. split.
  - intros norm c r Hr. by destruct (Hkeys norm c r Hr).
  - apply Hblank.
    assert (Forall (λ nm, normalize_name nm = "") (names_of blank)) as Hall
      by compute_done.
    intros nm Hnm. by apply (proj1 (Forall_forall _ _) Hall).
Defined.

(** *** The whole batch *)

(** The structural check is the only way [build_preferred_lookup] raises. *)
Lemma build_preferred_lookup_total preferred_df :
  "id" ∈ columns preferred_df → "name" ∈ columns preferred_df →
  ∃ idx, build_preferred_lookup preferred_df = Ok idx.
Proof.
  intros Hid Hname. unfold build_preferred_lookup.
  rewrite filter_cons_False by (by intros ?).
  rewrite filter_cons_False by (by intros ?).
  rewrite filter_nil. eauto.
Qed.

Lemma preferred_ids_raises preferred_df :
  "id" ∈ columns preferred_df →
  preferred_ids preferred_df
  = Raise (ValueError
      "The truth value of a Series is ambiguous. Use a.empty, a.item(), a.any() or a.all().").
Proof.
  intros Hid. unfold preferred_ids, df_get. by rewrite decide_True.
Qed.

(** The columns [add_cols] adds leave the ones the frame had. *)
Lemma ensure_columns_keep (df : DataFrame) (cols : list string) (c : string) :
  c ∈ columns df → c ∈ columns (foldl ensure_column df cols).
Proof.
  revert df. induction cols as [|col cols IH]; intros df Hc; simpl; [done|].
  apply IH. unfold ensure_column. case_decide; [done|].
  simpl. apply elem_of_app. by left.
Qed.

(** C8, as the code has it.  With the baseline and the preferred table
    passing both structural checks, [enrich_baseline_with_preferred] does
    not return the enriched table: the statement
    [set(preferred_df.get("id") or [])] takes the truth value of a pandas
    Series, which raises [ValueError], before the first row is looked at.
    This holds for every content of the two tables and every exclusion
    set. *)
Theorem enrichment_raises_after_structural_checks
    (baseline_df preferred_df : DataFrame) (excl : gset string) :
  "xmltv_id" ∈ columns baseline_df ∨ "display_name" ∈ columns baseline_df →
  "id" ∈ columns preferred_df → "name" ∈ columns preferred_df →
  enrich_baseline_with_preferred baseline_df preferred_df excl
  = Raise (ValueError
      "The truth value of a Series is ambiguous. Use a.empty, a.item(), a.any() or a.all().").
Proof.
  intros Hbase Hid Hname. unfold enrich_baseline_with_preferred.
  assert (bool_decide ("xmltv_id" ∉ columns baseline_df)
          && bool_decide ("display_name" ∉ columns baseline_df) = false) as ->.
  { apply andb_false_iff.
    destruct Hbase; [left | right]; apply bool_decide_eq_false; tauto. }
  destruct (build_preferred_lookup_total preferred_df Hid Hname)
    as [[by_id by_name_country] ->].
  unfold bind. by rewrite (preferred_ids_raises preferred_df Hid).
Qed.

Lemma enrichment_raises_after_structural_checks_witness :
  let baseline_df :=
    Frame ["xmltv_id"; "display_name"]
          [ {[ "xmltv_id" := "espn1"; "display_name" := "ESPN" ]} ] in
  let preferred_df :=
    Frame ["id"; "name"] [ {[ "id" := "espn1"; "name" := "ESPN" ]} ] in
  enrich_baseline_with_preferred baseline_df preferred_df ∅
  = Raise (ValueError
      "The truth value of a Series is ambiguous. Use a.empty, a.item(), a.any() or a.all().").
Proof.
  intros baseline_df preferred_df.
  apply (enrichment_raises_after_structural_checks baseline_df preferred_df ∅).
  - left. compute_done.
  - compute_done.
  - compute_done.
Defined.

End EnrichFacts.

(** ** The merge engine *)

Section MergeFacts.
Import Merge.

Implicit Types (c prev v w : candidate) (cs seen : list candidate).
Implicit Types (t : table) (st : state) (k : string).

(** *** The table *)

Lemma lookup_store_eq k v t : lookup_key k (store_key k v t) = Some v.
Proof.
  induction t as [|[k' v'] t IH]; simpl.
  - by rewrite decide_True.
  - case_decide; simpl.
    + by rewrite decide_True.
    + by rewrite decide_False.
Qed.

Lemma lookup_store_ne k k' v t :
  k ≠ k' → lookup_key k' (store_key k v t) = lookup_key k' t.
Proof.
  intros Hne. induction t as [|[k0 v0] t IH]; simpl.
  - by rewrite decide_False.
  - case_decide; simpl; subst.
    + by rewrite !decide_False.
    + case_decide; [done | apply IH].
Qed.

Lemma lookup_key_None k t : lookup_key k t = None ↔ k ∉ t.*1.
Proof.
  induction t as [|[k' v'] t IH]; csimpl.
  - split; [intros _; apply not_elem_of_nil | done].
  - rewrite not_elem_of_cons. case_decide; [|tauto].
    split; [done|]. by intros [? _].
Qed.

Lemma store_keys_fresh k v t :
  lookup_key k t = None → (store_key k v t).*1 = t.*1 ++ [k].
Proof.
  induction t as [|[k' v'] t IH]; csimpl; [done|].
  case_decide; [done|]. intros Hnone. csimpl. by rewrite IH.
Qed.

Lemma store_keys_same k v t :
  is_Some (lookup_key k t) → (store_key k v t).*1 = t.*1.
Proof.
  induction t as [|[k' v'] t IH]; csimpl; [by intros [? ?]|].
  case_decide; [by subst|]. intros Hsome. csimpl. by rewrite IH.
Qed.

Lemma lookup_key_elem k v t : lookup_key k t = Some v → v ∈ t.*2.
Proof.
  induction t as [|[k' v'] t IH]; csimpl; [done|].
  case_decide; [intros [= ->]; left | intros; right; auto].
Qed.

Lemma elem_lookup_key v t :
  v ∈ t.*2 → ∃ k, k ∈ t.*1 ∧ (NoDup t.*1 → lookup_key k t = Some v).
Proof.
  induction t as [|[k' v'] t IH]; csimpl; [by intros ?%elem_of_nil|].
  intros [->|Hin]%elem_of_cons.
  - exists k'. split; [left|]. by rewrite decide_True.
  - destruct (IH Hin) as (k & Hk & Hlook). exists k. split; [by right|].
    intros [Hfresh Hnd]%NoDup_cons. rewrite decide_False; [auto|].
    by intros ->.
Qed.

(** *** One step of the loop *)

Lemma merge_step_unusable st c :
  ¬ usable c →
  merge_step st c
  = {| merged := merged st; dupes := dupes st;
       unmatched := unmatched st ++ [c] |}.
Proof.
  intros Hc. unfold merge_step. rewrite decide_True; [done|].
  unfold usable in Hc. by destruct (decide (normalize_name (name c) = "")).
Qed.

Lemma merge_step_fresh st c :
  usable c → lookup_key (identity_key c) (merged st) = None →
  merge_step st c
  = {| merged := store_key (identity_key c) c (merged st);
       dupes := dupes st; unmatched := unmatched st |}.
Proof.
  intros Hc Hnone. unfold merge_step. rewrite decide_False by done.
  fold (identity_key c). by rewrite Hnone.
Qed.

Lemma merge_step_collide st c prev :
  usable c → lookup_key (identity_key c) (merged st) = Some prev →
  merge_step st c
  = {| merged := if new_wins prev c
                 then store_key (identity_key c) c (merged st) else merged st;
       dupes := dupes st
                ++ [record_for (identity_key c)
                      (if new_wins prev c then c else prev) c];
       unmatched := unmatched st |}.
Proof.
  intros Hc Hprev. unfold merge_step. rewrite decide_False by done.
  fold (identity_key c). rewrite Hprev.
  destruct (new_wins prev c).
  - by rewrite lookup_store_eq.
  - by rewrite Hprev.
Qed.

Lemma table_ok_mono seen seen' t :
  seen ⊆ seen' → table_ok seen t → table_ok seen' t.
Proof.
  intros Hsub [Hnd Hok]. split; [done|].
  intros k v Hv. destruct (Hok k v Hv) as (? & ? & ?). auto.
Qed.

Lemma table_ok_store seen t c :
  table_ok seen t → usable c →
  table_ok (seen ++ [c]) (store_key (identity_key c) c t).
Proof.
  intros [Hnd Hok] Hc. split.
  - destruct (lookup_key (identity_key c) t) eqn:Hlook.
    + by rewrite store_keys_same.
    + rewrite store_keys_fresh by done.
      apply NoDup_app. split_and!; [done| |apply NoDup_singleton].
      intros k Hk ->%list_elem_of_singleton. by apply lookup_key_None in Hlook.
  - intros k v. destruct (decide (identity_key c = k)) as [<-|Hne].
    + rewrite lookup_store_eq. intros [= <-].
      split_and!; [done..|]. apply elem_of_app. right. left.
    + rewrite lookup_store_ne by done. intros Hv.
      destruct (Hok k v Hv) as (? & ? & ?).
      split_and!; [done..|]. apply elem_of_app. by left.
Qed.

Lemma merge_step_table_ok seen st c :
  table_ok seen (merged st) → table_ok (seen ++ [c]) (merged (merge_step st c)).
Proof.
  intros Hok.
  assert (table_ok (seen ++ [c]) (merged st)) as Hok'.
  { eapply table_ok_mono; [|done]. intros x ?. apply elem_of_app. by left. }
  destruct (decide (usable c)) as [Hc|Hc].
  - destruct (lookup_key (identity_key c) (merged st)) as [prev|] eqn:Hlook.
    + rewrite (merge_step_collide _ _ _ Hc Hlook). simpl.
      destruct (new_wins prev c); [by apply table_ok_store | done].
    + rewrite (merge_step_fresh _ _ Hc Hlook). simpl. by apply table_ok_store.
  - by rewrite (merge_step_unusable _ _ Hc).
Qed.

Lemma foldl_table_ok cs seen st :
  table_ok seen (merged st) →
  table_ok (seen ++ cs) (merged (foldl merge_step st cs)).
Proof.
  revert seen st. induction cs as [|c cs IH]; intros seen st Hok; simpl.
  - by rewrite app_nil_r.
  - rewrite (cons_middle c seen cs), app_assoc.
    apply IH. by apply merge_step_table_ok.
Qed.

Lemma run_table_ok cs : table_ok cs (merged (run cs)).
Proof.
  apply (foldl_table_ok cs [] (State [] [] [])).
  split; [apply NoDup_nil_2 | intros ?? [=]].
Qed.

(** A key that is in the table stays in it. *)
Lemma merge_step_keeps_keys st c k :
  is_Some (lookup_key k (merged st)) →
  is_Some (lookup_key k (merged (merge_step st c))).
Proof.
  intros Hk.
  destruct (decide (usable c)) as [Hc|Hc];
    [|by rewrite (merge_step_unusable _ _ Hc)].
  assert (∀ t, is_Some (lookup_key k t) →
               is_Some (lookup_key k (store_key (identity_key c) c t))) as Hst.
  { intros t Ht. destruct (decide (identity_key c = k)) as [<-|Hne].
    - by rewrite lookup_store_eq.
    - by rewrite lookup_store_ne. }
  destruct (lookup_key (identity_key c) (merged st)) as [prev|] eqn:Hlook.
  - rewrite (merge_step_collide _ _ _ Hc Hlook). simpl.
    destruct (new_wins prev c); auto.
  - rewrite (merge_step_fresh _ _ Hc Hlook). simpl. auto.
Qed.

Lemma foldl_keeps_keys cs st k :
  is_Some (lookup_key k (merged st)) →
  is_Some (lookup_key k (merged (foldl merge_step st cs))).
Proof.
  revert st. induction cs as [|c cs IH]; intros st Hk; simpl; [done|].
  by apply IH, merge_step_keeps_keys.
Qed.

(** A usable candidate is filed under its identity key. *)
Lemma merge_step_files st c :
  usable c → is_Some (lookup_key (identity_key c) (merged (merge_step st c))).
Proof.
  intros Hc.
  destruct (lookup_key (identity_key c) (merged st)) as [prev|] eqn:Hlook.
  - rewrite (merge_step_collide _ _ _ Hc Hlook). simpl.
    destruct (new_wins prev c); [by rewrite lookup_store_eq | by rewrite Hlook].
  - rewrite (merge_step_fresh _ _ Hc Hlook). simpl. by rewrite lookup_store_eq.
Qed.

Lemma foldl_files cs st c :
  c ∈ cs → usable c →
  is_Some (lookup_key (identity_key c) (merged (foldl merge_step st cs))).
Proof.
  revert st. induction cs as [|c' cs IH]; intros st Hin Hc; simpl.
  - by apply elem_of_nil in Hin.
  - apply elem_of_cons in Hin as [->|Hin]; [|by apply IH].
    by apply foldl_keeps_keys, merge_step_files.
Qed.

(** The unmatched list is the list of the candidates without a usable
    name, in order. *)
Lemma foldl_unmatched cs st :
  unmatched (foldl merge_step st cs)
  = unmatched st ++ filter (λ c, ¬ usable c) cs.
Proof.
  revert st. induction cs as [|c cs IH]; intros st; simpl.
  - by rewrite app_nil_r.
  - rewrite IH. destruct (decide (usable c)) as [Hc|Hc].
    + rewrite filter_cons_False by tauto.
      destruct (lookup_key (identity_key c) (merged st)) as [prev|] eqn:Hlook.
      * by rewrite (merge_step_collide _ _ _ Hc Hlook).
      * by rewrite (merge_step_fresh _ _ Hc Hlook).
    + rewrite filter_cons_True by done.
      rewrite (merge_step_unusable _ _ Hc). simpl. by rewrite <- app_assoc.
Qed.

(** *** Counting collision records *)

Lemma collisions_of_snoc k ds d :
  collisions_of k (ds ++ [d])
  = collisions_of k ds + (if decide (key d = k) then 1 else 0).
Proof.
  unfold collisions_of. rewrite filter_app, length_app. f_equal.
  case_decide; [by rewrite filter_cons_True | by rewrite filter_cons_False].
Qed.

Lemma present_store k k' c t :
  present k (store_key k' c t)
  = if decide (k' = k) then 1 else present k t.
Proof.
  unfold present. case_decide as Hk.
  - subst. by rewrite lookup_store_eq.
  - by rewrite lookup_store_ne.
Qed.

Lemma merge_step_count st c k :
  collisions_of k (dupes (merge_step st c)) + present k (merged (merge_step st c))
  = collisions_of k (dupes st) + present k (merged st) + length (group k [c]).
Proof.
  unfold group. destruct (decide (usable c)) as [Hc|Hc].
  - destruct (lookup_key (identity_key c) (merged st)) as [prev|] eqn:Hlook.
    + rewrite (merge_step_collide _ _ _ Hc Hlook). simpl.
      rewrite collisions_of_snoc. simpl.
      assert (present k (if new_wins prev c
                         then store_key (identity_key c) c (merged st)
                         else merged st) = present k (merged st)) as ->.
      { destruct (new_wins prev c); [|done]. rewrite present_store.
        case_decide; [|done]. subst. unfold present. by rewrite Hlook. }
      case_decide.
      * rewrite filter_cons_True by done. simpl. lia.
      * rewrite filter_cons_False by tauto. simpl. lia.
    + rewrite (merge_step_fresh _ _ Hc Hlook). simpl. rewrite present_store.
      case_decide.
      * rewrite filter_cons_True by done. subst. unfold present.
        rewrite Hlook. simpl. lia.
      * rewrite filter_cons_False by tauto. simpl. lia.
  - rewrite (merge_step_unusable _ _ Hc). simpl.
    rewrite filter_cons_False by tauto. simpl. lia.
Qed.

Lemma foldl_count cs st k :
  collisions_of k (dupes (foldl merge_step st cs))
  + present k (merged (foldl merge_step st cs))
  = collisions_of k (dupes st) + present k (merged st) + length (group k cs).
Proof.
  revert st. induction cs as [|c cs IH]; intros st; simpl.
  - unfold group. simpl. lia.
  - rewrite IH, merge_step_count. unfold group.
    change (c :: cs) with ([c] ++ cs). rewrite filter_app, length_app. lia.
Qed.

(** Every group yields one entry of the table and one collision record for
    each further member: the records with key [k] are the members of the
    group of [k] less one. *)
Lemma run_count cs k :
  collisions_of k (dupes (run cs)) + present k (merged (run cs))
  = length (group k cs).
Proof.
  unfold run. rewrite foldl_count. unfold collisions_of, present. simpl. lia.
Qed.

Lemma two_members {A} (l : list A) (x y : A) :
  x ∈ l → y ∈ l → x ≠ y → 2 ≤ length l.
Proof.
  intros (l1 & l2 & ->)%list_elem_of_split Hy Hne.
  rewrite length_app. simpl.
  apply elem_of_app in Hy as [Hy|Hy].
  - destruct l1; [by apply elem_of_nil in Hy | simpl; lia].
  - apply elem_of_cons in Hy as [->|Hy]; [done|].
    destruct l2; [by apply elem_of_nil in Hy | simpl; lia].
Qed.

(** *** Routing and keys *)

Lemma identity_key_id c : xmltv_id c ≠ "" → identity_key c = xmltv_id c.
Proof. intros Hid. unfold identity_key. by rewrite decide_False. Qed.

Lemma identity_key_name c :
  xmltv_id c = "" → identity_key c = normalize_name (name c).
Proof. intros Hid. unfold identity_key. by rewrite decide_True. Qed.

Lemma run_files cs c :
  c ∈ cs → usable c →
  ∃ w, lookup_key (identity_key c) (merged (run cs)) = Some w
       ∧ identity_key w = identity_key c ∧ usable w ∧ w ∈ cs
       ∧ w ∈ (merge_candidates cs).1.1.
Proof.
  intros Hin Hc.
  destruct (foldl_files cs (State [] [] []) c Hin Hc) as [w Hw].
  fold (run cs) in Hw. exists w. split; [done|].
  destruct (run_table_ok cs) as [_ Hok].
  destruct (Hok _ _ Hw) as (? & ? & ?). split_and!; [done..|].
  simpl. by eapply lookup_key_elem.
Qed.

(** C4, as the code has it.  The unmatched list holds exactly the
    candidates whose loose-normalized name is empty, whether or not they
    carry an [xmltv_id]; every candidate with a usable name is filed in the
    merge table under its identity key, which is its own id when the id is
    non-empty and its loose-normalized name otherwise. *)
Theorem unmatched_iff_no_usable_name cs :
  (merge_candidates cs).2 = filter (λ c, normalize_name (name c) = "") cs
  ∧ (∀ c, c ∈ (merge_candidates cs).2 ↔ c ∈ cs ∧ normalize_name (name c) = "")
  ∧ (∀ c, c ∈ cs → normalize_name (name c) ≠ "" →
       ∃ w, lookup_key (identity_key c) (merged (run cs)) = Some w
            ∧ identity_key w = identity_key c
            ∧ w ∈ (merge_candidates cs).1.1)
  ∧ (∀ c, xmltv_id c ≠ "" → identity_key c = xmltv_id c)
  ∧ (∀ c, xmltv_id c = "" → identity_key c = normalize_name (name c)).
Proof.
  assert ((merge_candidates cs).2
          = filter (λ c, normalize_name (name c) = "") cs) as Hun.
  { simpl. unfold run. rewrite foldl_unmatched. simpl.
    apply list_filter_iff. intros c. unfold usable.
    destruct (decide (normalize_name (name c) = "")); tauto. }
  split_and!.
  - done.
  - intros c. rewrite Hun, list_elem_of_filter. tauto.
  - intros c Hin Hc. destruct (run_files cs c Hin Hc) as (w & ? & ? & _ & _ & ?).
    eauto.
  - apply identity_key_id.
  - apply identity_key_name.
Qed.

Lemma unmatched_iff_no_usable_name_witness :
  let a := Candidate "" "x.us" "HD" "Draft-Keep.csv" in
  let b := Candidate "provider-a" "cnn.us" "CNN" "matched_channels.csv" in
  (merge_candidates [a; b]).2 = [a]
  ∧ ∃ w, lookup_key "cnn.us" (merged (run [a; b])) = Some w
         ∧ w ∈ (merge_candidates [a; b]).1.1.
Proof.
  intros a b.
  destruct (unmatched_iff_no_usable_name [a; b])
    as (Hun & _ & Hfiled & _ & _).
  split; [rewrite Hun; compute_done|].
  destruct (Hfiled b) as (w & Hw & _ & Hin); [compute_done..|].
  exists w. split; [|done].
  by replace "cnn.us" with (identity_key b) by compute_done.
Defined.

(** The claim as the spec words it fails: a candidate that carries an id
    but whose name normalizes to nothing is routed to [unmatched]. *)
Lemma id_carrier_routed_to_unmatched :
  let c := Candidate "" "x.us" "HD" "Draft-Keep.csv" in
  xmltv_id c ≠ "" ∧ merge_candidates [c] = ([], [], [c]).
Proof. intros c. split; compute_done. Qed.

(** *** One key namespace for ids and names *)

(** C9, as the code has it.  Ids and loose-normalized names are keys of one
    table.  A candidate with a usable name whose non-empty [xmltv_id]
    equals the loose-normalized name of an id-less candidate has the same
    identity key as that candidate: after the run the table has one entry
    for the key, the two are not both winners, and the collision list has
    a record with that key. *)
Theorem id_and_name_keys_share_namespace cs c1 c2 :
  c1 ∈ cs → c2 ∈ cs →
  normalize_name (name c1) ≠ "" → xmltv_id c1 ≠ "" →
  xmltv_id c2 = "" → normalize_name (name c2) = xmltv_id c1 →
  identity_key c1 = identity_key c2
  ∧ (∃ w, lookup_key (xmltv_id c1) (merged (run cs)) = Some w
          ∧ w ∈ (merge_candidates cs).1.1)
  ∧ ¬ (c1 ∈ (merge_candidates cs).1.1 ∧ c2 ∈ (merge_candidates cs).1.1)
  ∧ ∃ d, d ∈ (merge_candidates cs).1.2 ∧ key d = xmltv_id c1.
Proof.
  intros Hin1 Hin2 Hc1 Hid1 Hid2 Hname.
  assert (identity_key c1 = xmltv_id c1) as Hk1 by by apply identity_key_id.
  assert (identity_key c2 = xmltv_id c1) as Hk2
    by by rewrite identity_key_name.
  assert (usable c2) as Hc2 by (unfold usable; congruence).
  assert (c1 ≠ c2) as Hne by congruence.
  destruct (run_table_ok cs) as [Hnd Hok].
  split_and!.
  - congruence.
  - destruct (run_files cs c1 Hin1 Hc1) as (w & Hw & _ & _ & _ & Hwin).
    rewrite Hk1 in Hw. eauto.
  - simpl. intros [H1 H2].
    assert (∀ c, c ∈ (merged (run cs)).*2 →
                 lookup_key (identity_key c) (merged (run cs)) = Some c) as Hval.
    { intros c (k & _ & Hk)%elem_lookup_key. specialize (Hk Hnd).
      destruct (Hok _ _ Hk) as (<- & _). done. }
    apply Hval in H1, H2. rewrite Hk1 in H1. rewrite Hk2 in H2. congruence.
  - pose proof (run_count cs (xmltv_id c1)) as Hcount.
    assert (2 ≤ length (group (xmltv_id c1) cs)) as Hgroup.
    { apply (two_members _ c1 c2); [| |done];
        apply list_elem_of_filter; auto. }
    assert (0 < collisions_of (xmltv_id c1) (dupes (run cs))) as Hpos.
    { unfold present in Hcount.
      destruct (lookup_key (xmltv_id c1) (merged (run cs))); lia. }
    unfold collisions_of in Hpos.
    destruct (filter _ (dupes (run cs))) as [|d ds] eqn:Hf; [simpl in Hpos; lia|].
    assert (d ∈ filter (λ d, key d = xmltv_id c1) (dupes (run cs))) as Hd
      by (rewrite Hf; left).
    apply list_elem_of_filter in Hd as [? ?]. eauto.
Qed.

Lemma id_and_name_keys_share_namespace_witness :
  let c1 := Candidate "provider-a" "cnn" "CNN US" "Draft-Keep.csv" in
  let c2 := Candidate "" "" "CNN" "custom.channels.xml" in
  identity_key c1 = identity_key c2
  ∧ ¬ (c1 ∈ (merge_candidates [c2; c1]).1.1 ∧ c2 ∈ (merge_candidates [c2; c1]).1.1)
  ∧ ∃ d, d ∈ (merge_candidates [c2; c1]).1.2 ∧ key d = "cnn".
Proof.
  intros c1 c2.
  destruct (id_and_name_keys_share_namespace [c2; c1] c1 c2)
    as (Hkey & _ & Hnot & Hdup); [compute_done..|].
  split_and!; [exact Hkey | exact Hnot | exact Hdup].
Defined.

(** The claim without the usable-name condition fails: the id-carrying
    candidate is routed to [unmatched] and nothing is recorded as a
    duplicate. *)
Lemma id_carrier_without_name_not_grouped :
  let c1 := Candidate "" "cnn" "" "Draft-Keep.csv" in
  let c2 := Candidate "" "" "CNN" "custom.channels.xml" in
  xmltv_id c1 ≠ "" ∧ xmltv_id c2 = ""
  ∧ normalize_name (name c2) = xmltv_id c1
  ∧ merge_candidates [c1; c2] = ([c2], [], [c1]).
Proof. intros c1 c2. split_and!; compute_done. Qed.

(** *** Collision records *)

(** C3, as the code has it.  When the new candidate [c] displaces the
    provisional winner [prev], the table entry becomes [c] and the one
    record appended names [c] both as kept and as dropped; the fields of
    [prev] are not in it. *)
Theorem displacing_candidate_recorded_as_dropped st c prev :
  normalize_name (name c) ≠ "" →
  lookup_key (identity_key c) (merged st) = Some prev →
  new_wins prev c = true →
  lookup_key (identity_key c) (merged (merge_step st c)) = Some c
  ∧ dupes (merge_step st c)
    = dupes st
      ++ [ {| key := identity_key c;
              kept_name := name c; dropped_name := name c;
              kept_source := source c; dropped_source := source c;
              kept_xmltv_id := xmltv_id c; dropped_xmltv_id := xmltv_id c |} ].
Proof.
  intros Hc Hprev Hwin.
  rewrite (merge_step_collide st c prev Hc Hprev), Hwin. simpl.
  by rewrite lookup_store_eq.
Qed.

Lemma displacing_candidate_recorded_as_dropped_witness :
  let a := Candidate "" "" "CNN" "custom.channels.xml" in
  let b := Candidate "provider-a" "cnn" "CNN US" "Draft-Keep.csv" in
  merge_candidates [a] = ([a], [], [])
  ∧ dupes (merge_step (run [a]) b)
    = [ {| key := "cnn";
           kept_name := "CNN US"; dropped_name := "CNN US";
           kept_source := "Draft-Keep.csv"; dropped_source := "Draft-Keep.csv";
           kept_xmltv_id := "cnn"; dropped_xmltv_id := "cnn" |} ].
Proof.
  intros a b. split; [compute_done|].
  destruct (displacing_candidate_recorded_as_dropped (run [a]) b a)
    as [_ ->]; compute_done.
Defined.

(** *** The tie-break *)

Lemma new_wins_id prev c :
  xmltv_id prev = "" → xmltv_id c ≠ "" → new_wins prev c = true.
Proof.
  intros Hp Hc. unfold new_wins.
  by rewrite (bool_decide_eq_true_2 _ Hp), (bool_decide_eq_true_2 _ Hc).
Qed.

Lemma new_wins_source prev c :
  xmltv_id prev ≠ "" →
  new_wins prev c
  = bool_decide (source prev ≠ CUSTOM_SOURCE ∧ source c = CUSTOM_SOURCE).
Proof.
  intros Hp. unfold new_wins.
  rewrite (bool_decide_eq_false_2 _ Hp). simpl.
  rewrite bool_decide_and. by destruct (_ && _).
Qed.

Lemma new_wins_keeps_id prev c :
  xmltv_id prev ≠ "" →
  source prev = CUSTOM_SOURCE ∨ source c ≠ CUSTOM_SOURCE →
  new_wins prev c = false.
Proof.
  intros Hp Hsrc. rewrite new_wins_source by done.
  apply bool_decide_eq_false_2. tauto.
Qed.

(** Two candidates of one group, alone. *)
Lemma merge_pair a b :
  usable a → usable b → identity_key a = identity_key b →
  merge_candidates [a; b]
  = ([if new_wins a b then b else a],
     [record_for (identity_key b) (if new_wins a b then b else a) b], []).
Proof.
  intros Ha Hb Hkey. unfold merge_candidates, run. simpl.
  rewrite (merge_step_fresh _ a Ha) by done. simpl.
  assert (lookup_key (identity_key b) [(identity_key a, a)] = Some a) as Hlook.
  { simpl. by rewrite decide_True. }
  rewrite (merge_step_collide (State [(identity_key a, a)] [] []) b a Hb Hlook).
  simpl. destruct (new_wins a b); [|done].
  by rewrite decide_True.
Qed.

(** An entry that carries an id stays while rule 2 cannot fire against it. *)
Lemma merge_step_keeps_id st c k v :
  lookup_key k (merged st) = Some v → xmltv_id v ≠ "" →
  source v = CUSTOM_SOURCE ∨ source c ≠ CUSTOM_SOURCE →
  lookup_key k (merged (merge_step st c)) = Some v.
Proof.
  intros Hv Hid Hsrc.
  destruct (decide (usable c)) as [Hc|Hc];
    [|by rewrite (merge_step_unusable _ _ Hc)].
  destruct (lookup_key (identity_key c) (merged st)) as [prev|] eqn:Hlook.
  - rewrite (merge_step_collide _ _ _ Hc Hlook). simpl.
    destruct (decide (identity_key c = k)) as [<-|Hne].
    + assert (prev = v) as -> by congruence.
      by rewrite new_wins_keeps_id.
    + destruct (new_wins prev c); [by rewrite lookup_store_ne | done].
  - rewrite (merge_step_fresh _ _ Hc Hlook). simpl.
    rewrite lookup_store_ne; [done|]. intros <-. congruence.
Qed.

Lemma foldl_keeps_id cs st k v :
  lookup_key k (merged st) = Some v → xmltv_id v ≠ "" →
  source v = CUSTOM_SOURCE ∨ Forall (λ c, source c ≠ CUSTOM_SOURCE) cs →
  lookup_key k (merged (foldl merge_step st cs)) = Some v.
Proof.
  revert st. induction cs as [|c cs IH]; intros st Hv Hid Hsrc; simpl; [done|].
  apply IH; [|done|].
  - apply merge_step_keeps_id; [done..|].
    destruct Hsrc as [?|Hall]; [by left|]. right. by inversion Hall.
  - destruct Hsrc as [?|Hall]; [by left|]. right. by inversion Hall.
Qed.

(** After an id-carrying candidate is processed the entry of its key
    carries an id: the candidate itself, or the entry that was there. *)
Lemma merge_step_gets_id st c :
  usable c → xmltv_id c ≠ "" →
  ∃ w, lookup_key (identity_key c) (merged (merge_step st c)) = Some w
       ∧ xmltv_id w ≠ ""
       ∧ (w = c ∨ lookup_key (identity_key c) (merged st) = Some w).
Proof.
  intros Hc Hid.
  destruct (lookup_key (identity_key c) (merged st)) as [prev|] eqn:Hlook.
  - rewrite (merge_step_collide _ _ _ Hc Hlook). simpl.
    destruct (new_wins prev c) eqn:Hwin.
    + exists c. rewrite lookup_store_eq. auto.
    + exists prev. split_and!; [done| |by right].
      intros Hp. by rewrite new_wins_id in Hwin.
  - rewrite (merge_step_fresh _ _ Hc Hlook). simpl.
    exists c. rewrite lookup_store_eq. auto.
Qed.

Lemma custom_first_winner_has_id cs c :
  custom_first cs → c ∈ cs → usable c → xmltv_id c ≠ "" →
  ∃ w, lookup_key (identity_key c) (merged (run cs)) = Some w
       ∧ xmltv_id w = xmltv_id c.
Proof.
  intros (l1 & l2 & -> & Hl1 & Hl2) Hin Hc Hid.
  assert (∀ w, lookup_key (identity_key c) (merged (run (l1 ++ l2))) = Some w →
               xmltv_id w ≠ "" → xmltv_id w = xmltv_id c) as Hfin.
  { intros w Hw Hwid. destruct (run_table_ok (l1 ++ l2)) as [_ Hok].
    destruct (Hok _ _ Hw) as (Hkey & _).
    by rewrite <- (identity_key_id w), Hkey, identity_key_id. }
  apply elem_of_app in Hin as [Hin|Hin];
    apply list_elem_of_split in Hin as (a & b & ->).
  - destruct (merge_step_gets_id (run a) c Hc Hid) as (w & Hw & Hwid & Hfrom).
    assert (source w = CUSTOM_SOURCE) as Hsrc.
    { rewrite Forall_forall in Hl1. apply Hl1.
      destruct Hfrom as [->|Hold].
      - apply elem_of_app. right. left.
      - destruct (run_table_ok a) as [_ Hok].
        destruct (Hok _ _ Hold) as (_ & _ & ?). apply elem_of_app. by left. }
    exists w. split; [|apply Hfin; [|done]];
      unfold run; rewrite <- !app_assoc, foldl_app; simpl;
      apply foldl_keeps_id; auto.
  - destruct (merge_step_gets_id (run (l1 ++ a)) c Hc Hid)
      as (w & Hw & Hwid & _).
    assert (Forall (λ c, source c ≠ CUSTOM_SOURCE) b) as Hb.
    { apply Forall_app in Hl2 as [_ Hl2]. by inversion Hl2. }
    exists w. split; [|apply Hfin; [|done]];
      unfold run; rewrite app_assoc, foldl_app; simpl;
      apply foldl_keeps_id; auto.
Qed.

Lemma build_candidates_custom_first custom draft_keep matched recommended :
  custom_first (build_candidates custom draft_keep matched recommended).
Proof.
  unfold build_candidates. eexists _, _. split; [done|]. split.
  - apply Forall_fmap, Forall_true. done.
  - rewrite !Forall_app. split_and!; apply Forall_fmap, Forall_true; done.
Qed.

(** C1, as the code has it.  Take two usable candidates with one identity
    key of which exactly one carries an [xmltv_id].  If the id-less one is
    seen first, the id-carrying one wins, whatever the sources.  If the
    id-carrying one is seen first, it is kept unless it is not from
    custom.channels.xml while the id-less one is: then the source rule lets
    the id-less candidate win.  In a candidate list in the order
    [build_candidates] produces (custom.channels.xml first) this cannot
    happen: the winner of the key of every usable id-carrying candidate
    carries that id. *)
Theorem id_carrier_wins_unless_custom_displaces :
  (∀ a b, usable a → usable b → identity_key a = identity_key b →
     xmltv_id a = "" → xmltv_id b ≠ "" →
     (merge_candidates [a; b]).1.1 = [b])
  ∧ (∀ a b, usable a → usable b → identity_key a = identity_key b →
     xmltv_id a ≠ "" → xmltv_id b = "" →
     (merge_candidates [a; b]).1.1
     = [if bool_decide (source a ≠ CUSTOM_SOURCE ∧ source b = CUSTOM_SOURCE)
        then b else a])
  ∧ (∀ cs c, custom_first cs → c ∈ cs → usable c → xmltv_id c ≠ "" →
     ∃ w, lookup_key (identity_key c) (merged (run cs)) = Some w
          ∧ w ∈ (merge_candidates cs).1.1
          ∧ xmltv_id w = xmltv_id c)
  ∧ (∀ custom draft_keep matched recommended,
     custom_first (build_candidates custom draft_keep matched recommended)).
Proof.
  split_and!.
  - intros a b Ha Hb Hkey Hida Hidb.
    by rewrite (merge_pair a b Ha Hb Hkey), new_wins_id.
  - intros a b Ha Hb Hkey Hida Hidb.
    by rewrite (merge_pair a b Ha Hb Hkey), new_wins_source.
  - intros cs c Hcs Hin Hc Hid.
    destruct (custom_first_winner_has_id cs c Hcs Hin Hc Hid) as (w & Hw & ?).
    exists w. split_and!; [done| |done]. simpl. by eapply lookup_key_elem.
  - apply build_candidates_custom_first.
Qed.

Lemma id_carrier_wins_unless_custom_displaces_witness :
  let a := Candidate "" "" "CNN" "custom.channels.xml" in
  let b := Candidate "provider-a" "cnn" "CNN US" "Draft-Keep.csv" in
  (merge_candidates [a; b]).1.1 = [b]
  ∧ (merge_candidates [b; a]).1.1 = [a]
  ∧ ∃ w, lookup_key "cnn" (merged (run [a; b])) = Some w ∧ xmltv_id w = "cnn".
Proof.
  intros a b.
  destruct id_carrier_wins_unless_custom_displaces as (H1 & H2 & H3 & _).
  split_and!.
  - apply H1; compute_done.
  - rewrite H2; compute_done.
  - destruct (H3 [a; b] b) as (w & Hw & _ & Hid); [|compute_done..|].
    + exists [a], [b]. split_and!; [done|..]; repeat constructor; compute_done.
    + exists w. split; [|done].
      by replace "cnn" with (identity_key b) by compute_done.
Defined.

(** The claim as the spec words it fails: the id-carrying candidate is seen
    first, from a CSV source; the id-less candidate of custom.channels.xml
    comes second and wins. *)
Lemma id_less_custom_displaces_id_carrier :
  let a := Candidate "provider-a" "cnn" "CNN US" "Draft-Keep.csv" in
  let b := Candidate "" "" "CNN" "custom.channels.xml" in
  identity_key a = identity_key b
  ∧ xmltv_id a ≠ "" ∧ xmltv_id b = ""
  ∧ (merge_candidates [a; b]).1.1 = [b].
Proof. intros a b. split_and!; compute_done. Qed.

End MergeFacts.

(** ** The normalizers *)

Section CharFacts.
Import Py Re.

Local Ltac all_chars :=
  intros [[] [] [] [] [] [] [] []]; vm_compute; reflexivity.

Lemma char_space_not_word c : implb (is_space c) (negb (is_word c)) = true.
Proof. revert c. all_chars. Qed.

Lemma char_lower_idem c :
  bool_decide (lower_char (lower_char c) = lower_char c) = true.
Proof. revert c. all_chars. Qed.

Lemma char_lower_space c :
  bool_decide (is_space (lower_char c) = is_space c) = true.
Proof. revert c. all_chars. Qed.

Lemma char_lower_underscore c :
  implb (bool_decide (lower_char c = "_"%char)) (bool_decide (c = "_"%char))
  = true.
Proof. revert c. all_chars. Qed.

Lemma char_punct_word c :
  implb (Merge.is_punct c && is_word c) (bool_decide (c = "_"%char)) = true.
Proof. revert c. all_chars. Qed.

Lemma char_lower_alnum c :
  implb (is_lower_alnum c)
        (is_word c && negb (is_space c)
         && bool_decide (lower_char c = c) && bool_decide (c ≠ "+"%char))
  = true.
Proof. revert c. all_chars. Qed.

Lemma space_not_word c : is_space c = true → is_word c = false.
Proof.
  intros H. pose proof (char_space_not_word c) as Hc. rewrite H in Hc.
  by apply negb_true_iff in Hc.
Qed.

Lemma lower_char_idem c : lower_char (lower_char c) = lower_char c.
Proof. exact (bool_decide_eq_true_1 _ (char_lower_idem c)). Qed.

Lemma lower_char_space c : is_space (lower_char c) = is_space c.
Proof. exact (bool_decide_eq_true_1 _ (char_lower_space c)). Qed.

Lemma lower_char_underscore c : lower_char c = "_"%char → c = "_"%char.
Proof.
  intros H. pose proof (char_lower_underscore c) as Hc.
  rewrite (bool_decide_eq_true_2 _ H) in Hc.
  exact (bool_decide_eq_true_1 _ Hc).
Qed.

Lemma punct_word_underscore c :
  Merge.is_punct c = true → is_word c = true → c = "_"%char.
Proof.
  intros Hp Hw. pose proof (char_punct_word c) as Hc.
  rewrite Hp, Hw in Hc. exact (bool_decide_eq_true_1 _ Hc).
Qed.

Lemma lower_alnum_facts c :
  is_lower_alnum c = true →
  is_word c = true ∧ is_space c = false ∧ lower_char c = c ∧ c ≠ "+"%char.
Proof.
  intros H. pose proof (char_lower_alnum c) as Hc. rewrite H in Hc. simpl in Hc.
  apply andb_true_iff in Hc as [Hc H4].
  apply andb_true_iff in Hc as [Hc H3].
  apply andb_true_iff in Hc as [H1 H2].
  split_and!; [done | by apply negb_true_iff | ..].
  - exact (bool_decide_eq_true_1 _ H3).
  - exact (bool_decide_eq_true_1 _ H4).
Qed.

End CharFacts.

Section ReFacts.
Import Py Re.

Implicit Types (s w u tok r : chars) (c p : ascii) (prev : option ascii).

(** *** Scanning for a whole word *)

Lemma last_cons p s : last (p :: s) = Some (last_from p s).
Proof. revert p. induction s as [|c s IH]; intros p; [done|]. apply IH. Qed.

Lemma startswith_cons a tok b s :
  startswith (a :: tok) (b :: s) = bool_decide (a = b) && startswith tok s.
Proof. done. Qed.

(** The part of a whole-word match after the first boundary, against a run
    of word characters [w] followed by text that does not go on with a
    word character: the token matches exactly when it is the run. *)
Lemma match_run tok w s p :
  Forall (λ c, is_word c = true) tok → Forall (λ c, is_word c = true) w →
  nonword_head s → is_word p = true →
  startswith tok (w ++ s)
  && boundary (Some (last_from p tok)) (head (drop (length tok) (w ++ s)))
  = bool_decide (w = tok).
Proof.
  intros Htok Hw Hs. revert w p Hw.
  induction Htok as [|a tok Ha Htok IH]; intros w p Hw Hp.
  - simpl. unfold boundary. simpl. rewrite Hp.
    destruct Hw as [|b w Hb Hw]; simpl.
    + rewrite drop_0. unfold nonword_head in Hs. by rewrite Hs.
    + by rewrite Hb.
  - destruct Hw as [|b w Hb Hw].
    + rewrite app_nil_l. rewrite bool_decide_eq_false_2 by done.
      destruct s as [|c s]; [done|].
      rewrite startswith_cons.
      rewrite bool_decide_eq_false_2; [done|].
      intros ->. unfold nonword_head in Hs. simpl in Hs. congruence.
    + rewrite <- app_comm_cons, startswith_cons. simpl length. simpl drop.
      simpl last_from. rewrite <- andb_assoc, (IH w a Hw Ha).
      destruct (decide (a = b)) as [->|Hne].
      * rewrite bool_decide_eq_true_2 by done. simpl.
        apply bool_decide_ext. split; [by intros -> | by intros [= ->]].
      * rewrite bool_decide_eq_false_2 by done. simpl.
        symmetry. apply bool_decide_eq_false_2. by intros [= -> _].
Qed.

Lemma whole_word_run tok prev w s :
  word_token tok → Forall (λ c, is_word c = true) w → nonword_head s →
  whole_word tok prev (w ++ s)
  = if negb (word_opt prev) && bool_decide (w = tok)
    then Some (length tok) else None.
Proof.
  intros [Hne Htok] Hw Hs. unfold whole_word.
  destruct tok as [|a tok]; [done|].
  assert (is_word a = true) as Ha by by inversion Htok.
  rewrite last_cons. change (last_from a tok) with (last_from a (a :: tok)).
  rewrite <- andb_assoc, (match_run (a :: tok) w s a Htok Hw Hs Ha).
  destruct (decide (w = a :: tok)) as [->|Hw'].
  - rewrite bool_decide_eq_true_2 by done. simpl.
    unfold boundary. simpl. rewrite Ha, !andb_true_r.
    by destruct (word_opt prev).
  - rewrite bool_decide_eq_false_2 by done. by rewrite !andb_false_r.
Qed.

(** Inside a word nothing matches. *)
Lemma sub_inside tok r w s p :
  is_word p = true → Forall (λ c, is_word c = true) w →
  sub_from (whole_word tok) r (Some p) 0 (w ++ s)
  = w ++ sub_from (whole_word tok) r (Some (last_from p w)) 0 s.
Proof.
  intros Hp Hw. revert p Hp. induction Hw as [|c w Hc Hw IH]; intros p Hp.
  - done.
  - rewrite <- app_comm_cons. simpl sub_from.
    assert (whole_word tok (Some p) (c :: w ++ s) = None) as ->.
    { unfold whole_word, boundary. simpl. by rewrite Hp, Hc. }
    simpl. f_equal. by apply IH.
Qed.

(** Consuming the rest of a match. *)
Lemma sub_skip (m : matcher) r u s p :
  sub_from m r (Some p) (length u) (u ++ s)
  = sub_from m r (Some (last_from p u)) 0 s.
Proof.
  revert p. induction u as [|c u IH]; intros p; [done|].
  simpl. apply IH.
Qed.

(** A non-word character is copied. *)
Lemma sub_nonword tok r prev c s :
  word_token tok → is_word c = false →
  sub_from (whole_word tok) r prev 0 (c :: s)
  = c :: sub_from (whole_word tok) r (Some c) 0 s.
Proof.
  intros Htok Hc. simpl.
  assert (whole_word tok prev (c :: s) = None) as ->; [|done].
  assert (nonword_head (c :: s)) as Hs by (unfold nonword_head; by simpl).
  pose proof (whole_word_run tok prev [] (c :: s) Htok (Forall_nil_2 _) Hs)
    as Hm.
  rewrite app_nil_l in Hm. rewrite Hm.
  rewrite bool_decide_eq_false_2; [by rewrite andb_false_r|].
  destruct Htok as [? _]. congruence.
Qed.

(** A maximal run of word characters that starts at a boundary is replaced
    when it is the token and copied otherwise. *)
Lemma sub_run tok r prev w s :
  word_token tok → w ≠ [] → Forall (λ c, is_word c = true) w →
  nonword_head s → word_opt prev = false →
  sub_from (whole_word tok) r prev 0 (w ++ s)
  = (if bool_decide (w = tok) then r else w)
    ++ sub_from (whole_word tok) r (Some (last_from " "%char w)) 0 s.
Proof.
  intros Htok Hne Hw Hs Hprev.
  destruct w as [|c w]; [done|].
  assert (is_word c = true) as Hc by by inversion Hw.
  assert (Forall (λ c, is_word c = true) w) as Hw' by by inversion Hw.
  pose proof (whole_word_run tok prev (c :: w) s Htok Hw Hs) as Hm.
  rewrite Hprev in Hm. simpl negb in Hm. rewrite andb_true_l in Hm.
  rewrite <- app_comm_cons in *. simpl sub_from. rewrite Hm.
  destruct (decide (c :: w = tok)) as [<-|Hneq].
  - rewrite bool_decide_eq_true_2 by done. simpl length.
    f_equal. apply sub_skip.
  - rewrite bool_decide_eq_false_2 by done.
    rewrite <- app_comm_cons. f_equal. by apply sub_inside.
Qed.

Lemma sub_nonword_head tok r prev s :
  word_token tok → nonword_head s →
  nonword_head (sub_from (whole_word tok) r prev 0 s).
Proof.
  intros Htok Hs. destruct s as [|c s]; [done|].
  unfold nonword_head in Hs. simpl in Hs.
  by rewrite sub_nonword.
Qed.

(** Induction along the runs of a string. *)
Lemma run_ind (P : chars → Prop) :
  P [] →
  (∀ c s, is_word c = false → P s → P (c :: s)) →
  (∀ w s, w ≠ [] → Forall (λ c, is_word c = true) w → nonword_head s →
          P s → P (w ++ s)) →
  ∀ s, P s.
Proof.
  intros Hnil Hnon Hrun s.
  cut (P s ∧ ∀ u, u ≠ [] → Forall (λ c, is_word c = true) u → P (u ++ s));
    [tauto|].
  induction s as [|c s [IH1 IH2]].
  - split; [done|]. intros u Hu Hw. by apply Hrun.
  - destruct (is_word c) eqn:Hc.
    + split.
      * apply (IH2 [c]); [done | by constructor].
      * intros u Hu Hw. rewrite (cons_middle c u s), app_assoc.
        apply IH2; [by destruct u | ].
        apply Forall_app. split; [done | by constructor].
    + assert (P (c :: s)) as Hcs by by apply Hnon.
      split; [done|]. intros u Hu Hw. by apply Hrun.
Qed.

(** *** Words *)

Lemma pieces_nonword_head s : nonword_head s → ∃ ps, pieces s = [] :: ps.
Proof.
  destruct s as [|c s]; [by exists []|].
  unfold nonword_head. simpl. intros ->. eauto.
Qed.

Lemma pieces_run w s q ps :
  Forall (λ c, is_word c = true) w → pieces s = q :: ps →
  pieces (w ++ s) = (w ++ q) :: ps.
Proof.
  intros Hw Hs. induction Hw as [|c w Hc Hw IH]; [done|].
  rewrite <- app_comm_cons. simpl. by rewrite Hc, IH.
Qed.

Lemma word_runs_nonword c s : is_word c = false → word_runs (c :: s) = word_runs s.
Proof.
  intros Hc. unfold word_runs. simpl. rewrite Hc.
  by rewrite filter_cons_False by (by intros ?).
Qed.

Lemma word_runs_run w s :
  w ≠ [] → Forall (λ c, is_word c = true) w → nonword_head s →
  word_runs (w ++ s) = w :: word_runs s.
Proof.
  intros Hne Hw [ps Hs]%pieces_nonword_head. unfold word_runs.
  rewrite (pieces_run w s [] ps Hw Hs), Hs, app_nil_r.
  by rewrite filter_cons_True by done.
Qed.

(** The words of the text after [re.sub(r"\bTOKEN\b", " ", _)] are its
    words other than the token. *)
Lemma word_runs_sub_from tok s :
  word_token tok →
  ∀ prev, word_opt prev = false ∨ nonword_head s →
  word_runs (sub_from (whole_word tok) [" "%char] prev 0 s)
  = filter (λ w, w ≠ tok) (word_runs s).
Proof.
  intros Htok. induction s as [|c s Hc IH|w s Hne Hw Hs IH] using run_ind;
    intros prev Hprev.
  - done.
  - rewrite sub_nonword, !word_runs_nonword by done.
    apply IH. by left.
  - assert (word_opt prev = false) as Hp.
    { destruct Hprev as [?|Hhd]; [done|].
      destruct Hw as [|c w Hc _]; [done|].
      unfold nonword_head in Hhd. simpl in Hhd. congruence. }
    rewrite sub_run by done. rewrite (word_runs_run w s) by done.
    specialize (IH (Some (last_from " "%char w)) (or_intror Hs)).
    case_bool_decide as Hwt.
    + subst. rewrite filter_cons_False by (by intros ?).
      simpl app. by rewrite word_runs_nonword.
    + rewrite filter_cons_True by done.
      rewrite word_runs_run; [by rewrite IH|done..|].
      by apply sub_nonword_head.
Qed.

Lemma word_runs_sub tok s :
  word_token tok →
  word_runs (sub (whole_word tok) [" "%char] s)
  = filter (λ w, w ≠ tok) (word_runs s).
Proof. intros Htok. apply word_runs_sub_from; [done | by left]. Qed.

(** A text without the token as a word is left as it is. *)
Lemma sub_from_no_token tok r s :
  word_token tok →
  ∀ prev, word_opt prev = false ∨ nonword_head s →
  tok ∉ word_runs s →
  sub_from (whole_word tok) r prev 0 s = s.
Proof.
  intros Htok. induction s as [|c s Hc IH|w s Hne Hw Hs IH] using run_ind;
    intros prev Hprev Hnot.
  - done.
  - rewrite sub_nonword by done. f_equal.
    rewrite word_runs_nonword in Hnot by done. apply IH; [by left | done].
  - assert (word_opt prev = false) as Hp.
    { destruct Hprev as [?|Hhd]; [done|].
      destruct Hw as [|c w Hc _]; [done|].
      unfold nonword_head in Hhd. simpl in Hhd. congruence. }
    rewrite word_runs_run in Hnot by done.
    apply not_elem_of_cons in Hnot as [Hwt Hnot].
    rewrite sub_run by done.
    rewrite bool_decide_eq_false_2 by congruence.
    f_equal. apply IH; [by right | done].
Qed.

Lemma sub_no_token tok r s :
  word_token tok → tok ∉ word_runs s → sub (whole_word tok) r s = s.
Proof. intros Htok Hnot. apply sub_from_no_token; [done | by left | done]. Qed.

(** The same for a list of tags. *)
Lemma word_runs_remove_tags tags s :
  Forall word_token (of_string <$> tags) →
  word_runs (Merge.remove_tags tags s)
  = filter (λ w, w ∉ of_string <$> tags) (word_runs s).
Proof.
  unfold Merge.remove_tags. revert s.
  induction tags as [|t tags IH]; intros s Htags; simpl.
  - symmetry. apply filter_all, Forall_forall. intros w _. apply not_elem_of_nil.
  - apply Forall_cons in Htags as [Ht Htags].
    rewrite IH, word_runs_sub by done.
    rewrite list_filter_filter. apply list_filter_iff.
    intros w. rewrite not_elem_of_cons. tauto.
Qed.

Lemma remove_tags_id tags s :
  Forall word_token (of_string <$> tags) →
  Forall (λ w, w ∉ of_string <$> tags) (word_runs s) →
  Merge.remove_tags tags s = s.
Proof.
  unfold Merge.remove_tags. revert s.
  induction tags as [|t tags IH]; intros s Htags Hs; simpl; [done|].
  apply Forall_cons in Htags as [Ht Htags].
  assert (of_string t ∉ word_runs s) as Hnot.
  { intros Hin. rewrite Forall_forall in Hs. apply (Hs _ Hin). left. }
  rewrite sub_no_token by done. apply IH; [done|].
  eapply Forall_impl; [done|]. intros w Hw Hin. apply Hw. by right.
Qed.

(** *** What the passes keep *)

Lemma Forall_sub_from (P : ascii → Prop) (m : matcher) r prev k s :
  Forall P s → Forall P r → Forall P (sub_from m r prev k s).
Proof.
  intros Hs Hr. revert prev k.
  induction Hs as [|c s Hc Hs IH]; intros prev k; simpl; [done|].
  destruct k as [|k]; [|apply IH].
  destruct (m prev (c :: s)) as [[|k]|].
  - constructor; [done | apply IH].
  - apply Forall_app. split; [done | apply IH].
  - constructor; [done | apply IH].
Qed.

Lemma Forall_remove_tags (P : ascii → Prop) tags s :
  Forall P s → P " "%char → Forall P (Merge.remove_tags tags s).
Proof.
  intros Hs Hb. unfold Merge.remove_tags. revert s Hs.
  induction tags as [|t tags IH]; intros s Hs; simpl; [done|].
  apply IH. apply Forall_sub_from; [done | by constructor].
Qed.

Lemma Forall_blank (P : ascii → Prop) cls s :
  Forall P s → P " "%char → Forall P (blank_class cls s).
Proof.
  intros Hs Hb. unfold blank_class. apply Forall_fmap.
  eapply Forall_impl; [done|]. intros c Hc. simpl. by destruct (cls c).
Qed.

Lemma Forall_collapse (P : ascii → Prop) b s :
  Forall P s → P " "%char → Forall P (collapse_from b s).
Proof.
  intros Hs Hb. revert b. induction Hs as [|c s Hc Hs IH]; intros b; simpl; [done|].
  destruct (is_space c); [destruct b|]; try constructor; auto.
Qed.

Lemma Forall_lstrip (P : ascii → Prop) s : Forall P s → Forall P (lstrip s).
Proof.
  induction 1 as [|c s Hc Hs IH]; simpl; [done|].
  destruct (is_space c); [done | by constructor].
Qed.

Lemma rstrip_cons c s :
  rstrip (c :: s)
  = if bool_decide (rstrip s = []) && is_space c then [] else c :: rstrip s.
Proof. simpl. destruct (rstrip s); [by destruct (is_space c) | done]. Qed.

Lemma Forall_rstrip (P : ascii → Prop) s : Forall P s → Forall P (rstrip s).
Proof.
  induction 1 as [|c s Hc Hs IH]; [done|].
  rewrite rstrip_cons. destruct (_ && _); [done | by constructor].
Qed.

Lemma Forall_strip (P : ascii → Prop) s : Forall P s → Forall P (strip s).
Proof. intros Hs. by apply Forall_rstrip, Forall_lstrip. Qed.

(** *** [lower] *)

Lemma lower_lowered s : Forall (λ c, lower_char c = c) (lower s).
Proof.
  unfold lower. apply Forall_fmap, Forall_true. intros c. simpl.
  apply lower_char_idem.
Qed.

Lemma lower_fixed s : Forall (λ c, lower_char c = c) s → lower s = s.
Proof.
  unfold lower. induction 1 as [|c s Hc Hs IH]; [done|].
  csimpl. by rewrite Hc, IH.
Qed.

Lemma lower_idem s : lower (lower s) = lower s.
Proof. apply lower_fixed, lower_lowered. Qed.

Lemma lower_lstrip s : lstrip (lower s) = lower (lstrip s).
Proof.
  unfold lower. induction s as [|c s IH]; [done|].
  csimpl. rewrite lower_char_space. by destruct (is_space c).
Qed.

Lemma lower_rstrip s : rstrip (lower s) = lower (rstrip s).
Proof.
  unfold lower. induction s as [|c s IH]; [done|].
  cbn [map]. rewrite !rstrip_cons, IH, lower_char_space.
  destruct (rstrip s) as [|a r]; simpl; by destruct (is_space c).
Qed.

Lemma lower_strip s : strip (lower s) = lower (strip s).
Proof. unfold strip. by rewrite lower_lstrip, lower_rstrip. Qed.

(** *** [strip] *)

Lemma lstrip_head s : nospace_head (lstrip s).
Proof.
  induction s as [|c s IH]; simpl; [done|].
  by destruct (is_space c) eqn:Hc.
Qed.

Lemma lstrip_fixed s : nospace_head s → lstrip s = s.
Proof. destruct s as [|c s]; simpl; [done|]. by intros ->. Qed.

Lemma rstrip_head s : nospace_head s → nospace_head (rstrip s).
Proof.
  destruct s as [|c s]; [done|]. intros Hc.
  change (is_space c = false) in Hc.
  rewrite rstrip_cons, Hc, andb_false_r. done.
Qed.

Lemma rstrip_idem s : rstrip (rstrip s) = rstrip s.
Proof.
  induction s as [|c s IH]; [done|].
  rewrite rstrip_cons.
  destruct (bool_decide (rstrip s = [])) eqn:He;
    destruct (is_space c) eqn:Hc; cbn [andb]; [done|..];
    by rewrite rstrip_cons, IH, He, ?Hc.
Qed.

Lemma rstrip_fixed s : Forall (λ c, is_space c = false) s → rstrip s = s.
Proof.
  induction 1 as [|c s Hc Hs IH]; [done|].
  by rewrite rstrip_cons, Hc, andb_false_r, IH.
Qed.

Lemma strip_idem s : strip (strip s) = strip s.
Proof.
  unfold strip.
  rewrite (lstrip_fixed (rstrip (lstrip s)))
    by apply rstrip_head, lstrip_head.
  apply rstrip_idem.
Qed.

(** *** [re.sub(r"\s+", " ", _)] *)

Lemma collapse_collapsed b s : spaces_collapsed b (collapse_from b s) = true.
Proof.
  revert b. induction s as [|c s IH]; intros b; simpl; [done|].
  destruct (is_space c) eqn:Hc.
  - destruct b; [apply IH|]. simpl. by rewrite IH.
  - simpl. by rewrite Hc.
Qed.

Lemma collapse_fixed b s : spaces_collapsed b s = true → collapse_from b s = s.
Proof.
  revert b. induction s as [|c s IH]; intros b; simpl; [done|].
  destruct (is_space c).
  - intros [[Hb Hc%bool_decide_eq_true_1]%andb_true_iff Hs]%andb_true_iff.
    destruct b; [done|]. subst. by rewrite IH.
  - intros Hs. by rewrite IH.
Qed.

Lemma collapsed_lstrip b s :
  spaces_collapsed b s = true → spaces_collapsed false (lstrip s) = true.
Proof.
  revert b. induction s as [|c s IH]; intros b; simpl; [done|].
  destruct (is_space c) eqn:Hc.
  - intros [_ Hs]%andb_true_iff. by eapply IH.
  - simpl. by rewrite Hc.
Qed.

Lemma collapsed_rstrip b s :
  spaces_collapsed b s = true → spaces_collapsed b (rstrip s) = true.
Proof.
  revert b. induction s as [|c s IH]; intros b; [done|].
  rewrite rstrip_cons. simpl spaces_collapsed at 1.
  destruct (is_space c) eqn:Hc.
  - intros [Hbc Hs]%andb_true_iff. rewrite andb_true_r.
    destruct (bool_decide (rstrip s = [])); [done|].
    simpl. rewrite Hc, Hbc. by apply IH.
  - intros Hs. rewrite andb_false_r. simpl. rewrite Hc. by apply IH.
Qed.

(** *** Words through the later passes *)

Lemma pieces_cons_inv s : ∃ q ps, pieces s = q :: ps.
Proof.
  destruct s as [|c s]; simpl; [eauto|].
  destruct (is_word c); [destruct (pieces s)|]; eauto.
Qed.

(** The first piece and the words of [c :: s] are determined by [c], the
    first piece of [s] and the words of [s]. *)
Lemma pieces_cons_summary c s s' :
  hd [] (pieces s) = hd [] (pieces s') → word_runs s = word_runs s' →
  hd [] (pieces (c :: s)) = hd [] (pieces (c :: s'))
  ∧ word_runs (c :: s) = word_runs (c :: s').
Proof.
  destruct (pieces_cons_inv s) as (q & ps & Hs).
  destruct (pieces_cons_inv s') as (q' & ps' & Hs').
  unfold word_runs. simpl. rewrite Hs, Hs'. simpl. intros <- Hruns.
  destruct (is_word c); simpl.
  - split; [done|]. rewrite !filter_cons_True by done. f_equal.
    destruct (decide (q = [])) as [->|Hq].
    + exact Hruns.
    + rewrite !filter_cons_True in Hruns by done. by inversion Hruns.
  - done.
Qed.

Lemma pieces_blank s :
  "_"%char ∉ s → pieces (blank_class Merge.is_punct s) = pieces s.
Proof.
  unfold blank_class. induction s as [|c s IH]; [done|].
  intros [Hc Hs]%not_elem_of_cons. simpl. rewrite (IH Hs).
  destruct (Merge.is_punct c) eqn:Hp; [|done].
  destruct (is_word c) eqn:Hw; [|done].
  destruct Hc. symmetry. by apply punct_word_underscore.
Qed.

Lemma word_runs_blank s :
  "_"%char ∉ s → word_runs (blank_class Merge.is_punct s) = word_runs s.
Proof. intros Hs. unfold word_runs. by rewrite pieces_blank. Qed.

Lemma word_runs_collapse_from s b :
  word_runs (collapse_from b s) = word_runs s
  ∧ (b = false → hd [] (pieces (collapse_from b s)) = hd [] (pieces s)).
Proof.
  revert b. induction s as [|c s IH]; intros b; [done|].
  simpl collapse_from. destruct (is_space c) eqn:Hc.
  - apply space_not_word in Hc as Hw.
    rewrite (word_runs_nonword c s Hw).
    destruct b.
    + split; [apply IH | done].
    + rewrite word_runs_nonword by done.
      split; [apply IH|]. intros _. simpl. by rewrite Hw.
  - destruct (IH false) as [IH1 IH2].
    destruct (pieces_cons_summary c _ _ (IH2 eq_refl) IH1) as [? ?].
    auto.
Qed.

Lemma word_runs_collapse s : word_runs (collapse_spaces s) = word_runs s.
Proof. apply word_runs_collapse_from. Qed.

Lemma word_runs_lstrip s : word_runs (lstrip s) = word_runs s.
Proof.
  induction s as [|c s IH]; [done|]. simpl.
  destruct (is_space c) eqn:Hc; [|done].
  by rewrite word_runs_nonword by by apply space_not_word.
Qed.

Lemma word_runs_rstrip_summary s :
  hd [] (pieces (rstrip s)) = hd [] (pieces s)
  ∧ word_runs (rstrip s) = word_runs s.
Proof.
  induction s as [|c s [IH1 IH2]]; [done|].
  rewrite rstrip_cons.
  destruct (bool_decide (rstrip s = []) && is_space c) eqn:Hb.
  - apply andb_true_iff in Hb as [He%bool_decide_eq_true_1 Hc].
    apply space_not_word in Hc as Hw. rewrite He in IH1, IH2.
    rewrite word_runs_nonword by done. simpl. by rewrite Hw.
  - by apply pieces_cons_summary.
Qed.

Lemma word_runs_strip s : word_runs (strip s) = word_runs s.
Proof.
  unfold strip.
  by rewrite (proj2 (word_runs_rstrip_summary _)), word_runs_lstrip.
Qed.

End ReFacts.

Section NormalizerFacts.
Import Py Re.

Implicit Types (s x y : chars).

(** *** The loose normalizer *)

Lemma loose_unfold s :
  Merge.normalize_chars s
  = strip (collapse_spaces (blank_class Merge.is_punct
      (Merge.remove_tags Merge.QUALITY_TAGS
         (Merge.remove_tags Merge.PROVIDER_TAGS (lower s))))).
Proof. destruct s; [vm_compute; reflexivity | reflexivity]. Qed.

Lemma provider_tokens : Forall word_token (of_string <$> Merge.PROVIDER_TAGS).
Proof. compute_done. Qed.

Lemma quality_tokens : Forall word_token (of_string <$> Merge.QUALITY_TAGS).
Proof. compute_done. Qed.

Lemma blank_no_punct s :
  Forall (λ c, Merge.is_punct c = false) (blank_class Merge.is_punct s).
Proof.
  unfold blank_class. apply Forall_fmap, Forall_true. intros c. simpl.
  by destruct (Merge.is_punct c) eqn:Hc.
Qed.

Lemma blank_fixed s :
  Forall (λ c, Merge.is_punct c = false) s → blank_class Merge.is_punct s = s.
Proof.
  unfold blank_class. induction 1 as [|c s Hc Hs IH]; [done|].
  simpl. by rewrite Hc, IH.
Qed.

(** A text in the form the loose normalizer produces is left as it is. *)
Lemma loose_fixed y :
  Forall (λ c, lower_char c = c) y →
  Forall (λ w, w ∉ of_string <$> Merge.PROVIDER_TAGS) (word_runs y) →
  Forall (λ w, w ∉ of_string <$> Merge.QUALITY_TAGS) (word_runs y) →
  Forall (λ c, Merge.is_punct c = false) y →
  spaces_collapsed false y = true →
  strip y = y →
  Merge.normalize_chars y = y.
Proof.
  intros Hlow Hprov Hqual Hpunct Hcoll Hstrip.
  rewrite loose_unfold, lower_fixed by done.
  rewrite (remove_tags_id _ y provider_tokens Hprov).
  rewrite (remove_tags_id _ y quality_tokens Hqual).
  rewrite blank_fixed by done.
  unfold collapse_spaces. by rewrite collapse_fixed.
Qed.

(** The words of the normalized text are the words of the lower-cased
    input that are not tags, when the input has no underscore. *)
Lemma loose_word_runs x :
  "_"%char ∉ x →
  word_runs (Merge.normalize_chars x)
  = filter (λ w, w ∉ of_string <$> Merge.QUALITY_TAGS)
      (filter (λ w, w ∉ of_string <$> Merge.PROVIDER_TAGS)
         (word_runs (lower x))).
Proof.
  intros Hx. rewrite loose_unfold, word_runs_strip, word_runs_collapse.
  rewrite word_runs_blank.
  - rewrite (word_runs_remove_tags _ _ quality_tokens).
    by rewrite (word_runs_remove_tags _ _ provider_tokens).
  - assert (Forall (λ c, c ≠ "_"%char) (lower x)) as Hl.
    { unfold lower. apply Forall_fmap, Forall_forall. intros c Hc. simpl.
      intros Heq%lower_char_underscore. by subst. }
    assert (Forall (λ c, c ≠ "_"%char)
              (Merge.remove_tags Merge.QUALITY_TAGS
                 (Merge.remove_tags Merge.PROVIDER_TAGS (lower x)))) as Hr.
    { do 2 (apply Forall_remove_tags; [|done]). done. }
    rewrite Forall_forall in Hr. intros Hin. by apply (Hr _ Hin).
Qed.

Lemma loose_idempotent_chars x :
  "_"%char ∉ x →
  Merge.normalize_chars (Merge.normalize_chars x) = Merge.normalize_chars x.
Proof.
  intros Hx. apply loose_fixed.
  - rewrite loose_unfold.
    apply Forall_strip, Forall_collapse; [|done].
    apply Forall_blank; [|done].
    do 2 (apply Forall_remove_tags; [|done]). apply lower_lowered.
  - rewrite (loose_word_runs x Hx), list_filter_filter.
    apply Forall_forall. intros w [[_ ?] _]%list_elem_of_filter. done.
  - rewrite (loose_word_runs x Hx).
    apply Forall_forall. intros w [? _]%list_elem_of_filter. done.
  - rewrite loose_unfold.
    apply Forall_strip, Forall_collapse; [|done]. apply blank_no_punct.
  - rewrite loose_unfold. unfold strip.
    apply collapsed_rstrip, (collapsed_lstrip false), collapse_collapsed.
  - rewrite loose_unfold. apply strip_idem.
Qed.

Lemma loose_lower x :
  Merge.normalize_chars (lower x) = Merge.normalize_chars x.
Proof. by rewrite !loose_unfold, lower_idem. Qed.

(** *** The strict normalizer *)

Lemma strict_output x :
  Forall (λ c, is_lower_alnum c = true) (Enrich.normalize_chars x).
Proof.
  unfold Enrich.normalize_chars, keep_class.
  apply Forall_forall. by intros c [? _]%list_elem_of_filter.
Qed.

Lemma sub_from_cons (m : matcher) r prev c s :
  sub_from m r prev 0 (c :: s)
  = match m prev (c :: s) with
    | Some (S k) => r ++ sub_from m r (Some c) k s
    | _ => c :: sub_from m r (Some c) 0 s
    end.
Proof. done. Qed.

Lemma sub_plus_one_fixed r prev s :
  Forall (λ c, c ≠ "+"%char) s →
  sub_from (literal_then_boundary (of_string "+1")) r prev 0 s = s.
Proof.
  intros Hs. revert prev. induction Hs as [|c s Hc Hs IH]; intros prev; [done|].
  rewrite sub_from_cons.
  assert (literal_then_boundary (of_string "+1") prev (c :: s) = None) as ->.
  { unfold literal_then_boundary. change (of_string "+1") with ["+"; "1"]%char.
    rewrite startswith_cons, bool_decide_eq_false_2; [done|]. congruence. }
  by rewrite IH.
Qed.

Lemma hd_token : word_token (of_string "hd").
Proof. compute_done. Qed.

(** A text of lower-case letters and digits other than "hd" is left as it
    is. *)
Lemma strict_fixed y :
  Forall (λ c, is_lower_alnum c = true) y → y ≠ of_string "hd" →
  Enrich.normalize_chars y = y.
Proof.
  intros Hy Hhd. unfold Enrich.normalize_chars.
  assert (Forall (λ c, is_word c = true ∧ is_space c = false
                       ∧ lower_char c = c ∧ c ≠ "+"%char) y) as Hfacts.
  { eapply Forall_impl; [done|]. apply lower_alnum_facts. }
  assert (strip y = y) as ->.
  { unfold strip. rewrite lstrip_fixed.
    - apply rstrip_fixed. eapply Forall_impl; [done|].
      by intros c (_ & ? & _).
    - destruct Hfacts as [|c y (_ & ? & _) _]; done. }
  rewrite lower_fixed
    by (eapply Forall_impl; [done|]; by intros c (_ & _ & ? & _)).
  assert (sub (whole_word (of_string "hd")) [] y = y) as ->.
  { apply sub_no_token; [apply hd_token|].
    destruct y as [|c y]; [apply not_elem_of_nil|].
    rewrite <- (app_nil_r (c :: y)), word_runs_run; [|done| |done].
    - apply not_elem_of_cons. split; [congruence | apply not_elem_of_nil].
    - eapply Forall_impl; [done|]. by intros c' (? & _). }
  unfold sub. rewrite sub_plus_one_fixed
    by (eapply Forall_impl; [done|]; by intros c (_ & _ & _ & ?)).
  by apply filter_all.
Qed.

Lemma strict_lower x :
  Enrich.normalize_chars (lower x) = Enrich.normalize_chars x.
Proof.
  unfold Enrich.normalize_chars. by rewrite lower_strip, lower_idem.
Qed.

(** *** Strings *)

Lemma on_string_twice (f : chars → chars) (x : string) :
  on_string f (on_string f x) = on_string (λ s, f (f s)) x.
Proof. unfold on_string. by rewrite of_to_string. Qed.

Lemma on_string_hd (f : chars → chars) (x : string) :
  on_string f x ≠ "hd" → f (of_string x) ≠ of_string "hd".
Proof.
  unfold on_string. intros Hne Heq. apply Hne. by rewrite Heq.
Qed.

Lemma loose_idempotent (x : string) :
  ¬ has_underscore x →
  Merge.normalize_name (Merge.normalize_name x) = Merge.normalize_name x.
Proof.
  intros Hx. unfold Merge.normalize_name. rewrite on_string_twice.
  unfold on_string. f_equal. by apply loose_idempotent_chars.
Qed.

Lemma strict_idempotent (x : string) :
  Enrich.normalize_name x ≠ "hd" →
  Enrich.normalize_name (Enrich.normalize_name x) = Enrich.normalize_name x.
Proof.
  intros Hx%on_string_hd. unfold Enrich.normalize_name.
  rewrite on_string_twice. unfold on_string. f_equal.
  apply strict_fixed; [apply strict_output | done].
Qed.

Lemma normalize_lower (x : string) :
  Merge.normalize_name (str_lower x) = Merge.normalize_name x
  ∧ Enrich.normalize_name (str_lower x) = Enrich.normalize_name x.
Proof.
  unfold Merge.normalize_name, Enrich.normalize_name, str_lower, on_string.
  by rewrite of_to_string, loose_lower, strict_lower.
Qed.

(** *** ASCII text stays ASCII *)

Lemma char_lower_ascii c :
  implb (code c <? 128) (code (lower_char c) <? 128) = true.
Proof. revert c. intros [[] [] [] [] [] [] [] []]; vm_compute; reflexivity. Qed.

Lemma char_alnum_ascii c : implb (is_lower_alnum c) (code c <? 128) = true.
Proof. revert c. intros [[] [] [] [] [] [] [] []]; vm_compute; reflexivity. Qed.

Lemma lower_ascii s :
  Forall (λ c, code c < 128) s → Forall (λ c, code c < 128) (lower s).
Proof.
  intros Hs. unfold lower. apply Forall_fmap. eapply Forall_impl; [done|].
  intros c Hc. simpl. pose proof (char_lower_ascii c) as Hl.
  rewrite (proj2 (Nat.ltb_lt _ _) Hc) in Hl. by apply Nat.ltb_lt.
Qed.

Lemma loose_ascii (x : string) :
  ascii_only x → ascii_only (Merge.normalize_name x).
Proof.
  unfold ascii_only, Merge.normalize_name, on_string. intros Hx.
  rewrite of_to_string, loose_unfold.
  assert (code " " < 128) as Hb by (vm_compute; lia).
  apply Forall_strip, Forall_collapse; [|done].
  apply Forall_blank; [|done].
  do 2 (apply Forall_remove_tags; [|done]).
  by apply lower_ascii.
Qed.

Lemma strict_ascii (x : string) : ascii_only (Enrich.normalize_name x).
Proof.
  unfold ascii_only, Enrich.normalize_name, on_string. rewrite of_to_string.
  eapply Forall_impl; [apply strict_output|].
  intros c Hc. simpl in Hc. pose proof (char_alnum_ascii c) as Ha.
  rewrite Hc in Ha. by apply Nat.ltb_lt.
Qed.

(** C6, as the code has it, for ASCII names.  Both normalizers are
    functions of their input and ignore case: ASCII inputs that agree after
    lower-casing have the same normal form, so "ESPN HD" and "espn" do.
    The strict normalizer is idempotent on every ASCII input whose normal
    form is not "hd", and only there: the normal form "hd" is normalized to
    the empty string.  The loose normalizer is idempotent on every ASCII
    input without an underscore.  The normal form of an ASCII input is
    ASCII, so the second pass is again on ASCII text. *)
Theorem normalizers_idempotent_with_exceptions :
  (∀ x : string, ascii_only x → Enrich.normalize_name x ≠ "hd" →
     Enrich.normalize_name (Enrich.normalize_name x) = Enrich.normalize_name x)
  ∧ (∀ x : string, ascii_only x → Enrich.normalize_name x = "hd" →
     Enrich.normalize_name (Enrich.normalize_name x) = "")
  ∧ (∀ x : string, ascii_only x → ¬ has_underscore x →
     Merge.normalize_name (Merge.normalize_name x) = Merge.normalize_name x)
  ∧ (∀ x y : string, ascii_only x → ascii_only y →
     str_lower x = str_lower y →
     Enrich.normalize_name x = Enrich.normalize_name y
     ∧ Merge.normalize_name x = Merge.normalize_name y)
  ∧ (∀ x : string, ascii_only x →
     ascii_only (Enrich.normalize_name x)
     ∧ ascii_only (Merge.normalize_name x))
  ∧ Enrich.normalize_name "ESPN HD" = Enrich.normalize_name "espn"
  ∧ Merge.normalize_name "ESPN HD" = Merge.normalize_name "espn".
Proof.
  split_and!.
  - intros x _. apply strict_idempotent.
  - intros x _ ->. compute_done.
  - intros x _. apply loose_idempotent.
  - intros x y _ _ Hxy.
    destruct (normalize_lower x) as [Hm Hs], (normalize_lower y) as [Hm' Hs'].
    rewrite <- Hs, <- Hm, Hxy. auto.
  - intros x Hx. split; [apply strict_ascii | by apply loose_ascii].
  - compute_done.
  - compute_done.
Qed.

Lemma normalizers_idempotent_with_exceptions_witness :
  Enrich.normalize_name (Enrich.normalize_name "Sky Sports +1 HD")
  = Enrich.normalize_name "Sky Sports +1 HD"
  ∧ Merge.normalize_name (Merge.normalize_name "Sky Sports (UK) - 4K")
    = Merge.normalize_name "Sky Sports (UK) - 4K"
  ∧ Enrich.normalize_name "CNN Intl" = Enrich.normalize_name "cnn intl"
  ∧ Merge.normalize_name "CNN Intl" = Merge.normalize_name "cnn intl".
Proof.
  destruct normalizers_idempotent_with_exceptions
    as (Hstrict & _ & Hloose & Hcase & _).
  split_and!.
  - apply Hstrict; compute_done.
  - apply Hloose; compute_done.
  - apply Hcase; compute_done.
  - apply Hcase; compute_done.
Defined.

(** Idempotence fails for both normalizers: the loose one turns the
    underscore into a blank only after the quality tags were looked for,
    the strict one glues "h d" into "hd" after "hd" was looked for. *)
Lemma normalizers_not_idempotent :
  Merge.normalize_name (Merge.normalize_name "espn_hd")
    ≠ Merge.normalize_name "espn_hd"
  ∧ Enrich.normalize_name (Enrich.normalize_name "h d")
    ≠ Enrich.normalize_name "h d"
  ∧ Merge.normalize_name "espn_hd" = "espn hd"
  ∧ Merge.normalize_name "espn hd" = "espn"
  ∧ Enrich.normalize_name "h d" = "hd"
  ∧ Enrich.normalize_name "hd" = "".
Proof.
  assert (Merge.normalize_name "espn_hd" = "espn hd") as Hl1
    by (vm_compute; reflexivity).
  assert (Merge.normalize_name "espn hd" = "espn") as Hl2
    by (vm_compute; reflexivity).
  assert (Enrich.normalize_name "h d" = "hd") as Hs1
    by (vm_compute; reflexivity).
  assert (Enrich.normalize_name "hd" = "") as Hs2
    by (vm_compute; reflexivity).
  split_and!; [|..|done|done|done|done].
  - rewrite Hl1, Hl2. discriminate.
  - rewrite Hs1, Hs2. discriminate.
Qed.

(** C7, as the code has it.  The loose normalizer does not refer to
    [TIMESHIFT_TAGS]: the words east, west and timeshift stay, and of +1
    and +2 only the sign goes (it is punctuation).  The strict normalizer
    removes the token +1 and nothing else of the list. *)
Theorem timeshift_tokens_not_removed :
  Merge.normalize_name "CNN East" = "cnn east"
  ∧ Merge.normalize_name "CNN West" = "cnn west"
  ∧ Merge.normalize_name "CNN Timeshift" = "cnn timeshift"
  ∧ Merge.normalize_name "ITV +1" = "itv 1"
  ∧ Merge.normalize_name "ITV +2" = "itv 2"
  ∧ Merge.normalize_name "CNN" = "cnn"
  ∧ Merge.normalize_name "ITV" = "itv"
  ∧ Enrich.normalize_name "CNN East" = "cnneast"
  ∧ Enrich.normalize_name "ITV +2" = "itv2"
  ∧ Enrich.normalize_name "ITV +1" = "itv"
  ∧ Enrich.normalize_name "CNN" = "cnn"
  ∧ Enrich.normalize_name "ITV" = "itv".
Proof. split_and!; compute_done. Qed.

End NormalizerFacts.

(** * Further properties *)

(** ** The merge engine: accounting and order *)

Section MergeAccounting.
Import Merge.

Implicit Types (c prev v w : candidate) (cs seen : list candidate).
Implicit Types (t : table) (st : state) (k : string).

Lemma foldl_snoc {A B} (f : A → B → A) (a : A) (l : list B) (x : B) :
  foldl f a (l ++ [x]) = f (foldl f a l) x.
Proof. by rewrite foldl_app. Qed.

Lemma run_snoc cs c : run (cs ++ [c]) = merge_step (run cs) c.
Proof. apply foldl_snoc. Qed.

Lemma store_key_fresh k v t :
  lookup_key k t = None → store_key k v t = t ++ [(k, v)].
Proof.
  induction t as [|[k' v'] t IH]; simpl; [done|].
  case_decide; [done|]. intros Hnone. by rewrite IH.
Qed.

Lemma store_key_length k v t :
  length (store_key k v t) = length t + (1 - present k t).
Proof.
  unfold present. induction t as [|[k' v'] t IH]; simpl; [done|].
  case_decide; simpl; [lia|]. rewrite IH. done.
Qed.

Lemma merge_step_total st c :
  length (merged (merge_step st c)) + length (dupes (merge_step st c))
  + length (unmatched (merge_step st c))
  = S (length (merged st) + length (dupes st) + length (unmatched st)).
Proof.
  destruct (decide (usable c)) as [Hc|Hc].
  - destruct (lookup_key (identity_key c) (merged st)) as [prev|] eqn:Hlook.
    + rewrite (merge_step_collide _ _ _ Hc Hlook). simpl.
      rewrite length_app. simpl.
      destruct (new_wins prev c); [|lia].
      rewrite store_key_length. unfold present. rewrite Hlook. lia.
    + rewrite (merge_step_fresh _ _ Hc Hlook). simpl.
      rewrite store_key_length. unfold present. rewrite Hlook. lia.
  - rewrite (merge_step_unusable _ _ Hc). simpl. rewrite length_app. simpl. lia.
Qed.

(** X1. Nothing is lost and nothing is counted twice: the winners, the
    collision records and the unmatched rows together are as many as the
    candidates. *)
Theorem merge_accounts_for_every_candidate cs :
  length (merge_candidates cs).1.1 + length (merge_candidates cs).1.2
  + length (merge_candidates cs).2
  = length cs.
Proof.
  simpl. rewrite length_fmap.
  induction cs as [|c cs IH] using rev_ind; [done|].
  rewrite run_snoc, merge_step_total, IH, length_app. simpl. lia.
Qed.

(** *** One winner per key *)

Lemma table_entry_lookup t k v :
  NoDup t.*1 → (k, v) ∈ t → lookup_key k t = Some v.
Proof.
  induction t as [|[k' v'] t IH]; csimpl; [by intros _ ?%elem_of_nil|].
  intros [Hfresh Hnd]%NoDup_cons [[= -> ->]|Hin]%elem_of_cons.
  - by rewrite decide_True.
  - rewrite decide_False; [by apply IH|].
    intros ->. apply Hfresh. apply list_elem_of_fmap. by exists (k', v).
Qed.

Lemma table_ok_entries seen t :
  table_ok seen t → t = (λ v, (identity_key v, v)) <$> t.*2.
Proof.
  intros [Hnd Hok].
  assert (∀ k v, (k, v) ∈ t → identity_key v = k) as Hent.
  { intros k v Hin. by destruct (Hok k v (table_entry_lookup t k v Hnd Hin)). }
  clear Hnd Hok. induction t as [|[k v] t IH]; [done|].
  csimpl. rewrite (Hent k v) by left. f_equal.
  apply IH. intros k' v' Hin. apply Hent. by right.
Qed.

Lemma table_ok_keys seen t :
  table_ok seen t → identity_key <$> t.*2 = t.*1.
Proof.
  intros Hok. rewrite (table_ok_entries seen t Hok) at 2.
  generalize (t.*2). intros l. induction l as [|v l IH]; [done|].
  csimpl. by rewrite IH.
Qed.

(** X2. Each identity key has exactly one survivor: the winners have
    pairwise distinct identity keys, each winner is a usable candidate of
    the input, and every usable candidate has a winner with its key. *)
Theorem one_winner_per_key cs :
  NoDup (identity_key <$> (merge_candidates cs).1.1)
  ∧ (∀ w, w ∈ (merge_candidates cs).1.1 → usable w ∧ w ∈ cs)
  ∧ (∀ c, c ∈ cs → usable c →
       ∃ w, w ∈ (merge_candidates cs).1.1 ∧ identity_key w = identity_key c
            ∧ ∀ w', w' ∈ (merge_candidates cs).1.1 →
                    identity_key w' = identity_key c → w' = w).
Proof.
  pose proof (run_table_ok cs) as Hok. simpl.
  pose proof (table_ok_keys cs _ Hok) as Hkeys.
  destruct Hok as [Hnd Hok].
  assert (∀ w, w ∈ (merged (run cs)).*2 →
               lookup_key (identity_key w) (merged (run cs)) = Some w) as Hval.
  { intros w (k & _ & Hk)%elem_lookup_key. specialize (Hk Hnd).
    by destruct (Hok _ _ Hk) as (<- & _). }
  split_and!.
  - by rewrite Hkeys.
  - intros w Hw%Hval. by destruct (Hok _ _ Hw) as (_ & ? & ?).
  - intros c Hin Hc.
    destruct (foldl_files cs (State [] [] []) c Hin Hc) as [w Hw].
    fold (run cs) in Hw. exists w.
    destruct (Hok _ _ Hw) as (Hkey & _). split_and!; [|done|].
    + by eapply lookup_key_elem.
    + intros w' Hw' Hkey'. apply Hval in Hw'. rewrite Hkey' in Hw'. congruence.
Qed.

Lemma one_winner_per_key_witness :
  let a := Candidate "" "" "CNN" "custom.channels.xml" in
  let b := Candidate "provider-a" "" "CNN HD" "Draft-Keep.csv" in
  let c := Candidate "" "" "BBC One" "matched_channels.csv" in
  ∃ w, w ∈ (merge_candidates [a; b; c]).1.1
       ∧ identity_key w = identity_key b ∧ usable w.
Proof.
  intros a b c.
  destruct (one_winner_per_key [a; b; c]) as (_ & Hin & Hex).
  destruct (Hex b) as (w & Hw & Hkey & _); [compute_done..|].
  exists w. split_and!; [done..|]. by apply Hin.
Defined.

(** *** First-seen order *)

Lemma nub_first_elem `{EqDecision A} (l : list A) (x : A) :
  x ∈ nub_first l ↔ x ∈ l.
Proof.
  induction l as [|a l IH]; [done|]. simpl.
  rewrite !elem_of_cons, list_elem_of_filter, IH.
  destruct (decide (x = a)) as [->|Hne]; [tauto|].
  split; [intros [?|[_ ?]]; auto | intros [?|?]; [done | auto]].
Qed.

Lemma nub_first_snoc `{EqDecision A} (l : list A) (x : A) :
  nub_first (l ++ [x])
  = if decide (x ∈ l) then nub_first l else nub_first l ++ [x].
Proof.
  induction l as [|a l IH]; [done|].
  rewrite <- app_comm_cons. simpl. rewrite IH.
  destruct (decide (x ∈ l)) as [Hin|Hin].
  - rewrite decide_True; [done | by right].
  - rewrite filter_app. destruct (decide (x = a)) as [->|Hne].
    + rewrite decide_True by left.
      rewrite filter_cons_False by (intros ?; done). by rewrite app_nil_r.
    + rewrite decide_False by (rewrite not_elem_of_cons; done).
      by rewrite filter_cons_True.
Qed.

Lemma nub_first_NoDup `{EqDecision A} (l : list A) : NoDup (nub_first l).
Proof.
  induction l as [|a l IH]; simpl; [constructor|].
  apply NoDup_cons. split.
  - rewrite list_elem_of_filter. tauto.
  - by apply NoDup_filter.
Qed.

Lemma merged_keys_snoc cs c :
  (merged (run (cs ++ [c]))).*1
  = if decide (usable c) then
      if decide (identity_key c ∈ (merged (run cs)).*1)
      then (merged (run cs)).*1
      else (merged (run cs)).*1 ++ [identity_key c]
    else (merged (run cs)).*1.
Proof.
  rewrite run_snoc. destruct (decide (usable c)) as [Hc|Hc].
  - destruct (lookup_key (identity_key c) (merged (run cs))) as [prev|] eqn:Hlook.
    + rewrite (merge_step_collide _ _ _ Hc Hlook). simpl.
      rewrite decide_True.
      * destruct (new_wins prev c); [|done].
        apply store_keys_same. by rewrite Hlook.
      * destruct (decide (identity_key c ∈ (merged (run cs)).*1)); [done|].
        apply lookup_key_None in n. congruence.
    + rewrite (merge_step_fresh _ _ Hc Hlook). simpl.
      rewrite decide_False by by apply lookup_key_None.
      by apply store_keys_fresh.
  - by rewrite (merge_step_unusable _ _ Hc).
Qed.

Lemma merged_keys cs :
  (merged (run cs)).*1 = nub_first (identity_key <$> filter usable cs).
Proof.
  induction cs as [|c cs IH] using rev_ind; [done|].
  rewrite merged_keys_snoc, filter_app.
  destruct (decide (usable c)) as [Hc|Hc].
  - rewrite filter_cons_True by done. simpl.
    rewrite fmap_app. simpl. rewrite nub_first_snoc, <- IH.
    destruct (decide (identity_key c ∈ (merged (run cs)).*1)) as [Hin|Hin].
    + rewrite decide_True; [done|]. by rewrite <- nub_first_elem, <- IH.
    + rewrite decide_False; [done|]. by rewrite <- nub_first_elem, <- IH.
  - rewrite filter_cons_False by done. simpl. by rewrite app_nil_r.
Qed.

(** X3. The winners come in first-seen order of their keys: the identity
    keys of the winners list are the identity keys of the usable
    candidates, in input order, each kept where it first occurs. *)
Theorem winners_in_first_seen_order cs :
  identity_key <$> (merge_candidates cs).1.1
  = nub_first (identity_key <$> filter usable cs).
Proof.
  simpl. rewrite (table_ok_keys cs _ (run_table_ok cs)). apply merged_keys.
Qed.

(** *** What the collision records say *)

Lemma foldl_dupes cs st :
  dropped_of <$> dupes (foldl merge_step st cs)
  = (dropped_of <$> dupes st)
    ++ (fields_of <$> later_members (merged st).*1 cs).
Proof.
  revert st. induction cs as [|c cs IH]; intros st; simpl.
  - by rewrite app_nil_r.
  - rewrite IH. destruct (decide (usable c)) as [Hc|Hc].
    + destruct (lookup_key (identity_key c) (merged st)) as [prev|] eqn:Hlook.
      * rewrite (merge_step_collide _ _ _ Hc Hlook). simpl.
        rewrite decide_True.
        -- rewrite fmap_app, <- app_assoc. simpl. f_equal. f_equal.
           destruct (new_wins prev c); [|done].
           rewrite store_keys_same; [done | by rewrite Hlook].
        -- destruct (decide (identity_key c ∈ (merged st).*1)); [done|].
           apply lookup_key_None in n. congruence.
      * rewrite (merge_step_fresh _ _ Hc Hlook). simpl.
        rewrite decide_False by by apply lookup_key_None.
        by rewrite store_keys_fresh.
    + by rewrite (merge_step_unusable _ _ Hc).
Qed.

(** X4. The collision records are, in order, one for each usable candidate
    that is not the first of its key, and each carries that candidate's
    key, name, source and id in [key] and the [dropped_*] fields, whether
    the candidate lost or won the tie-break. *)
Theorem collisions_name_later_members cs :
  dropped_of <$> (merge_candidates cs).1.2
  = fields_of <$> later_members [] cs.
Proof. simpl. unfold run. by rewrite foldl_dupes. Qed.

(** *** Merging again *)

Lemma run_distinct cs :
  Forall usable cs → NoDup (identity_key <$> cs) →
  run cs = State ((λ c, (identity_key c, c)) <$> cs) [] [].
Proof.
  induction cs as [|c cs IH] using rev_ind; intros Hus Hnd; [done|].
  apply Forall_app in Hus as [Hus Hc].
  assert (usable c) as Hc' by (by inversion Hc). clear Hc. rename Hc' into Hc.
  rewrite fmap_app in Hnd. apply NoDup_app in Hnd as (Hnd & Hfresh & _).
  rewrite run_snoc, (IH Hus Hnd).
  assert (lookup_key (identity_key c)
            ((λ c, (identity_key c, c)) <$> cs) = None) as Hlook.
  { apply lookup_key_None. rewrite <- list_fmap_compose.
    intros Hin. apply (Hfresh _ Hin). left. }
  rewrite (merge_step_fresh (State _ [] []) c Hc Hlook). simpl.
  rewrite store_key_fresh by done. by rewrite fmap_app.
Qed.

(** X5. Merging is idempotent on its result: the winners of a run, merged
    again, all win, in the same order, with no collision record and no
    unmatched row. *)
Theorem merge_of_winners_is_identity cs :
  merge_candidates (merge_candidates cs).1.1
  = ((merge_candidates cs).1.1, [], []).
Proof.
  pose proof (run_table_ok cs) as Hok. simpl.
  pose proof (table_ok_keys cs _ Hok) as Hkeys.
  set (ws := (merged (run cs)).*2) in *.
  assert (Forall usable ws) as Hus.
  { apply Forall_forall. intros w (k & _ & Hk)%elem_lookup_key.
    destruct Hok as [Hnd Hok]. by destruct (Hok _ _ (Hk Hnd)) as (_ & ? & _). }
  assert (NoDup (identity_key <$> ws)) as Hnd
    by (rewrite Hkeys; apply Hok).
  unfold merge_candidates. rewrite (run_distinct ws Hus Hnd). simpl.
  rewrite <- list_fmap_compose. by rewrite list_fmap_id.
Qed.

(** *** Who wins *)

Lemma run_lookup_absent cs k :
  (∀ x, x ∈ cs → usable x → identity_key x ≠ k) →
  lookup_key k (merged (run cs)) = None.
Proof.
  intros Hno. destruct (lookup_key k (merged (run cs))) as [v|] eqn:Hv; [|done].
  destruct (run_table_ok cs) as [_ Hok].
  destruct (Hok _ _ Hv) as (Hkey & Hus & Hin). by destruct (Hno v Hin Hus).
Qed.

(** X6. An entry of the curated list that carries an id and is the first
    candidate of its key is never displaced, whatever follows it in the
    candidate list. *)
Theorem curated_id_entry_is_kept a c b :
  usable c → xmltv_id c ≠ "" → source c = CUSTOM_SOURCE →
  (∀ x, x ∈ a → usable x → identity_key x ≠ identity_key c) →
  lookup_key (identity_key c) (merged (run (a ++ c :: b))) = Some c
  ∧ c ∈ (merge_candidates (a ++ c :: b)).1.1.
Proof.
  intros Hc Hid Hsrc Ha.
  assert (lookup_key (identity_key c) (merged (run (a ++ c :: b))) = Some c)
    as Hfin.
  { unfold run. rewrite foldl_app. simpl.
    apply foldl_keeps_id; [|done|by left].
    fold (run a). rewrite (merge_step_fresh _ _ Hc (run_lookup_absent a _ Ha)).
    simpl. apply lookup_store_eq. }
  split; [done|]. simpl. by eapply lookup_key_elem.
Qed.

Lemma curated_id_entry_is_kept_witness :
  let a := Candidate "" "" "BBC One" "custom.channels.xml" in
  let c := Candidate "sky" "CNN.us" "CNN" "custom.channels.xml" in
  let b := Candidate "provider-a" "CNN.us" "CNN International" "Draft-Keep.csv" in
  c ∈ (merge_candidates ([a] ++ c :: [b; b])).1.1.
Proof.
  intros a c b.
  apply (curated_id_entry_is_kept [a] c [b; b]); [compute_done..|].
  intros x ->%list_elem_of_singleton _. compute_done.
Defined.

Lemma first_such_snoc {A} (P : A → Prop) `{∀ x, Decision (P x)} (l : list A) x :
  EnrichIn.first_such P (l ++ [x])
  = match EnrichIn.first_such P l with
    | Some y => Some y
    | None => if decide (P x) then Some x else None
    end.
Proof.
  induction l as [|a l IH]; simpl; [done|].
  by destruct (decide (P a)).
Qed.

Lemma first_such_Some {A} (P : A → Prop) `{∀ x, Decision (P x)} (l : list A) x :
  EnrichIn.first_such P l = Some x → P x ∧ x ∈ l.
Proof.
  induction l as [|a l IH]; simpl; [done|].
  destruct (decide (P a)).
  - intros [= ->]. split; [done | left].
  - intros [? ?]%IH. split; [done | by right].
Qed.

Lemma first_such_None {A} (P : A → Prop) `{∀ x, Decision (P x)} (l : list A) :
  EnrichIn.first_such P l = None → ∀ x, x ∈ l → ¬ P x.
Proof.
  induction l as [|a l IH]; simpl; [by intros _ x ?%elem_of_nil|].
  destruct (decide (P a)); [done|].
  intros Hl x [->|Hx]%elem_of_cons; auto.
Qed.

Lemma custom_first_snoc cs c :
  custom_first (cs ++ [c]) →
  custom_first cs
  ∧ ∀ p, p ∈ cs → source p = CUSTOM_SOURCE ∨ source c ≠ CUSTOM_SOURCE.
Proof.
  intros (l1 & l2 & Heq & Hl1 & Hl2).
  destruct l2 as [|y l2 _] using rev_ind.
  - rewrite app_nil_r in Heq. subst l1.
    apply Forall_app in Hl1 as [Hcs _]. split.
    + exists cs, []. by rewrite app_nil_r.
    + intros p Hp. left. by apply (proj1 (Forall_forall _ _) Hcs).
  - rewrite app_assoc in Heq. apply app_inj_tail in Heq as [-> ->].
    apply Forall_app in Hl2 as [Hl2 Hy]. split.
    + by exists l1, l2.
    + intros p Hp. right. by inversion Hy.
Qed.

Lemma new_wins_no_id prev c :
  xmltv_id c = "" →
  source prev = CUSTOM_SOURCE ∨ source c ≠ CUSTOM_SOURCE →
  new_wins prev c = false.
Proof.
  intros Hc Hsrc. unfold new_wins.
  rewrite (bool_decide_eq_false_2 (xmltv_id c ≠ "")) by tauto.
  rewrite andb_false_r.
  destruct Hsrc as [Hp|Hn].
  - by rewrite (bool_decide_eq_false_2 (source prev ≠ CUSTOM_SOURCE)) by tauto.
  - by rewrite (bool_decide_eq_false_2 _ Hn), andb_false_r.
Qed.

Lemma merge_step_other_key st c k :
  identity_key c ≠ k →
  lookup_key k (merged (merge_step st c)) = lookup_key k (merged st).
Proof.
  intros Hne. destruct (decide (usable c)) as [Hc|Hc];
    [|by rewrite (merge_step_unusable _ _ Hc)].
  destruct (lookup_key (identity_key c) (merged st)) as [prev|] eqn:Hlook.
  - rewrite (merge_step_collide _ _ _ Hc Hlook). simpl.
    destruct (new_wins prev c); [by rewrite lookup_store_ne | done].
  - rewrite (merge_step_fresh _ _ Hc Hlook). simpl. by rewrite lookup_store_ne.
Qed.

(** X7. The merge in the order [build_candidates] produces, in full: the
    winner of a key is the first usable candidate of that key that carries
    an id, if there is one, and the first usable candidate of the key
    otherwise.  The source rule never fires in that order. *)
Theorem winner_in_pipeline_order cs k :
  custom_first cs →
  lookup_key k (merged (run cs))
  = match EnrichIn.first_such
            (λ c, usable c ∧ identity_key c = k ∧ xmltv_id c ≠ "") cs with
    | Some c => Some c
    | None => EnrichIn.first_such (λ c, usable c ∧ identity_key c = k) cs
    end.
Proof.
  induction cs as [|c cs IH] using rev_ind; intros Hcs; [done|].
  apply custom_first_snoc in Hcs as [Hcs Hoff]. specialize (IH Hcs).
  rewrite run_snoc, !first_such_snoc.
  destruct (decide (usable c ∧ identity_key c = k)) as [[Hc Hkey]|Hnot].
  - subst k.
    destruct (EnrichIn.first_such
                (λ c0, usable c0 ∧ identity_key c0 = identity_key c
                       ∧ xmltv_id c0 ≠ "") cs) as [p|] eqn:Hid.
    + apply first_such_Some in Hid as [(_ & _ & Hpid) Hp].
      rewrite (merge_step_collide _ _ _ Hc IH).
      by rewrite new_wins_keeps_id by auto.
    + destruct (EnrichIn.first_such
                  (λ c0, usable c0 ∧ identity_key c0 = identity_key c) cs)
        as [p|] eqn:Hany.
      * apply first_such_Some in Hany as [[Hpu Hpk] Hp].
        assert (xmltv_id p = "") as Hpid.
        { destruct (decide (xmltv_id p = "")) as [|Hne]; [done|].
          by destruct (first_such_None _ _ Hid p Hp). }
        rewrite (merge_step_collide _ _ _ Hc IH). simpl.
        destruct (decide (xmltv_id c = "")) as [Hcid|Hcid].
        -- rewrite new_wins_no_id by auto.
           rewrite decide_False by tauto. done.
        -- rewrite new_wins_id by done. rewrite lookup_store_eq.
           by rewrite decide_True.
      * rewrite (merge_step_fresh _ _ Hc IH). simpl. rewrite lookup_store_eq.
        by case_decide.
  - rewrite (decide_False (P := usable c ∧ identity_key c = k ∧ _)) by tauto.
    destruct (decide (identity_key c = k)) as [Hkey|Hkey].
    + assert (¬ usable c) as Hc by tauto.
      rewrite (merge_step_unusable _ _ Hc). simpl. rewrite IH.
      by repeat case_match.
    + rewrite merge_step_other_key by done. rewrite IH. by repeat case_match.
Qed.

Lemma winner_in_pipeline_order_witness :
  let a := Candidate "" "" "CNN" "custom.channels.xml" in
  let b := Candidate "provider-a" "cnn" "CNN US" "Draft-Keep.csv" in
  let c := Candidate "provider-b" "cnn" "CNN International" "matched_channels.csv" in
  lookup_key "cnn" (merged (run [a; b; c])) = Some b.
Proof.
  intros a b c.
  rewrite (winner_in_pipeline_order [a; b; c] "cnn"); [compute_done|].
  exists [a], [b; c]. split_and!; [done|..]; repeat constructor; compute_done.
Defined.

End MergeAccounting.

(** ** The written list: order, and what a channel element reads as *)

Section MergeOutFacts.
Import Merge MergeOut.

Implicit Types (c y : candidate) (l cs : list candidate).
Implicit Types (a b : string * string).

Lemma key_le_refl a : key_le a a.
Proof. right. split; [done | reflexivity]. Qed.

Lemma key_le_total a b : key_le a b ∨ key_le b a.
Proof.
  unfold key_le. destruct (decide (a.1 = b.1)) as [Heq|Hne].
  - destruct (total String.le a.2 b.2); [left | right]; right; auto.
  - destruct (total String.le a.1 b.1); [left | right]; left; auto.
Qed.

Lemma key_le_trans a b (d : string * string) :
  key_le a b → key_le b d → key_le a d.
Proof.
  unfold key_le.
  intros [[H1 N1]|[E1 H1]] [[H2 N2]|[E2 H2]].
  - left. split; [by etrans|]. intros Heq. rewrite Heq in H1.
    apply N2. by apply (anti_symm String.le).
  - left. by rewrite <- E2.
  - left. by rewrite E1.
  - right. split; [congruence | by etrans].
Qed.

Lemma insert_channel_perm c l : insert_channel c l ≡ₚ c :: l.
Proof.
  induction l as [|y l IH]; simpl; [done|].
  case_decide; [done|]. rewrite IH. apply Permutation_swap.
Qed.

Lemma sorted_channels_perm cs : sorted_channels cs ≡ₚ cs.
Proof.
  induction cs as [|c cs IH]; simpl; [done|].
  by rewrite insert_channel_perm, IH.
Qed.

Lemma insert_channel_sorted c l :
  Sorted channel_le l → Sorted channel_le (insert_channel c l).
Proof.
  induction 1 as [|y l Hl IH Hhd]; simpl; [by repeat constructor|].
  case_decide as Hle.
  - apply Sorted_cons; [by apply Sorted_cons | by apply HdRel_cons].
  - constructor; [done|].
    assert (channel_le y c) as Hyc.
    { destruct (key_le_total (sort_key c) (sort_key y)); done. }
    destruct Hhd as [|z l Hyz]; simpl; [by constructor|].
    case_decide; by constructor.
Qed.

Lemma sorted_channels_sorted cs : Sorted channel_le (sorted_channels cs).
Proof.
  induction cs as [|c cs IH]; simpl; [constructor|].
  by apply insert_channel_sorted.
Qed.

Lemma insert_channel_stable (κ : string * string) c l :
  filter (λ x, sort_key x = κ) (insert_channel c l)
  = filter (λ x, sort_key x = κ) (c :: l).
Proof.
  induction l as [|y l IH]; simpl; [done|].
  case_decide as Hle; [done|].
  assert (sort_key y ≠ sort_key c) as Hne.
  { intros Heq. apply Hle. rewrite Heq. apply key_le_refl. }
  destruct (decide (sort_key y = κ)) as [Hy|Hy].
  - rewrite (filter_cons_True _ y) by done. rewrite IH.
    rewrite (filter_cons_False _ c) by congruence.
    rewrite (filter_cons_False _ c) by congruence.
    by rewrite filter_cons_True.
  - rewrite (filter_cons_False _ y) by done. rewrite IH.
    destruct (decide (sort_key c = κ)).
    + rewrite !(filter_cons_True _ c) by done. by rewrite filter_cons_False.
    + rewrite !(filter_cons_False _ c) by done. by rewrite filter_cons_False.
Qed.

Lemma sorted_channels_stable (κ : string * string) cs :
  filter (λ x, sort_key x = κ) (sorted_channels cs)
  = filter (λ x, sort_key x = κ) cs.
Proof.
  induction cs as [|c cs IH]; simpl; [done|].
  rewrite insert_channel_stable.
  destruct (decide (sort_key c = κ)).
  - rewrite !filter_cons_True by done. by rewrite IH.
  - rewrite !filter_cons_False by done. by rewrite IH.
Qed.

(** X8. [write_xml] writes every channel exactly once, in ascending order
    of (site, lower-cased name), any two elements of the document being in
    that order, and channels with equal keys in the order they came in. *)
Theorem write_xml_sorted cs :
  write_xml cs = channel_element <$> sorted_channels cs
  ∧ sorted_channels cs ≡ₚ cs
  ∧ StronglySorted (λ c y, key_le (sort_key c) (sort_key y)) (sorted_channels cs)
  ∧ ∀ κ, filter (λ x, sort_key x = κ) (sorted_channels cs)
         = filter (λ x, sort_key x = κ) cs.
Proof.
  split_and!.
  - done.
  - apply sorted_channels_perm.
  - apply Sorted_StronglySorted; [|apply sorted_channels_sorted].
    intros x y z. apply key_le_trans.
  - intros κ. apply sorted_channels_stable.
Qed.

(** *** Reading back *)

Lemma load_channel_element c :
  load_channel (channel_element c)
  = {| x_site := Py.str_strip (site c);
       x_xmltv_id := Py.str_strip (xmltv_id c);
       x_name := Py.str_strip (name c) |}.
Proof.
  unfold load_channel, channel_element. simpl.
  destruct (decide (site c = "")) as [Hs|Hs];
    destruct (decide (xmltv_id c = "")) as [Hi|Hi];
    rewrite ?Hs, ?Hi; by simplify_map_eq.
Qed.

(** *** The review tables *)


End MergeOutFacts.

(** ** The normalizers: the form of the result *)

Section NormalFormFacts.
Import Py Re.

Implicit Types (s x y : chars).

Lemma char_blank_punct_lower c :
  implb (is_space c || Merge.is_punct c)
        (bool_decide (lower_char c = c)) = true.
Proof. revert c. intros [[] [] [] [] [] [] [] []]; vm_compute; reflexivity. Qed.

Lemma loose_output_form x :
  Forall (λ c, lower_char c = c) (Merge.normalize_chars x)
  ∧ Forall (λ c, Merge.is_punct c = false) (Merge.normalize_chars x)
  ∧ spaces_collapsed false (Merge.normalize_chars x) = true
  ∧ strip (Merge.normalize_chars x) = Merge.normalize_chars x.
Proof.
  rewrite !loose_unfold. split_and!.
  - apply Forall_strip, Forall_collapse; [|done].
    apply Forall_blank; [|done].
    do 2 (apply Forall_remove_tags; [|done]). apply lower_lowered.
  - apply Forall_strip, Forall_collapse; [|done]. apply blank_no_punct.
  - unfold strip.
    apply collapsed_rstrip, (collapsed_lstrip false), collapse_collapsed.
  - apply strip_idem.
Qed.

(** X11. The form of a loose-normalized name, for every ASCII input: it
    is ASCII, lower-case, has none of the punctuation characters of the
    normalizer, no blank at either end, and between words only single
    spaces. *)
Theorem loose_normal_form (x : string) :
  ascii_only x →
  ascii_only (Merge.normalize_name x)
  ∧ str_lower (Merge.normalize_name x) = Merge.normalize_name x
  ∧ str_strip (Merge.normalize_name x) = Merge.normalize_name x
  ∧ Forall (λ c, Merge.is_punct c = false)
           (of_string (Merge.normalize_name x))
  ∧ spaces_collapsed false (of_string (Merge.normalize_name x)) = true.
Proof.
  intros Hx. split; [by apply loose_ascii|].
  destruct (loose_output_form (of_string x)) as (Hlow & Hpunct & Hcoll & Hstrip).
  unfold Merge.normalize_name, str_lower, str_strip, on_string.
  rewrite !of_to_string. split_and!; [|by rewrite Hstrip|done|done].
  by rewrite lower_fixed.
Qed.

Lemma loose_normal_form_witness :
  str_strip (Merge.normalize_name "  Sky  Sports (UK) - 4K ")
  = Merge.normalize_name "  Sky  Sports (UK) - 4K ".
Proof.
  apply (loose_normal_form "  Sky  Sports (UK) - 4K "). compute_done.
Defined.

(** X12. What the loose normalizer removes: for an ASCII input without
    underscore, the words of the result are the words of the lower-cased
    input, in order, without those that are a provider tag or a quality
    tag. *)
Theorem loose_removes_tag_words (x : string) :
  ascii_only x → ¬ has_underscore x →
  word_runs (of_string (Merge.normalize_name x))
  = filter (λ w, w ∉ removed_tags) (word_runs (lower (of_string x))).
Proof.
  intros _ Hx. unfold Merge.normalize_name, on_string. rewrite of_to_string.
  rewrite (loose_word_runs _ Hx), list_filter_filter.
  apply list_filter_iff. intros w. unfold removed_tags.
  rewrite fmap_app, elem_of_app. tauto.
Qed.

Lemma loose_removes_tag_words_witness :
  word_runs (of_string (Merge.normalize_name "Sky Sports (UK) - 4K"))
  = [of_string "sports"; of_string "uk"].
Proof.
  rewrite (loose_removes_tag_words "Sky Sports (UK) - 4K"); compute_done.
Defined.

(** *** Names without a letter or digit *)

Lemma pieces_Forall (P : ascii → Prop) s :
  Forall P s → Forall (Forall P) (pieces s).
Proof.
  induction 1 as [|c s Hc Hs IH]; simpl; [by repeat constructor|].
  destruct (is_word c); [|by constructor].
  destruct (pieces s) as [|q ps]; [by repeat constructor|].
  inversion IH; subst. constructor; [by constructor | done].
Qed.

Lemma word_runs_Forall (P : ascii → Prop) s :
  Forall P s → Forall (Forall P) (word_runs s).
Proof.
  intros Hs. unfold word_runs.
  apply Forall_forall. intros w [_ Hw]%list_elem_of_filter.
  by apply (proj1 (Forall_forall _ _) (pieces_Forall P s Hs)).
Qed.

Lemma tags_have_letters :
  Forall (λ t, ¬ Forall (λ c, is_space c = true ∨ Merge.is_punct c = true) t)
         removed_tags.
Proof. compute_done. Qed.

Lemma lstrip_blank s : Forall (λ c, is_space c = true) s → lstrip s = [].
Proof. induction 1 as [|c s Hc Hs IH]; simpl; [done|]. by rewrite Hc. Qed.

Lemma loose_blank_or_punct x :
  Forall (λ c, is_space c = true ∨ Merge.is_punct c = true) x →
  Merge.normalize_chars x = [].
Proof.
  intros Hx. rewrite loose_unfold.
  assert (lower x = x) as ->.
  { apply lower_fixed. eapply Forall_impl; [done|]. intros c Hc. simpl in Hc.
    pose proof (char_blank_punct_lower c) as Hl.
    assert (is_space c || Merge.is_punct c = true) as Hor
      by (apply orb_true_iff; done).
    rewrite Hor in Hl. exact (bool_decide_eq_true_1 _ Hl). }
  assert (∀ tags, of_string <$> tags ⊆ removed_tags →
                  Forall (λ w, w ∉ of_string <$> tags) (word_runs x)) as Hno.
  { intros tags Hsub. apply Forall_forall. intros w Hw Hin.
    pose proof (proj1 (Forall_forall _ _) tags_have_letters w (Hsub _ Hin))
      as Hletters.
    apply Hletters.
    by apply (proj1 (Forall_forall _ _) (word_runs_Forall _ x Hx)). }
  rewrite (remove_tags_id _ x provider_tokens)
    by (apply Hno; unfold removed_tags; rewrite fmap_app;
        intros ??; apply elem_of_app; by left).
  rewrite (remove_tags_id _ x quality_tokens)
    by (apply Hno; unfold removed_tags; rewrite fmap_app;
        intros ??; apply elem_of_app; by right).
  unfold strip. rewrite lstrip_blank; [done|].
  apply Forall_collapse; [|done].
  unfold blank_class. apply Forall_fmap.
  eapply Forall_impl; [done|]. intros c Hc. simpl.
  simpl in Hc. destruct (Merge.is_punct c) eqn:Hp; [done|].
  by destruct Hc.
Qed.

(** X13. A name made of blanks and punctuation characters only (the empty
    name included) has the empty normal form, and a candidate with such a
    name is routed to the unmatched list whatever its id. *)
Theorem blank_names_are_unmatched (cs : list Merge.candidate) (c : Merge.candidate) :
  blank_or_punct (Merge.name c) →
  Merge.normalize_name (Merge.name c) = ""
  ∧ (c ∈ cs → c ∈ (Merge.merge_candidates cs).2).
Proof.
  intros Hc.
  assert (Merge.normalize_name (Merge.name c) = "") as Hnorm.
  { unfold Merge.normalize_name, on_string.
    by rewrite (loose_blank_or_punct _ Hc). }
  split; [done|]. intros Hin. simpl. unfold Merge.run.
  rewrite foldl_unmatched. simpl.
  apply list_elem_of_filter. split; [|done]. unfold usable.
  rewrite Hnorm. intros Hne. by apply Hne.
Qed.

Lemma blank_names_are_unmatched_witness :
  let c := Merge.Candidate "provider-a" "x.us" " - (+) _ " "Draft-Keep.csv" in
  c ∈ (Merge.merge_candidates [c]).2.
Proof.
  intros c. apply (blank_names_are_unmatched [c] c); [|by left].
  unfold blank_or_punct. compute_done.
Defined.

End NormalFormFacts.

(** ** The preferred index: first write wins *)

Section IndexFacts.
Import Enrich.

Implicit Types (row r m : gmap string string).
Implicit Types (by_id : gmap string (gmap string string)).
Implicit Types (by_name_country : gmap (string * option string) (gmap string string)).

Lemma add_preferred_by_id idx row k :
  (add_preferred idx row).1 !! k
  = match idx.1 !! k with
    | Some r => Some r
    | None => if decide (row_id row = k ∧ k ≠ "") then Some row else None
    end.
Proof.
  destruct idx as [by_id bnc]. unfold add_preferred. cbn [fst].
  fold (row_id row).
  destruct (decide (row_id row = "")) as [Hempty|Hne].
  - destruct (by_id !! k); [done|].
    rewrite decide_False; [done|]. intros [<- ?]. done.
  - destruct (by_id !! row_id row) as [r|] eqn:Hcid.
    + destruct (by_id !! k) eqn:Hk; [done|].
      rewrite decide_False; [done|]. intros [<- _]. congruence.
    + destruct (decide (row_id row = k)) as [<-|Hk].
      * rewrite lookup_insert_eq, Hcid. by rewrite decide_True.
      * rewrite lookup_insert_ne by done.
        destruct (by_id !! k); [done|]. rewrite decide_False; [done|]. tauto.
Qed.

Lemma by_id_first rs k :
  (foldl add_preferred (∅, ∅) rs).1 !! k
  = if decide (k = "") then None
    else EnrichIn.first_such (λ r, row_id r = k) rs.
Proof.
  induction rs as [|row rs IH] using rev_ind.
  - simpl. rewrite lookup_empty. by case_decide.
  - rewrite foldl_snoc, add_preferred_by_id, IH, first_such_snoc.
    destruct (decide (k = "")) as [->|Hk].
    + rewrite decide_False; [done|]. tauto.
    + destruct (EnrichIn.first_such _ rs); [done|].
      destruct (decide (row_id row = k)).
      * by rewrite decide_True.
      * rewrite decide_False; [done|]. tauto.
Qed.

Lemma build_preferred_lookup_fold preferred_df by_id by_name_country :
  build_preferred_lookup preferred_df = Ok (by_id, by_name_country) →
  foldl add_preferred (∅, ∅) (rows preferred_df) = (by_id, by_name_country).
Proof.
  unfold build_preferred_lookup. case_match; [|done]. by intros [= ->].
Qed.

(** X14. [by_id] holds, for every non-empty stripped id of the preferred
    table, the first row that has it: later rows with the same id are
    ignored, and a row without an id is not in [by_id]. *)
Theorem by_id_first_write_wins preferred_df by_id by_name_country k :
  build_preferred_lookup preferred_df = Ok (by_id, by_name_country) →
  by_id !! k
  = if decide (k = "") then None
    else EnrichIn.first_such (λ r, row_id r = k) (rows preferred_df).
Proof.
  intros Hfold%build_preferred_lookup_fold.
  rewrite <- (by_id_first (rows preferred_df) k). by rewrite Hfold.
Qed.

Lemma by_id_first_write_wins_witness :
  let first : gmap string string := {[ "id" := "espn1 "; "name" := "ESPN" ]} in
  let second : gmap string string := {[ "id" := "espn1"; "name" := "ESPN 2" ]} in
  let preferred_df := Frame ["id"; "name"] [first; second] in
  ∃ by_id by_name_country,
    build_preferred_lookup preferred_df = Ok (by_id, by_name_country)
    ∧ by_id !! "espn1" = Some first.
Proof.
  intros first second preferred_df.
  set (idx := foldl add_preferred (∅, ∅) (rows preferred_df)).
  assert (build_preferred_lookup preferred_df = Ok (idx.1, idx.2)) as Hb
    by compute_done.
  exists idx.1, idx.2. split; [exact Hb|].
  rewrite (by_id_first_write_wins preferred_df idx.1 idx.2 "espn1" Hb).
  compute_done.
Defined.

(** *** Names *)

Lemma add_name_lookup row country by_name_country nm key :
  add_name row country by_name_country nm !! key
  = match by_name_country !! key with
    | Some r => Some r
    | None =>
        if decide (normalize_name nm ≠ ""
                   ∧ key = (normalize_name nm, country_key country))
        then Some row else None
    end.
Proof.
  unfold add_name.
  destruct (decide (normalize_name nm = "")) as [Hnorm|Hnorm].
  - destruct (by_name_country !! key); [done|].
    rewrite decide_False; [done|]. tauto.
  - destruct (by_name_country !! (normalize_name nm, country_key country))
      as [r|] eqn:Hk.
    + destruct (by_name_country !! key) eqn:Hkey; [done|].
      rewrite decide_False; [done|]. intros [_ ->]. congruence.
    + destruct (decide ((normalize_name nm, country_key country) = key))
        as [<-|Hne].
      * rewrite lookup_insert_eq, Hk. by rewrite decide_True.
      * rewrite lookup_insert_ne by done.
        destruct (by_name_country !! key); [done|].
        rewrite decide_False; [done|]. intros [_ ->]. done.
Qed.

Lemma add_names_lookup row country names by_name_country key :
  foldl (add_name row country) by_name_country names !! key
  = match by_name_country !! key with
    | Some r => Some r
    | None =>
        if decide (key ∈ (λ nm, (normalize_name nm, country_key country))
                           <$> filter (λ nm, normalize_name nm ≠ "") names)
        then Some row else None
    end.
Proof.
  revert by_name_country. induction names as [|nm names IH];
    intros by_name_country.
  - simpl. by destruct (by_name_country !! key).
  - cbn [foldl]. rewrite IH, add_name_lookup.
    destruct (by_name_country !! key); [done|].
    destruct (decide (normalize_name nm = "")) as [Hnorm|Hnorm].
    + rewrite decide_False by tauto.
      by rewrite filter_cons_False by tauto.
    + rewrite filter_cons_True by done. csimpl.
      destruct (decide (key = (normalize_name nm, country_key country)))
        as [->|Hne].
      * rewrite decide_True by done. rewrite decide_True; [done | left].
      * rewrite decide_False by tauto.
        destruct (decide (key ∈ _)) as [Hin|Hin].
        -- rewrite decide_True; [done | by right].
        -- rewrite decide_False; [done|].
           rewrite not_elem_of_cons. done.
Qed.

Lemma add_preferred_names idx row key :
  (add_preferred idx row).2 !! key
  = match idx.2 !! key with
    | Some r => Some r
    | None => if decide (key ∈ keys_of row) then Some row else None
    end.
Proof.
  destruct idx as [by_id bnc]. unfold add_preferred. cbn [snd].
  apply add_names_lookup.
Qed.

Lemma by_name_country_first rs key :
  (foldl add_preferred (∅, ∅) rs).2 !! key
  = EnrichIn.first_such (λ r, key ∈ keys_of r) rs.
Proof.
  induction rs as [|row rs IH] using rev_ind.
  - simpl. by rewrite lookup_empty.
  - by rewrite foldl_snoc, add_preferred_names, IH, first_such_snoc.
Qed.

(** X15. [by_name_country] holds, for every key, the first row of the
    preferred table that contributes it through its name or one of its
    alt-names; rows that come later never replace it. *)
Theorem by_name_country_first_write_wins preferred_df by_id by_name_country key :
  build_preferred_lookup preferred_df = Ok (by_id, by_name_country) →
  by_name_country !! key
  = EnrichIn.first_such (λ r, key ∈ keys_of r) (rows preferred_df).
Proof.
  intros Hfold%build_preferred_lookup_fold.
  rewrite <- (by_name_country_first (rows preferred_df) key). by rewrite Hfold.
Qed.

Lemma by_name_country_first_write_wins_witness :
  let first : gmap string string :=
    {[ "id" := "d1"; "name" := "Discovery HD"; "country" := "us" ]} in
  let second : gmap string string :=
    {[ "id" := "d2"; "name" := "Disco"; "alt_names" := "discovery;DSC";
       "country" := "US" ]} in
  let preferred_df :=
    Frame ["id"; "name"; "alt_names"; "country"] [first; second] in
  ∃ by_id by_name_country,
    build_preferred_lookup preferred_df = Ok (by_id, by_name_country)
    ∧ by_name_country !! ("discovery", Some "US") = Some first
    ∧ by_name_country !! ("dsc", Some "US") = Some second.
Proof.
  intros first second preferred_df.
  set (idx := foldl add_preferred (∅, ∅) (rows preferred_df)).
  assert (build_preferred_lookup preferred_df = Ok (idx.1, idx.2)) as Hb
    by compute_done.
  exists idx.1, idx.2. split; [exact Hb|].
  split.
  - refine (eq_trans (by_name_country_first_write_wins
                        preferred_df idx.1 idx.2 ("discovery", Some "US") Hb) _).
    compute_done.
  - refine (eq_trans (by_name_country_first_write_wins
                        preferred_df idx.1 idx.2 ("dsc", Some "US") Hb) _).
    compute_done.
Defined.

Lemma build_preferred_lookup_missing preferred_df :
  "id" ∉ columns preferred_df ∨ "name" ∉ columns preferred_df →
  build_preferred_lookup preferred_df
  = Raise (ValueError
      "Invalid prefered-scoped-channels.csv; missing required columns.").
Proof.
  intros Hmiss. unfold build_preferred_lookup.
  destruct (filter _ ["id"; "name"]) as [|c l] eqn:Hf; [|done].
  exfalso.
  assert (∀ c, c ∈ ["id"; "name"] → c ∉ columns preferred_df →
               c ∈ filter (λ c, c ∉ columns preferred_df) ["id"; "name"])
    as Hin by (intros c ??; by apply list_elem_of_filter).
  rewrite Hf in Hin.
  destruct Hmiss as [Hm|Hm].
  - eapply elem_of_nil, (Hin "id"); [left | done].
  - eapply elem_of_nil, (Hin "name"); [right; left | done].
Qed.

(** X16. [build_preferred_lookup] raises exactly when the preferred table
    lacks the column [id] or the column [name]; the content of the rows
    never makes it raise. *)
Theorem build_preferred_lookup_raises_iff preferred_df :
  (∃ e, build_preferred_lookup preferred_df = Raise e)
  ↔ "id" ∉ columns preferred_df ∨ "name" ∉ columns preferred_df.
Proof.
  split.
  - intros [e He].
    destruct (decide ("id" ∈ columns preferred_df)) as [Hid|]; [|by left].
    destruct (decide ("name" ∈ columns preferred_df)) as [Hname|]; [|by right].
    destruct (build_preferred_lookup_total preferred_df Hid Hname) as [idx Hidx].
    congruence.
  - intros Hmiss. eexists. by apply build_preferred_lookup_missing.
Qed.

End IndexFacts.

(** ** Enrichment: errors, columns and rows *)

Section EnrichMore.
Import Enrich.

Implicit Types (row cur r m : gmap string string).
Implicit Types (by_id : gmap string (gmap string string)).
Implicit Types (by_name_country : gmap (string * option string) (gmap string string)).

(** X17. The order of the structural checks: a baseline without both
    [xmltv_id] and [display_name] makes enrichment raise the baseline
    error whatever the preferred table is; with a good baseline, a
    preferred table without [id] or [name] makes it raise the preferred
    table's error. *)
Theorem enrichment_structural_errors
    (baseline_df preferred_df : DataFrame) (excl : gset string) :
  ("xmltv_id" ∉ columns baseline_df → "display_name" ∉ columns baseline_df →
   enrich_baseline_with_preferred baseline_df preferred_df excl
   = Raise (ValueError
       "Baseline CSV missing both 'xmltv_id' and 'display_name' columns."))
  ∧ ("xmltv_id" ∈ columns baseline_df ∨ "display_name" ∈ columns baseline_df →
     "id" ∉ columns preferred_df ∨ "name" ∉ columns preferred_df →
     enrich_baseline_with_preferred baseline_df preferred_df excl
     = Raise (ValueError
         "Invalid prefered-scoped-channels.csv; missing required columns.")).
Proof.
  unfold enrich_baseline_with_preferred. split.
  - intros H1 H2.
    by rewrite (bool_decide_eq_true_2 _ H1), (bool_decide_eq_true_2 _ H2).
  - intros Hbase Hpref.
    assert (bool_decide ("xmltv_id" ∉ columns baseline_df)
            && bool_decide ("display_name" ∉ columns baseline_df) = false) as ->.
    { apply andb_false_iff.
      destruct Hbase; [left | right]; apply bool_decide_eq_false; tauto. }
    by rewrite (build_preferred_lookup_missing _ Hpref).
Qed.

Lemma enrichment_structural_errors_witness :
  let baseline_df := Frame ["site"; "name"] [ {[ "site" := "a"; "name" := "CNN" ]} ] in
  let preferred_df := Frame ["name"] [ {[ "name" := "CNN" ]} ] in
  enrich_baseline_with_preferred baseline_df preferred_df ∅
  = Raise (ValueError
      "Baseline CSV missing both 'xmltv_id' and 'display_name' columns.").
Proof.
  intros baseline_df preferred_df.
  apply (enrichment_structural_errors baseline_df preferred_df ∅); compute_done.
Defined.

(** *** The added columns *)

Lemma ensure_column_rows df col i r :
  rows df !! i = Some r →
  ∃ r', rows (ensure_column df col) !! i = Some r'
        ∧ (∀ c, c ∈ columns df → r' !! c = r !! c)
        ∧ (col ∉ columns df → r' !! col = Some "")
        ∧ (∀ c, c ≠ col → r' !! c = r !! c).
Proof.
  intros Hr. unfold ensure_column. case_decide as Hcol.
  - exists r. split_and!; done.
  - exists (<[col := ""]> r). simpl. rewrite list_lookup_fmap, Hr. simpl.
    split_and!; [done| | |].
    + intros c Hc. rewrite lookup_insert_ne; [done|]. by intros ->.
    + intros _. apply lookup_insert_eq.
    + intros c Hc. by rewrite lookup_insert_ne.
Qed.

Lemma ensure_columns_spec cols df :
  (∀ c, c ∈ cols → c ∈ columns (foldl ensure_column df cols))
  ∧ (∃ added, columns (foldl ensure_column df cols) = columns df ++ added)
  ∧ (Forall (λ c, c ∈ columns df) cols → foldl ensure_column df cols = df)
  ∧ length (rows (foldl ensure_column df cols)) = length (rows df)
  ∧ (∀ i r, rows df !! i = Some r →
       ∃ r', rows (foldl ensure_column df cols) !! i = Some r'
             ∧ (∀ c, c ∈ columns df → r' !! c = r !! c)
             ∧ (∀ c, c ∈ cols → c ∉ columns df → r' !! c = Some "")).
Proof.
  revert df. induction cols as [|col cols IH]; intros df; simpl.
  - split_and!; [by intros c ?%elem_of_nil | by exists []; rewrite app_nil_r
                 | done | done |].
    intros i r Hr. exists r. split_and!; [done..|]. by intros c ?%elem_of_nil.
  - destruct (IH (ensure_column df col)) as (Hall & [added Hadd] & Hid & Hlen & Hrows).
    assert (∀ c, c ∈ columns df → c ∈ columns (ensure_column df col)) as Hkeep.
    { intros c Hc. unfold ensure_column. case_decide; [done|].
      simpl. apply elem_of_app. by left. }
    assert (col ∈ columns (ensure_column df col)) as Hcol.
    { unfold ensure_column. case_decide; [done|].
      simpl. apply elem_of_app. right. left. }
    split_and!.
    + intros c [->|Hc]%elem_of_cons; [|by apply Hall].
      by apply ensure_columns_keep.
    + destruct (decide (col ∈ columns df)) as [Hin|Hnin].
      * assert (ensure_column df col = df) as Heq
          by (unfold ensure_column; by rewrite decide_True).
        exists added. by rewrite Hadd, Heq.
      * assert (ensure_column df col = add_column col df) as Heq
          by (unfold ensure_column; by rewrite decide_False).
        exists ([col] ++ added). rewrite Hadd, Heq. simpl.
        by rewrite <- app_assoc.
    + intros [Hc Hcols]%Forall_cons.
      assert (ensure_column df col = df) as Heq
        by (unfold ensure_column; by rewrite decide_True).
      rewrite Heq in *. by apply Hid.
    + rewrite Hlen. unfold ensure_column. case_decide; [done|].
      simpl. by rewrite length_fmap.
    + intros i r Hr.
      destruct (ensure_column_rows df col i r Hr) as (r1 & Hr1 & Hold1 & Hnew1 & Hoth1).
      destruct (Hrows i r1 Hr1) as (r' & Hr' & Hold & Hnew).
      exists r'. split_and!; [done|..].
      * intros c Hc. rewrite Hold by auto. by apply Hold1.
      * intros c [->|Hc]%elem_of_cons Hnot.
        -- rewrite Hold by done. by apply Hnew1.
        -- destruct (decide (c = col)) as [->|Hne].
           ++ rewrite Hold by done. by apply Hnew1.
           ++ rewrite Hnew; [done|done|].
              unfold ensure_column. case_decide; [done|]. simpl.
              rewrite elem_of_app, list_elem_of_singleton. tauto.
Qed.

(** X18. Adding the fourteen output columns: afterwards the frame has all
    of them, after its own columns; it has the same rows, with the cells
    of the columns it had unchanged and the cells of the new columns
    empty.  A frame that has the columns already (the output of an earlier
    run) is left as it is. *)
Theorem added_columns_keep_the_baseline (df : DataFrame) :
  let df' := foldl ensure_column df add_cols in
  (∀ c, c ∈ add_cols → c ∈ columns df')
  ∧ (∃ added, columns df' = columns df ++ added)
  ∧ (Forall (λ c, c ∈ columns df) add_cols → df' = df)
  ∧ length (rows df') = length (rows df)
  ∧ (∀ i r, rows df !! i = Some r →
       ∃ r', rows df' !! i = Some r'
             ∧ (∀ c, c ∈ columns df → r' !! c = r !! c)
             ∧ (∀ c, c ∈ add_cols → c ∉ columns df → r' !! c = Some "")).
Proof. apply ensure_columns_spec. Qed.

Lemma added_columns_keep_the_baseline_witness :
  let df := Frame ["xmltv_id"; "preferred_flag"]
                  [ {[ "xmltv_id" := "espn1"; "preferred_flag" := "Y" ]} ] in
  ∃ r', rows (foldl ensure_column df add_cols) !! 0 = Some r'
        ∧ r' !! "preferred_flag" = Some "Y"
        ∧ r' !! "pref_name" = Some "".
Proof.
  intros df.
  destruct (added_columns_keep_the_baseline df) as (_ & _ & _ & _ & Hrows).
  destruct (Hrows 0 {[ "xmltv_id" := "espn1"; "preferred_flag" := "Y" ]})
    as (r' & Hr' & Hold & Hnew); [done|].
  exists r'. split_and!; [done|..].
  - rewrite Hold; compute_done.
  - apply Hnew; compute_done.
Defined.

(** *** The row loop *)

Lemma enrich_row_counts by_id by_name_country (ids excl : gset string)
    has_categories out n row :
  let acc := enrich_row by_id by_name_country ids has_categories excl (out, n) row in
  length acc.1 = S (length out)
  ∧ counted acc.2 = S (counted n)
  ∧ filtered_by_category n ≤ filtered_by_category acc.2
    ≤ S (filtered_by_category n).
Proof.
  unfold enrich_row.
  destruct (resolve_row by_id by_name_country ids row) as [cur t].
  destruct (apply_filter has_categories excl row cur) as [rec hit]. simpl.
  rewrite length_app. simpl.
  destruct n as [a b c d], t, hit; unfold counted; simpl; lia.
Qed.

(** X19. The counters of the row loop add up: every baseline row yields one
    output record, every row is counted once as matched by id, matched by
    name or unmatched, and at most every row is counted as filtered. *)
Theorem row_loop_counts by_id by_name_country (ids excl : gset string)
    has_categories (baseline_rows : list (gmap string string)) :
  let res := foldl (enrich_row by_id by_name_country ids has_categories excl)
                   ([], Counters 0 0 0 0) baseline_rows in
  length res.1 = length baseline_rows
  ∧ preferred_matches_id res.2 + preferred_matches_name res.2 + unmatched res.2
    = length baseline_rows
  ∧ filtered_by_category res.2 ≤ length baseline_rows.
Proof.
  simpl.
  induction baseline_rows as [|row l IH] using rev_ind; [simpl; lia|].
  rewrite foldl_snoc, length_app. simpl.
  destruct (foldl _ _ l) as [out n].
  pose proof (enrich_row_counts by_id by_name_country ids excl
                has_categories out n row) as Hstep.
  simpl in *. unfold counted in Hstep. lia.
Qed.

Lemma fill_preferred_other (ids : gset string) m cur c :
  c ∉ add_cols → fill_preferred ids m cur !! c = cur !! c.
Proof.
  intros Hc. unfold add_cols in Hc.
  repeat (apply not_elem_of_cons in Hc as [? Hc]).
  unfold fill_preferred. case_decide; by rewrite !lookup_insert_ne.
Qed.

(** X20. Enrichment writes the fourteen output columns only: in the record
    a baseline row becomes, every other cell is the cell of the row. *)
Theorem baseline_cells_untouched by_id by_name_country (ids excl : gset string)
    has_categories out n row c :
  c ∉ add_cols →
  ∃ rec n',
    enrich_row by_id by_name_country ids has_categories excl (out, n) row
    = (out ++ [rec], n')
    ∧ rec !! c = row !! c.
Proof.
  intros Hc. unfold enrich_row.
  assert ((resolve_row by_id by_name_country ids row).1 !! c = row !! c) as Hres.
  { unfold resolve_row.
    destruct (resolve by_id by_name_country row) as [[m|] t]; simpl.
    - by apply fill_preferred_other.
    - unfold keep_flag. rewrite lookup_insert_ne; [done|].
      intros <-. apply Hc. left. }
  destruct (resolve_row by_id by_name_country ids row) as [cur t].
  simpl in Hres.
  assert ((apply_filter has_categories excl row cur).1 !! c = cur !! c) as Hfil.
  { unfold apply_filter. repeat case_match; simpl; try done.
    rewrite lookup_insert_ne; [done|]. intros <-. apply Hc.
    unfold add_cols. do 13 right. left. }
  destruct (apply_filter has_categories excl row cur) as [rec hit].
  simpl in Hfil. eexists _, _. split; [done|]. congruence.
Qed.

Lemma baseline_cells_untouched_witness :
  let row : gmap string string :=
    {[ "xmltv_id" := "espn1"; "display_name" := "ESPN"; "site" := "sky" ]} in
  let m : gmap string string := {[ "id" := "espn1"; "name" := "ESPN" ]} in
  ∃ rec n',
    enrich_row {[ "espn1" := m ]} ∅ ∅ false ∅ ([], Counters 0 0 0 0) row
    = ([] ++ [rec], n')
    ∧ rec !! "site" = Some "sky".
Proof.
  intros row m.
  destruct (baseline_cells_untouched {[ "espn1" := m ]} ∅ ∅ ∅ false []
              (Counters 0 0 0 0) row "site") as (rec & n' & Heq & Hc);
    [compute_done|].
  exists rec, n'. split; [done|]. rewrite Hc. compute_done.
Defined.

(** *** The preferred flag *)

Lemma char_upper_y c :
  bool_decide (Py.upper_char c = "Y"%char)
  = bool_decide (c = "Y"%char ∨ c = "y"%char).
Proof. revert c. intros [[] [] [] [] [] [] [] []]; vm_compute; reflexivity. Qed.

Lemma startswith_upper_y (v : string) :
  Py.str_startswith "Y" (Py.str_upper v) = true ↔ starts_with_y v.
Proof.
  unfold Py.str_startswith, Py.str_upper, Py.on_string.
  rewrite of_to_string. destruct v as [|c v]; [done|].
  simpl. rewrite andb_true_r.
  rewrite bool_decide_eq_true.
  pose proof (char_upper_y c) as Hc.
  split.
  - intros Heq. symmetry in Heq.
    rewrite (bool_decide_eq_true_2 _ Heq) in Hc.
    symmetry in Hc. exact (bool_decide_eq_true_1 _ Hc).
  - intros Hy. rewrite (bool_decide_eq_true_2 _ Hy) in Hc.
    symmetry. exact (bool_decide_eq_true_1 _ Hc).
Qed.

Lemma fill_preferred_flag (ids : gset string) m cur :
  cell (fill_preferred ids m cur) "preferred_flag"
  = if decide (marker_of m = "") then flag (bool_decide (row_id m ∈ ids))
    else flag (Py.str_startswith "Y" (Py.str_upper (marker_of m))).
Proof.
  unfold fill_preferred, cell. fold (marker_of m) (row_id m).
  case_decide; by rewrite lookup_insert_eq.
Qed.

(** X21. The preferred flag of a matched record whose marker ([Prefered],
    else [preferred]) is ASCII text: with a non-empty marker the flag is
    "Y" exactly when the marker starts with y or Y, whether or not the id
    is in the set of preferred ids; without a marker it is "Y" exactly when
    the stripped id of the matched row is in that set.  In all other cases
    the flag is empty. *)
Theorem preferred_flag_rule (ids : gset string) m cur :
  ascii_only (marker_of m) →
  (cell (fill_preferred ids m cur) "preferred_flag" = "Y"
   ↔ (marker_of m ≠ "" ∧ starts_with_y (marker_of m))
     ∨ (marker_of m = "" ∧ row_id m ∈ ids))
  ∧ (cell (fill_preferred ids m cur) "preferred_flag" = "Y"
     ∨ cell (fill_preferred ids m cur) "preferred_flag" = "").
Proof.
  intros _. rewrite fill_preferred_flag.
  destruct (decide (marker_of m = "")) as [Hm|Hm].
  - destruct (decide (row_id m ∈ ids)) as [Hin|Hin].
    + rewrite (bool_decide_eq_true_2 _ Hin). simpl. split; [|by left].
      split; [by right | done].
    + rewrite (bool_decide_eq_false_2 _ Hin). simpl. split; [|by right].
      split; [done | intros [[? _]|[_ ?]]; done].
  - destruct (Py.str_startswith "Y" (Py.str_upper (marker_of m))) eqn:Hy; simpl.
    + apply startswith_upper_y in Hy. split; [|by left].
      split; [by left | done].
    + split; [|by right]. split; [done|].
      intros [[_ Hs%startswith_upper_y]|[? _]]; congruence.
Qed.

Lemma preferred_flag_rule_witness :
  let m : gmap string string :=
    {[ "id" := "espn1"; "name" := "ESPN"; "Prefered" := " yes" ]} in
  cell (fill_preferred ∅ m ∅) "preferred_flag" = "Y".
Proof.
  intros m. apply (preferred_flag_rule ∅ m ∅); [compute_done|].
  left. split; compute_done.
Defined.

(** *** What a match means *)

Lemma fill_preferred_pref_id (ids : gset string) m cur :
  cell (fill_preferred ids m cur) "pref_id" = row_id m.
Proof.
  unfold fill_preferred, cell. fold (row_id m).
  case_decide; rewrite !lookup_insert_ne by done; by rewrite lookup_insert_eq.
Qed.

(** X22. What the resolver's answer means, for an index built from the
    preferred table.  The matched record is a row of that table.  A match
    by id is a row whose stripped id is the baseline row's stripped,
    non-empty [xmltv_id], and that id is what is written to [pref_id].  A
    match by name is a row one of whose names has the same non-empty
    strict normal form as the baseline's display name: a baseline row whose
    display name normalizes to the empty string is never matched by
    name. *)
Theorem resolver_match_meaning preferred_df by_id by_name_country
    (ids : gset string) row m t :
  build_preferred_lookup preferred_df = Ok (by_id, by_name_country) →
  resolve by_id by_name_country row = (Some m, t) →
  m ∈ rows preferred_df
  ∧ match t with
    | TierId =>
        row_id m = baseline_id row ∧ baseline_id row ≠ ""
        ∧ cell (resolve_row by_id by_name_country ids row).1 "pref_id"
          = baseline_id row
    | TierNameCountry | TierNameOnly =>
        normalize_name (display_name_of row) ≠ ""
        ∧ ∃ nm, nm ∈ names_of m
                ∧ normalize_name nm = normalize_name (display_name_of row)
    | TierNone => False
    end.
Proof.
  intros Hb Hres.
  pose proof (build_preferred_lookup_ok _ _ _ Hb) as Hnames.
  unfold resolve in Hres. fold (baseline_id row) (display_name_of row) in Hres.
  destruct (decide (baseline_id row = "")) as [Hid|Hid].
  - repeat case_match; simplify_eq;
      match goal with
      | H : by_name_country !! _ = Some _ |- _ =>
          destruct (Hnames _ _ _ H) as (? & ? & ?); by split
      end.
  - destruct (by_id !! baseline_id row) as [m'|] eqn:Hm.
    + simplify_eq.
      pose proof Hm as Hfirst.
      apply build_preferred_lookup_fold in Hb.
      assert (by_id = (foldl add_preferred (∅, ∅) (rows preferred_df)).1)
        as Hfold by (by rewrite Hb).
      rewrite Hfold, by_id_first, decide_False in Hfirst by done.
      apply first_such_Some in Hfirst as [Hrow Hin].
      split; [done|]. split_and!; [done..|].
      unfold resolve_row, resolve. fold (baseline_id row).
      rewrite decide_False by done. rewrite Hm. simpl.
      by rewrite fill_preferred_pref_id.
    + repeat case_match; simplify_eq;
        match goal with
        | H : by_name_country !! _ = Some _ |- _ =>
            destruct (Hnames _ _ _ H) as (? & ? & ?); by split
        end.
Qed.

Lemma resolver_match_meaning_witness :
  let first : gmap string string :=
    {[ "id" := "d1"; "name" := "Discovery HD"; "country" := "us" ]} in
  let preferred_df := Frame ["id"; "name"; "country"] [first] in
  let row : gmap string string :=
    {[ "display_name" := "discovery"; "country" := "US" ]} in
  ∃ nm, nm ∈ names_of first
        ∧ normalize_name nm = normalize_name (display_name_of row).
Proof.
  intros first preferred_df row.
  set (idx := foldl add_preferred (∅, ∅) (rows preferred_df)).
  assert (build_preferred_lookup preferred_df = Ok (idx.1, idx.2)) as Hb
    by compute_done.
  assert (resolve idx.1 idx.2 row = (Some first, TierNameCountry)) as Hres
    by compute_done.
  destruct (resolver_match_meaning preferred_df idx.1 idx.2 ∅ row first
              TierNameCountry Hb Hres) as (_ & _ & Hnm).
  exact Hnm.
Defined.

End EnrichMore.

(** ** Categories: the exclusion table and the filter *)

Section CategoryFacts.
Import Py Enrich EnrichIn.

Implicit Types (row cur r : gmap string string).

Lemma str_strip_idem (x : string) : str_strip (str_strip x) = str_strip x.
Proof.
  unfold str_strip. rewrite on_string_twice. unfold on_string.
  by rewrite strip_idem.
Qed.

Lemma str_lower_idem (x : string) : str_lower (str_lower x) = str_lower x.
Proof.
  unfold str_lower. rewrite on_string_twice. unfold on_string.
  by rewrite lower_idem.
Qed.

Lemma str_strip_lower (x : string) :
  str_strip (str_lower x) = str_lower (str_strip x).
Proof.
  unfold str_strip, str_lower, on_string.
  by rewrite !of_to_string, lower_strip.
Qed.

Lemma str_lower_empty (x : string) : str_lower x = "" ↔ x = "".
Proof.
  split; [|by intros ->].
  unfold str_lower, on_string. intros Hnil%to_string_nil.
  rewrite <- (to_of_string x). destruct (of_string x); [done | discriminate].
Qed.

Lemma lower_strip_form (c : string) :
  str_strip c ≠ "" → category_form (str_lower (str_strip c)).
Proof.
  intros Hc. split_and!.
  - by rewrite str_lower_empty.
  - by rewrite str_strip_lower, str_strip_idem.
  - apply str_lower_idem.
Qed.

Lemma lower_strip_empty (c : string) :
  str_lower (str_strip c) = "" ↔ str_strip c = "".
Proof. apply str_lower_empty. Qed.

(** X23. The effective categories of a record whose category cells are
    ASCII text are all in category form (not empty, lower-case, without
    surrounding blanks); a non-empty [pref_categories] cell hides the
    baseline's own categories, and a record that has neither has no
    category at all. *)
Theorem effective_categories_form has_categories row cur :
  (ascii_only (cell cur "pref_categories") →
   ascii_only (or_else (get row "categories") "") →
   Forall category_form (cat_list has_categories row cur))
  ∧ (cell cur "pref_categories" ≠ "" →
     cat_list has_categories row cur = cat_list false ∅ cur)
  ∧ (cell cur "pref_categories" = "" →
     has_categories = false ∨ or_else (get row "categories") "" = "" →
     cat_list has_categories row cur = []).
Proof.
  split_and!.
  - intros _ _. unfold cat_list. apply Forall_fmap, Forall_forall.
    intros c [Hc _]%list_elem_of_filter. by apply lower_strip_form.
  - intros Hp. unfold cat_list. by rewrite !decide_False.
  - intros Hp Hnone. unfold cat_list. rewrite decide_True by done.
    destruct Hnone as [->| ->]; [done | by destruct has_categories].
Qed.

Lemma effective_categories_form_witness :
  let cur : gmap string string :=
    {[ "pref_categories" := " News ;;SPORTS" ]} in
  let row : gmap string string := {[ "categories" := "music" ]} in
  cat_list true row cur = ["news"; "sports"]
  ∧ Forall category_form (cat_list true row cur).
Proof.
  intros cur row.
  destruct (effective_categories_form true row cur) as (Hform & Hpref & _).
  split; [rewrite Hpref; compute_done|].
  apply Hform; compute_done.
Defined.

(** *** The exclusion table *)

Lemma elem_of_collect_categories field rows v :
  v ∈ collect_categories field rows
  ↔ v ≠ ""
    ∧ ∃ r, r ∈ rows ∧ v = str_lower (str_strip (or_else (get r field) "")).
Proof.
  unfold collect_categories.
  rewrite elem_of_list_to_set, list_elem_of_filter, list_elem_of_fmap.
  split.
  - intros [Hv (r & -> & Hr)]. eauto.
  - intros [Hv (r & Hr & ->)]. eauto.
Qed.

(** X24. [load_exclude_categories] raises exactly on a file without a
    header line; a missing file gives the empty set; otherwise the
    categories are read from the first column whose name is [category] in
    any case, and from the first column when there is no such column. *)
Theorem exclusion_table_column file :
  (load_exclude_categories file = inl IndexError
   ↔ ∃ rows, file = Some ([], rows))
  ∧ (file = None → load_exclude_categories file = inr ∅)
  ∧ (∀ before field after rows,
       file = Some (before ++ field :: after, rows) →
       Forall (λ fn, str_lower fn ≠ "category") before →
       str_lower field = "category" ∨ before = [] ∧
         Forall (λ fn, str_lower fn ≠ "category") after →
       load_exclude_categories file = inr (collect_categories field rows)).
Proof.
  split_and!.
  - split.
    + destruct file as [[fieldnames rows]|]; [|done]. simpl.
      destruct (first_such _ fieldnames); [done|].
      destruct fieldnames; [eauto | done].
    + by intros [rows ->].
  - by intros ->.
  - intros before field after rows -> Hbefore Hfield. simpl.
    induction Hbefore as [|fn before Hfn Hbefore IH].
    + simpl. destruct (decide (str_lower field = "category")) as [|Hne];
        [done|].
      destruct Hfield as [|[_ Hafter]]; [done|].
      destruct (first_such _ after) as [x|] eqn:Hx; [|done].
      apply first_such_Some in Hx as [Hx Hin].
      by destruct (proj1 (Forall_forall _ _) Hafter x Hin).
    + destruct Hfield as [Hfield|[? _]]; [|done].
      simpl. rewrite decide_False by done.
      specialize (IH (or_introl Hfield)).
      destruct (first_such _ (before ++ field :: after)) as [x|] eqn:Hx.
      * done.
      * destruct (first_such_None _ _ Hx field); [|done].
        apply elem_of_app. right. left.
Qed.

Lemma exclusion_table_column_witness :
  let rows : list (gmap string string) :=
    [ {[ "id" := "1"; "Category" := " Music " ]};
      {[ "id" := "2"; "Category" := "" ]};
      {[ "id" := "3"; "Category" := "SHOPPING" ]} ] in
  EnrichIn.load_exclude_categories (Some (["id"; "Category"], rows))
  = inr {[ "music"; "shopping" ]}.
Proof.
  intros rows.
  destruct (exclusion_table_column (Some (["id"; "Category"], rows)))
    as (_ & _ & Hcol).
  assert (Forall (λ fn, str_lower fn ≠ "category") ["id"]) as Hbefore
    by (repeat constructor; compute_done).
  rewrite (Hcol ["id"] "Category" [] rows eq_refl Hbefore (or_introl eq_refl)).
  reflexivity.
Defined.

Lemma load_exclude_categories_inr file (excl : gset string) :
  load_exclude_categories file = inr excl →
  file = None ∧ excl = ∅
  ∨ ∃ fieldnames rows field, file = Some (fieldnames, rows)
      ∧ field ∈ fieldnames ∧ excl = collect_categories field rows.
Proof.
  intros Hload. destruct file as [[fieldnames rows]|]; [right | left].
  - simpl in Hload.
    destruct (first_such _ fieldnames) as [x|] eqn:Hx.
    + apply first_such_Some in Hx as [_ Hx]. simplify_eq. eauto 10.
    + destruct fieldnames as [|first_field rest]; [done|].
      simplify_eq. exists (first_field :: rest), rows, first_field.
      split_and!; [done | left | done].
  - simpl in Hload. by simplify_eq.
Qed.

(** X25. For an exclusion table whose cells are ASCII text, every
    category of the loaded set is in category form, the form the filter
    brings the categories of a record to; and for any table, a value is in
    the set exactly when it is the non-empty stripped lower-case cell of
    some row in the chosen column. *)
Theorem exclusion_set_members file (excl : gset string) :
  load_exclude_categories file = inr excl →
  ((∀ fieldnames rows r k v, file = Some (fieldnames, rows) →
      r ∈ rows → r !! k = Some v → ascii_only v) →
   ∀ v, v ∈ excl → category_form v)
  ∧ (∀ fieldnames rows, file = Some (fieldnames, rows) →
     ∃ field, field ∈ fieldnames ∧
       ∀ v, v ∈ excl ↔
         v ≠ "" ∧ ∃ r, r ∈ rows
                  ∧ v = str_lower (str_strip (or_else (get r field) ""))).
Proof.
  intros [[-> ->]|(fieldnames & rows & field & -> & Hin & ->)]
    %load_exclude_categories_inr.
  - split; [|done]. intros _ v Hv. by apply elem_of_empty in Hv.
  - split.
    + intros _ v (Hv & r & _ & ->)%elem_of_collect_categories.
      apply lower_strip_form. by rewrite <- lower_strip_empty.
    + intros ? ? [= <- <-]. exists field. split; [done|].
      intros v. apply elem_of_collect_categories.
Qed.

Lemma exclusion_set_members_witness :
  let file : option (list string * list (gmap string string)) :=
    Some (["category"], [ {[ "category" := " Music " ]} ]) in
  category_form "music".
Proof.
  intros file.
  assert (load_exclude_categories file = inr {[ "music" ]}) as Hload
    by compute_done.
  apply (proj1 (exclusion_set_members file {[ "music" ]} Hload)).
  - intros fieldnames rows r k v [= <- <-] ->%list_elem_of_singleton Hk.
    destruct (decide (k = "category")) as [->|Hne].
    + rewrite lookup_singleton_eq in Hk. simplify_eq. compute_done.
    + by rewrite lookup_singleton_ne in Hk.
  - by apply elem_of_singleton.
Defined.

(** *** The filter *)

Lemma existsb_elem_of (cats : list string) (excl : gset string) :
  existsb (λ c, bool_decide (c ∈ excl)) cats = true
  ↔ ∃ c, c ∈ cats ∧ c ∈ excl.
Proof.
  rewrite existsb_exists. split.
  - intros (c & Hin%list_elem_of_In & Hc%bool_decide_eq_true). eauto.
  - intros (c & Hin%list_elem_of_In & Hc). exists c.
    by rewrite bool_decide_eq_true.
Qed.

Lemma apply_filter_hit has_categories (excl : gset string) row cur :
  (apply_filter has_categories excl row cur).2 = true
  ↔ cell cur "preferred_flag" ≠ "Y"
    ∧ ∃ c, c ∈ cat_list has_categories row cur ∧ c ∈ excl.
Proof.
  unfold apply_filter. rewrite <- existsb_elem_of.
  destruct (existsb _ _) eqn:Hex.
  - apply existsb_elem_of in Hex as (c & Hc & Hin).
    rewrite !bool_decide_eq_true_2.
    + simpl. case_decide; simpl; (split; [done | by intros [? _]]).
    + intros Hnil. rewrite Hnil in Hc. by apply elem_of_nil in Hc.
    + intros Hempty. rewrite Hempty in Hin. by apply elem_of_empty in Hin.
  - destruct (_ && _); simpl; (split; [done | by intros [_ ?]]).
Qed.

(** X26. The category filter in one rule: a record is flagged exactly when
    its preferred flag is not "Y" and one of its effective categories is
    in the exclusion set; the two emptiness guards of the code change
    nothing.  A flagged record gets "Y" in [filtered_out_by_category], any
    other record is returned as it was. *)
Theorem filter_rule has_categories (excl : gset string) row cur :
  ((apply_filter has_categories excl row cur).2 = true
   ↔ cell cur "preferred_flag" ≠ "Y"
     ∧ ∃ c, c ∈ cat_list has_categories row cur ∧ c ∈ excl)
  ∧ (apply_filter has_categories excl row cur).1
    = if (apply_filter has_categories excl row cur).2
      then <["filtered_out_by_category" := "Y"]> cur else cur.
Proof.
  split; [apply apply_filter_hit|].
  unfold apply_filter. repeat (case_match; simpl; try done).
Qed.

(** X27. The exclusion table and the filter agree on the form of a
    category, so matching ignores case and surrounding blanks: for the
    column the table was read from, when the cell of a row and a
    [;]-separated part of the record's category field differ only there,
    the record is flagged unless it is preferred. *)
Theorem excluded_category_ignores_case fieldnames rows (excl : gset string) :
  load_exclude_categories (Some (fieldnames, rows)) = inr excl →
  ∃ field, field ∈ fieldnames ∧
    ∀ has_categories row cur r part,
      r ∈ rows →
      part ∈ str_split ";" (cell cur "pref_categories") →
      str_strip part ≠ "" →
      str_lower (str_strip part)
      = str_lower (str_strip (or_else (get r field) "")) →
      cell cur "preferred_flag" ≠ "Y" →
      apply_filter has_categories excl row cur
      = (<["filtered_out_by_category" := "Y"]> cur, true).
Proof.
  intros [[? _]|(? & ? & field & [= <- <-] & Hfield & ->)]
    %load_exclude_categories_inr; [done|].
  exists field. split; [done|].
  intros has_categories row cur r part Hr Hpart Hne Heq Hflag.
  assert (cell cur "pref_categories" ≠ "") as Hcats.
  { intros Hempty. rewrite Hempty in Hpart.
    apply list_elem_of_singleton in Hpart. by subst. }
  assert ((apply_filter has_categories (collect_categories field rows)
             row cur).2 = true) as Hhit.
  { apply apply_filter_hit. split; [done|].
    exists (str_lower (str_strip part)). split.
    - unfold cat_list. rewrite decide_False by done.
      apply list_elem_of_fmap. exists part. split; [done|].
      by apply list_elem_of_filter.
    - apply elem_of_collect_categories. split.
      + by rewrite lower_strip_empty.
      + eauto. }
  revert Hhit. unfold apply_filter.
  repeat (case_match; simpl; try done).
Qed.

Lemma excluded_category_ignores_case_witness :
  let rows : list (gmap string string) := [ {[ "category" := " Music " ]} ] in
  let cur : gmap string string :=
    {[ "pref_categories" := "news; MUSIC" ]} in
  apply_filter false (collect_categories "category" rows) ∅ cur
  = (<["filtered_out_by_category" := "Y"]> cur, true).
Proof.
  intros rows cur.
  destruct (excluded_category_ignores_case ["category"] rows
              (collect_categories "category" rows) eq_refl)
    as (field & ->%list_elem_of_singleton & Hflagged).
  apply (Hflagged false ∅ cur {[ "category" := " Music " ]} " MUSIC").
  - left.
  - right. left.
  - compute_done.
  - compute_done.
  - compute_done.
Defined.

End CategoryFacts.

(** ** The entry points *)

Section MainFacts.
Import Py Merge MergeOut.

Implicit Types (c : candidate) (l cs : list candidate).

(** *** step2_enrich_with_preferred_channels.py *)

Lemma enrichment_always_raises
    (baseline_df preferred_df : Enrich.DataFrame) (excl : gset string) :
  ∃ e, Enrich.enrich_baseline_with_preferred baseline_df preferred_df excl
       = Enrich.Raise e.
Proof.
  unfold Enrich.enrich_baseline_with_preferred.
  destruct (_ && _); [eauto|].
  destruct (decide ("id" ∈ Enrich.columns preferred_df)) as [Hid|Hid].
  - destruct (decide ("name" ∈ Enrich.columns preferred_df)) as [Hname|Hname].
    + destruct (build_preferred_lookup_total preferred_df Hid Hname)
        as [[by_id by_name_country] ->].
      unfold Enrich.bind. rewrite (preferred_ids_raises preferred_df Hid).
      eauto.
    + rewrite (build_preferred_lookup_missing preferred_df); [|by right].
      simpl. eauto.
  - rewrite (build_preferred_lookup_missing preferred_df); [|by left].
    simpl. eauto.
Qed.

(** X28. The entry point of the archived enrichment step never writes an
    enriched table: for every baseline, preferred table and exclusion
    table, present or missing, well-formed or not, [main] ends in
    [sys.exit(1)]. *)
Theorem enrichment_main_always_exits baseline preferred exclude versioned_name :
  EnrichMain.main baseline preferred exclude versioned_name
  = EnrichMain.SysExit1.
Proof.
  unfold EnrichMain.main.
  destruct (EnrichMain.load_csv_safe baseline) as [|baseline_df]; [done|].
  destruct (EnrichMain.load_csv_safe preferred) as [|preferred_df]; [done|].
  destruct (EnrichIn.load_exclude_categories exclude) as [|excl]; [done|].
  by destruct (enrichment_always_raises baseline_df preferred_df excl)
    as [e ->].
Qed.

(** *** merge_custom_channels.py: the CSV lists *)

Lemma load_item_raised (r : list MergeIn.item) e :
  foldl MergeIn.load_item (inl e) r = inl e.
Proof. induction r as [|i r IH]; [done|]. simpl. apply IH. Qed.

Lemma load_row_raises (r : list MergeIn.item) :
  MergeIn.load_row r = inl MergeIn.AttributeError
  ↔ ∃ cells, MergeIn.Rest cells ∈ r.
Proof.
  unfold MergeIn.load_row.
  induction r as [|i r IH] using rev_ind.
  - split; [done|]. intros [cells Hin]. by apply elem_of_nil in Hin.
  - rewrite foldl_snoc.
    destruct (foldl MergeIn.load_item (inr ∅) r) as [[]|d] eqn:Hr; simpl.
    + split; [|done]. intros _.
      destruct (proj1 IH eq_refl) as [cells Hin]. exists cells.
      apply elem_of_app. by left.
    + destruct i as [k v|cells].
      * split; [done|]. intros [cells [Hin|Hin]%elem_of_app].
        -- discriminate (proj2 IH (ex_intro _ cells Hin)).
        -- by apply list_elem_of_singleton in Hin.
      * split; [|done]. intros _. exists cells.
        apply elem_of_app. right. left.
Qed.

Lemma load_row_stripped (r : list MergeIn.item) d :
  MergeIn.load_row r = inr d → stripped_row d.
Proof.
  unfold MergeIn.load_row. revert d.
  induction r as [|i r IH] using rev_ind; intros d.
  - intros [= <-] k v Hk. by rewrite lookup_empty in Hk.
  - rewrite foldl_snoc.
    destruct (foldl MergeIn.load_item (inr ∅) r) as [|d'] eqn:Hr; [done|].
    destruct i as [k0 v0|]; [|done]. simpl. intros [= <-] k v.
    destruct (decide (str_strip k0 = k)) as [<-|Hne].
    + rewrite lookup_insert_eq. intros [= <-].
      split; [apply str_strip_idem|].
      destruct v0; simpl; [|done]. by rewrite str_strip_idem.
    + rewrite lookup_insert_ne by done. by apply IH.
Qed.

Lemma append_row_raised (reader : list (list MergeIn.item)) e :
  foldl MergeIn.append_row (inl e) reader = inl e.
Proof. induction reader as [|r reader IH]; [done|]. simpl. apply IH. Qed.

Lemma load_csv_rows (reader : list (list MergeIn.item)) :
  match MergeIn.load_csv (Some reader) with
  | inl _ => ∃ r cells, r ∈ reader ∧ MergeIn.Rest cells ∈ r
  | inr out =>
      Forall2 (λ r d, MergeIn.load_row r = inr d) reader out
  end.
Proof.
  simpl. induction reader as [|r reader IH] using rev_ind; [by constructor|].
  rewrite foldl_snoc.
  destruct (foldl MergeIn.append_row (inr []) reader) as [e|out]; simpl.
  - destruct IH as (r' & cells & Hin & Hrest). exists r', cells.
    split; [|done]. apply elem_of_app. by left.
  - destruct (MergeIn.load_row r) as [[]|d] eqn:Hr.
    + apply load_row_raises in Hr as [cells Hrest]. exists r, cells.
      split; [|done]. apply elem_of_app. right. left.
    + apply Forall2_app; [done|]. by repeat constructor.
Qed.

Lemma load_csv_stripped file out :
  MergeIn.load_csv file = inr out → Forall stripped_row out.
Proof.
  destruct file as [reader|]; [|by intros [= <-]].
  intros Hout. pose proof (load_csv_rows reader) as Hrows.
  rewrite Hout in Hrows. clear Hout.
  induction Hrows as [|r d reader out Hr _ IH]; constructor; [|done].
  by eapply load_row_stripped.
Qed.



(** *** merge_custom_channels.py: the whole run *)


Lemma main_result custom draft_keep matched recommended out :
  MergeIn.main custom draft_keep matched recommended = inr out →
  ∃ xs dk m r,
    load_custom_xml custom = inr xs
    ∧ MergeIn.load_csv draft_keep = inr dk
    ∧ MergeIn.load_csv matched = inr m
    ∧ MergeIn.load_csv recommended = inr r
    ∧ let cs := build_candidates xs (MergeIn.present <$> dk)
                  (MergeIn.present <$> m) (MergeIn.present <$> r) in
      out = {| out_xml := write_xml (merge_candidates cs).1.1;
               out_dupes := match (merge_candidates cs).1.2 with
                            | [] => None
                            | d :: ds => Some (d :: ds)
                            end;
               out_unmatched := match (merge_candidates cs).2 with
                                | [] => None
                                | u :: us => Some (u :: us)
                                end |}.
Proof.
  unfold MergeIn.main.
  destruct (load_custom_xml custom) as [|xs]; [done|].
  destruct (MergeIn.load_csv draft_keep) as [|dk]; [done|].
  destruct (MergeIn.load_csv matched) as [|m]; [done|].
  destruct (MergeIn.load_csv recommended) as [|r]; [done|].
  intros [= <-]. exists xs, dk, m, r. split_and!; try done.
  unfold merge_candidates. simpl.
  by destruct (dupes _), (unmatched _).
Qed.




(** *** merge_custom_channels.py: what is written *)

Lemma get_or_stripped (r : gmap string string) k d :
  (∀ k v, r !! k = Some v → str_strip v = v) →
  str_strip d = d → str_strip (get_or r k d) = get_or r k d.
Proof.
  intros Hr Hd. unfold get_or.
  destruct (r !! k) as [v|] eqn:Hk; [|done].
  case_decide; [done|]. by eapply Hr.
Qed.

Lemma present_stripped d k v :
  stripped_row d → MergeIn.present d !! k = Some v → str_strip v = v.
Proof.
  intros Hd. unfold MergeIn.present. rewrite lookup_omap.
  destruct (d !! k) as [[v'|]|] eqn:Hk; simpl; [|done..].
  intros [= <-]. destruct (Hd _ _ Hk) as [_ Hv]. simpl in Hv. congruence.
Qed.

Lemma csv_candidate_stripped src d :
  stripped_row d → stripped_fields (csv_candidate src (MergeIn.present d)).
Proof.
  intros Hd.
  assert (∀ k v, MergeIn.present d !! k = Some v → str_strip v = v) as Hp
    by (intros k v; by apply present_stripped).
  unfold stripped_fields, csv_candidate. simpl.
  split_and!; repeat (apply get_or_stripped; [done|]); reflexivity.
Qed.

Lemma build_candidates_stripped custom xs dk m r :
  load_custom_xml custom = inr xs →
  Forall stripped_row dk → Forall stripped_row m → Forall stripped_row r →
  Forall stripped_fields
    (build_candidates xs (MergeIn.present <$> dk)
       (MergeIn.present <$> m) (MergeIn.present <$> r)).
Proof.
  intros Hx Hdk Hm Hr. unfold build_candidates.
  assert (∀ src rows, Forall stripped_row rows →
            Forall stripped_fields
              (csv_candidate src <$> (MergeIn.present <$> rows))) as Hcsv.
  { intros src rows Hrows. rewrite <- list_fmap_compose.
    apply Forall_fmap. eapply Forall_impl; [done|].
    intros d Hd. by apply csv_candidate_stripped. }
  repeat (apply Forall_app; split); [|by apply Hcsv..].
  destruct custom as [| |channels]; simplify_eq/=; [constructor|].
  rewrite <- list_fmap_compose.
  apply Forall_fmap, Forall_forall. intros ch _.
  unfold stripped_fields, load_channel. simpl.
  by rewrite !str_strip_idem.
Qed.

Lemma winners_are_candidates cs c :
  c ∈ (merge_candidates cs).1.1 → c ∈ cs.
Proof.
  simpl. intros (k & _ & Hk)%elem_lookup_key.
  destruct (run_table_ok cs) as [Hnd Hok].
  by destruct (Hok _ _ (Hk Hnd)) as (_ & _ & ?).
Qed.

Lemma winners_usable cs : Forall usable (merge_candidates cs).1.1.
Proof.
  apply Forall_forall. simpl. intros w (k & _ & Hk)%elem_lookup_key.
  destruct (run_table_ok cs) as [Hnd Hok].
  by destruct (Hok _ _ (Hk Hnd)) as (_ & ? & _).
Qed.

Lemma winners_distinct cs : NoDup (identity_key <$> (merge_candidates cs).1.1).
Proof.
  pose proof (run_table_ok cs) as Hok. simpl.
  rewrite (table_ok_keys cs _ Hok). apply Hok.
Qed.

Lemma Forall_sorted_channels (P : candidate → Prop) l :
  Forall P l → Forall P (sorted_channels l).
Proof. intros Hl. by rewrite sorted_channels_perm. Qed.

Lemma main_winners custom draft_keep matched recommended out :
  MergeIn.main custom draft_keep matched recommended = inr out →
  ∃ ws, out_xml out = write_xml ws
    ∧ Forall stripped_fields ws ∧ Forall usable ws
    ∧ NoDup (identity_key <$> ws).
Proof.
  intros (xs & dk & m & r & Hx & H1 & H2 & H3 & ->)%main_result.
  cbn zeta. set (cs := build_candidates xs _ _ _). cbn [out_xml].
  exists (merge_candidates cs).1.1.
  split_and!; [done | | apply winners_usable | apply winners_distinct].
  assert (Forall stripped_fields cs) as Hstripped.
  { eapply build_candidates_stripped; [done|by eapply load_csv_stripped..]. }
  apply Forall_forall. intros c Hc%winners_are_candidates.
  exact (proj1 (Forall_forall _ _) Hstripped c Hc).
Qed.

(** X9. What a run hands to the writer, whatever the input files hold:
    the elements of channels that have a usable name and no blank at
    either end of site, id or name (the loaders strip every field), no two
    of them with the same identity key. *)
Theorem written_channels_are_clean
    custom draft_keep matched recommended out :
  MergeIn.main custom draft_keep matched recommended = inr out →
  ∃ ws, out_xml out = channel_element <$> ws
    ∧ Forall (λ c, stripped_fields c ∧ usable c) ws
    ∧ NoDup (identity_key <$> ws).
Proof.
  intros (ws & -> & Hstr & Hus & Hnd)%main_winners.
  exists (sorted_channels ws). split_and!.
  - done.
  - apply Forall_sorted_channels, Forall_and. done.
  - apply (NoDup_Permutation_proper _ _
             (fmap_Permutation identity_key _ _ (sorted_channels_perm ws))).
    exact Hnd.
Qed.

Lemma written_channels_are_clean_witness :
  let custom :=
    Document
      [ Element {[ "site" := "sky"; "xmltv_id" := " CNN.us" ]} (Some " CNN ");
        Element ∅ None ] in
  let draft_keep :=
    Some [ [MergeIn.Field "name" (Some "CNN HD"); MergeIn.Field "id" (Some "CNN.us")];
           [MergeIn.Field "name" (Some " BBC One"); MergeIn.Field "id" None] ] in
  ∃ out ws,
    MergeIn.main custom draft_keep None None = inr out
    ∧ out_xml out = channel_element <$> ws
    ∧ Forall (λ c, stripped_fields c ∧ usable c) ws.
Proof.
  intros custom draft_keep.
  destruct (MergeIn.main custom draft_keep None None) as [e|out] eqn:Hrun;
    [exfalso; revert Hrun; compute_done|].
  destruct (written_channels_are_clean custom draft_keep None None out Hrun)
    as (ws & Hxml & Hclean & _).
  exists out, ws. done.
Defined.

(** *** merge_custom_channels.py: running on its own output *)

Lemma sorted_channels_fixed l : Sorted channel_le l → sorted_channels l = l.
Proof.
  induction 1 as [|y l Hl IH Hhd]; simpl; [done|]. rewrite IH.
  destruct Hhd as [|z l Hyz]; simpl; [done|]. by rewrite decide_True.
Qed.

Lemma insert_channel_fmap (f : candidate → candidate) c l :
  (∀ x, sort_key (f x) = sort_key x) →
  insert_channel (f c) (f <$> l) = f <$> insert_channel c l.
Proof.
  intros Hf. induction l as [|y l IH]; csimpl; [done|].
  rewrite !Hf. case_decide; csimpl; [done|]. by rewrite IH.
Qed.

Lemma sorted_channels_fmap (f : candidate → candidate) l :
  (∀ x, sort_key (f x) = sort_key x) →
  sorted_channels (f <$> l) = f <$> sorted_channels l.
Proof.
  intros Hf. induction l as [|y l IH]; csimpl; [done|].
  by rewrite IH, insert_channel_fmap.
Qed.

Lemma read_back_winners ws :
  Forall stripped_fields ws → Forall usable ws →
  NoDup (identity_key <$> ws) →
  MergeIn.main (Document (write_xml ws)) None None None
  = inr {| out_xml := write_xml ws; out_dupes := None;
           out_unmatched := None |}.
Proof.
  intros Hstr Hus Hnd. unfold MergeIn.main. simpl.
  set (l := sorted_channels ws).
  assert (build_candidates (load_channel <$> write_xml ws) [] [] []
          = as_custom <$> l) as ->.
  { unfold build_candidates, write_xml. csimpl.
    rewrite app_nil_r, <- !list_fmap_compose.
    apply Forall_fmap_ext_1.
    assert (Forall stripped_fields l) as Hl
      by (by apply Forall_sorted_channels).
    eapply Forall_impl; [exact Hl|]. intros c (Hs & Hi & Hn).
    unfold compose. rewrite load_channel_element. unfold as_custom. simpl.
    by rewrite Hs, Hi, Hn. }
  assert (identity_key <$> (as_custom <$> l) = identity_key <$> l) as Hkeys.
  { rewrite <- list_fmap_compose. by apply list_fmap_ext. }
  assert (Forall usable (as_custom <$> l)) as Hus'.
  { apply Forall_fmap, Forall_sorted_channels.
    eapply Forall_impl; [exact Hus|]. by intros c Hc. }
  assert (NoDup (identity_key <$> (as_custom <$> l))) as Hnd'.
  { rewrite Hkeys.
    apply (NoDup_Permutation_proper _ _
             (fmap_Permutation identity_key _ _ (sorted_channels_perm ws))).
    exact Hnd. }
  rewrite (run_distinct _ Hus' Hnd'). simpl.
  do 2 f_equal. rewrite <- list_fmap_compose.
  change ((λ x, x.2) ∘ (λ c, (identity_key c, c))) with (@id candidate).
  rewrite list_fmap_id. unfold write_xml.
  rewrite sorted_channels_fmap by done.
  unfold l. rewrite (sorted_channels_fixed (sorted_channels ws))
    by apply sorted_channels_sorted.
  rewrite <- list_fmap_compose. by apply list_fmap_ext.
Qed.

(** X30. The merged list is a fixed point of the script, on parsed
    documents: when a run ends normally and a later run is given a curated
    list that parses to exactly the channel elements the first run handed
    to the writer, and no CSV file, the later run hands the same elements
    to the writer again, with no duplicate and no unmatched row to review.
    (Whether the written file parses back to these elements is a matter of
    the XML library and of the characters in the names; it is a premise
    here.) *)
Theorem merged_document_is_a_fixed_point
    custom draft_keep matched recommended out :
  MergeIn.main custom draft_keep matched recommended = inr out →
  MergeIn.main (Document (out_xml out)) None None None
  = inr {| out_xml := out_xml out; out_dupes := None;
           out_unmatched := None |}.
Proof.
  intros (ws & -> & Hstr & Hus & Hnd)%main_winners.
  by apply read_back_winners.
Qed.

Lemma merged_document_is_a_fixed_point_witness :
  let custom :=
    Document
      [ Element {[ "site" := "sky"; "xmltv_id" := "CNN.us" ]} (Some " CNN ") ] in
  let draft_keep :=
    Some [ [MergeIn.Field "name" (Some "CNN HD"); MergeIn.Field "id" (Some "CNN.us")];
           [MergeIn.Field "name" (Some " BBC One"); MergeIn.Field "id" None] ] in
  let doc :=
    [ Element ∅ (Some "BBC One");
      Element {[ "site" := "sky"; "xmltv_id" := "CNN.us" ]} (Some "CNN") ] in
  MergeIn.main (Document doc) None None None
  = inr {| out_xml := doc; out_dupes := None; out_unmatched := None |}.
Proof.
  intros custom draft_keep doc.
  set (out := {| out_xml := doc;
                 out_dupes :=
                   Some [ {| key := "CNN.us"; kept_name := "CNN";
                             dropped_name := "CNN HD";
                             kept_source := "custom.channels.xml";
                             dropped_source := "Draft-Keep.csv";
                             kept_xmltv_id := "CNN.us";
                             dropped_xmltv_id := "CNN.us" |} ];
                 out_unmatched := None |}).
  assert (MergeIn.main custom draft_keep None None = inr out) as Hrun
    by compute_done.
  exact (merged_document_is_a_fixed_point custom draft_keep None None out Hrun).
Defined.

End MainFacts.
